(** * py-feat: size-indexed enumeration of algebraic data types

    A shallow embedding of [feat.py].  The Python objects ([Enum],
    [Constructor], [IntEnum]) live in a heap addressed by references, so
    that recursive definitions (an [Enum] that is a component of one of
    its own constructors) and the mutable memoization tables are modelled
    as the program has them.  Method calls are state-passing computations
    that may raise a Python exception; recursion and [while] loops are
    bounded by a fuel argument.

    Integers are Python's unbounded integers.  The tables [cards] and
    [cs] are lists held in the object that owns them; the program never
    shares one between two objects.  The arguments of the constructor
    functions are integers and lists.  The recursion limit of the
    interpreter is not modelled.  [all] is given the list of the values
    it prints as its result, and the dictionary of [listToMap] is a
    finite map from strings.  The JSON example at the end of the file
    (dictionaries as values, [json.dumps]) is not part of the model. *)

From Stdlib Require Import ZArith Lia List Bool.
From stdpp Require Import base list relations gmap strings pretty.
Import ListNotations.

Local Open Scope Z_scope.

(** * The program *)

(** ** Python values and exceptions *)

#[warnings="-register-all"]
Inductive value : Type :=
| VInt (z : Z)
| VList (l : list value).

Inductive exn : Type :=
| ValueError
| IndexError
| ZeroDivisionError
| TypeError
| AttributeError.

(** A Python callable used as the [con] argument of [Constructor]: it is
    applied to the list of decoded components ([self.con( *args)]) and
    either returns a value or raises (modelled as [None]). *)
Definition builder : Type := list value -> option value.

(** Objects are referred to by their position in the heap. *)
Abbreviation ref := nat (only parsing).

(** ** Objects

    [Constructor.__init__] has three branches.  With no component and with
    one component the instance gets its own [card] and [index] closures
    ([Constructor0], [Constructor1]); otherwise it stores [con], [enums],
    [next] and the matrix [cs] and uses the methods of the class. *)
Inductive obj : Type :=
| Enum (constructors : list ref) (cards : list Z)
| Constructor0 (con : builder)
| Constructor1 (con : builder) (e : ref)
| Constructor (con : builder) (enums : list ref) (next : Z) (cs : list (list Z))
| IntEnum.

Abbreviation heap := (list obj) (only parsing).

(** ** Computations *)

Inductive outcome (A : Type) : Type :=
| Ret (a : A) (h : heap)
| Raise (e : exn) (h : heap)
| OutOfFuel.
Arguments Ret {A} a h.
Arguments Raise {A} e h.
Arguments OutOfFuel {A}.

Definition M (A : Type) : Type := heap -> outcome A.

Definition ret {A} (a : A) : M A := fun h => Ret a h.
Definition raise {A} (e : exn) : M A := fun h => Raise e h.
Definition diverge {A} : M A := fun _ => OutOfFuel.

Definition bind {A B} (m : M A) (k : A -> M B) : M B :=
  fun h =>
    match m h with
    | Ret a h' => k a h'
    | Raise e h' => Raise e h'
    | OutOfFuel => OutOfFuel
    end.

Notation "x <- m ;; k" := (bind m (fun x => k))
  (at level 100, m at next level, right associativity).
Notation "m ;;; k" := (bind m (fun _ => k))
  (at level 100, right associativity).

(** [for x in l: a = f(a, x)] *)
Fixpoint foldM {A X} (f : A -> X -> M A) (l : list X) (a : A) : M A :=
  match l with
  | [] => ret a
  | x :: l' => a' <- f a x ;; foldM f l' a'
  end.

(** ** Python primitives *)

Definition len {A} (l : list A) : Z := Z.of_nat (length l).

(** [l[i]]: a negative index counts from the end; out of range raises
    [IndexError]. *)
Definition py_getitem {A} (l : list A) (i : Z) : option A :=
  let j := if i <? 0 then len l + i else i in
  if (0 <=? j) && (j <? len l) then l !! Z.to_nat j else None.

Definition getitem {A} (l : list A) (i : Z) : M A :=
  match py_getitem l i with
  | Some a => ret a
  | None => raise IndexError
  end.

(** [range(n)] and [range(n, -1, -1)] *)
Definition range (n : Z) : list Z := map Z.of_nat (seq 0 (Z.to_nat n)).
Definition range_down (n : Z) : list Z := rev (range (n + 1)).

(** [divmod(a, b)] on integers: floor division, the remainder has the sign
    of the divisor. *)
Definition divmod (a b : Z) : M (Z * Z) :=
  if b =? 0 then raise ZeroDivisionError else ret (a / b, a mod b).

(** [con( *args)] *)
Definition call (con : builder) (args : list value) : M value :=
  match con args with
  | Some v => ret v
  | None => raise TypeError
  end.

(** ** Attribute access *)

Definition get_obj (r : ref) : M obj :=
  fun h => match h !! r with
           | Some o => Ret o h
           | None => Raise AttributeError h
           end.

Definition set_obj (r : ref) (o : obj) : M unit :=
  fun h => Ret tt (<[r := o]> h).

(** [self.cards] *)
Definition get_cards (r : ref) : M (list Z) :=
  o <- get_obj r ;;
  match o with
  | Enum _ cards => ret cards
  | _ => raise AttributeError
  end.

(** [self.cards.append(c)] *)
Definition cards_append (r : ref) (c : Z) : M unit :=
  o <- get_obj r ;;
  match o with
  | Enum constructors cards => set_obj r (Enum constructors (cards ++ [c]))
  | _ => raise AttributeError
  end.

(** [self.next] *)
Definition get_next (r : ref) : M Z :=
  o <- get_obj r ;;
  match o with
  | Constructor _ _ next _ => ret next
  | _ => raise AttributeError
  end.

(** [self.next = v] *)
Definition set_next (r : ref) (v : Z) : M unit :=
  o <- get_obj r ;;
  match o with
  | Constructor con enums _ cs => set_obj r (Constructor con enums v cs)
  | _ => raise AttributeError
  end.

(** [self.cs] *)
Definition get_cs (r : ref) : M (list (list Z)) :=
  o <- get_obj r ;;
  match o with
  | Constructor _ _ _ cs => ret cs
  | _ => raise AttributeError
  end.

(** [self.cs[k][i]] *)
Definition get_cs_at (r : ref) (k i : Z) : M Z :=
  cs <- get_cs r ;;
  row <- getitem cs k ;;
  getitem row i.

(** Position of [cs[k]] in [cs], as Python resolves the index. *)
Definition row_pos (cs : list (list Z)) (k : Z) : nat :=
  Z.to_nat (if k <? 0 then len cs + k else k).

(** [self.cs[k].append(c)] *)
Definition cs_append (r : ref) (k : Z) (c : Z) : M unit :=
  o <- get_obj r ;;
  match o with
  | Constructor con enums next cs =>
      row <- getitem cs k ;;
      set_obj r (Constructor con enums next (<[row_pos cs k := row ++ [c]]> cs))
  | _ => raise AttributeError
  end.

(** ** The methods

    [Enum.index]'s [for] loop returns from inside the loop, so it is a
    recursion of its own over the list of constructors. *)
Fixpoint Enum_index_for (card : ref -> Z -> M Z) (index : ref -> Z -> Z -> M value)
    (constructors : list ref) (n i : Z) : M value :=
  match constructors with
  | [] => raise ValueError
  | con :: rest =>
      c <- card con (n - 1) ;;
      if i <? c then index con (n - 1) i
      else Enum_index_for card index rest n (i - c)
  end.

Fixpoint card (fuel : nat) (r : ref) (n : Z) {struct fuel} : M Z :=
  match fuel with
  | O => diverge
  | S fuel =>
      o <- get_obj r ;;
      match o with
      | IntEnum => ret 1
      | Constructor0 _ => ret (if n =? 1 then 1 else 0)
      | Constructor1 _ e => card fuel e n
      | Constructor _ _ _ _ =>
          expand fuel r n ;;;
          get_cs_at r 0 n
      | Enum _ _ =>
          if n <=? 0 then ret 0 else Enum_card_while fuel r n
      end
  end

(** [while(n >= len(self.cards))] of [Enum.card], then [return self.cards[n]] *)
with Enum_card_while (fuel : nat) (r : ref) (n : Z) {struct fuel} : M Z :=
  match fuel with
  | O => diverge
  | S fuel =>
      o <- get_obj r ;;
      match o with
      | Enum constructors cards =>
          if n >=? len cards then
            c <- foldM (fun c con =>
                          cards <- get_cards r ;;
                          v <- card fuel con (len cards - 1) ;;
                          ret (c + v))
                       constructors 0 ;;
            cards_append r c ;;;
            Enum_card_while fuel r n
          else getitem cards n
      | _ => raise AttributeError
      end
  end

(** [Constructor.expand]: [while(self.next <= n)] *)
with expand (fuel : nat) (r : ref) (n : Z) {struct fuel} : M unit :=
  match fuel with
  | O => diverge
  | S fuel =>
      o <- get_obj r ;;
      match o with
      | Constructor _ enums next cs =>
          if next <=? n then
            getitem cs (-1) ;;;
            e <- getitem enums (-1) ;;
            v <- card fuel e next ;;
            cs_append r (-1) v ;;;
            foldM (fun _ k =>
                     next <- get_next r ;;
                     c <- foldM (fun c i =>
                                   x <- get_cs_at r (k + 1) i ;;
                                   e <- getitem enums k ;;
                                   next <- get_next r ;;
                                   y <- card fuel e (next - i) ;;
                                   ret (c + x * y))
                                (range (next + 1)) 0 ;;
                     cs_append r k c)
                  (range_down (len enums - 2)) tt ;;;
            next <- get_next r ;;
            set_next r (next + 1) ;;;
            expand fuel r n
          else ret tt
      | _ => raise AttributeError
      end
  end.

(** The [while i >= c] search of [Constructor.index] for component [e] at
    position [k]: returns the reduced index and the size chosen. *)
Fixpoint index_while (fuel : nat) (r e : ref) (k n i esize : Z) {struct fuel} : M (Z * Z) :=
  match fuel with
  | O => diverge
  | S fuel =>
      x <- card fuel e esize ;;
      y <- get_cs_at r (k + 1) (n - esize) ;;
      let c := x * y in
      if i >=? c then index_while fuel r e k n (i - c) (esize + 1)
      else ret (i, esize)
  end.

Fixpoint index (fuel : nat) (r : ref) (n i : Z) {struct fuel} : M value :=
  match fuel with
  | O => diverge
  | S fuel =>
      o <- get_obj r ;;
      match o with
      | IntEnum => ret (VInt n)
      | Constructor0 con => call con []
      | Constructor1 con e => v <- index fuel e n i ;; call con [v]
      | Enum constructors _ =>
          Enum_index_for (card fuel) (index fuel) constructors n i
      | Constructor con enums _ _ =>
          expand fuel r n ;;;
          st <- foldM (fun (st : Z * Z * list value) k =>
                         let '(n, i, args) := st in
                         e <- getitem enums k ;;
                         ie <- index_while fuel r e k n i 0 ;;
                         let '(i, esize) := ie in
                         let n := n - esize in
                         d <- card fuel e esize ;;
                         qr <- divmod i d ;;
                         let '(i, ei) := qr in
                         v <- index fuel e esize ei ;;
                         ret (n, i, args ++ [v]))
                      (range (len enums - 1)) (n, i, []) ;;
          let '(n, i, args) := st in
          e <- getitem enums (-1) ;;
          v <- index fuel e n i ;;
          call con (args ++ [v])
      end
  end.

(** [ix]: the [while(index > enum.card(n))] loop, then [enum.index(n, index)] *)
Fixpoint ix_while (fuel : nat) (enum : ref) (idx n : Z) {struct fuel} : M (Z * Z) :=
  match fuel with
  | O => diverge
  | S fuel' =>
      c <- card fuel' enum n ;;
      if idx >? c then
        c' <- card fuel' enum n ;;
        ix_while fuel' enum (idx - c') (n + 1)
      else ret (idx, n)
  end.

Definition ix (fuel : nat) (enum : ref) (idx : Z) : M value :=
  st <- ix_while fuel enum idx 0 ;;
  let '(idx, n) := st in
  index fuel enum n idx.

(** [all(e, n)]: the values printed, in order, and how the call ends. *)
Fixpoint all_for (index : Z -> M value) (l : list Z) (h : heap) : list value * outcome unit :=
  match l with
  | [] => ([], Ret tt h)
  | i :: l' =>
      match index i h with
      | Ret v h' => let '(vs, o) := all_for index l' h' in (v :: vs, o)
      | Raise e h' => ([], Raise e h')
      | OutOfFuel => ([], OutOfFuel)
      end
  end.

Definition all (fuel : nat) (e : ref) (n : Z) (h : heap) : list value * outcome unit :=
  match card fuel e n h with
  | Ret c h' => all_for (index fuel e n) (range c) h'
  | Raise x h' => ([], Raise x h')
  | OutOfFuel => ([], OutOfFuel)
  end.

(** ** Building enumerators *)

Definition alloc (o : obj) : heap -> ref * heap :=
  fun h => (length h, h ++ [o]).

(** [Enum()] *)
Definition new_Enum : heap -> ref * heap := alloc (Enum [] [0]).

(** [IntEnum()] *)
Definition new_IntEnum : heap -> ref * heap := alloc IntEnum.

(** [Constructor(con, enums)] *)
Definition new_Constructor (con : builder) (enums : list ref) : heap -> ref * heap :=
  match enums with
  | [] => alloc (Constructor0 con)
  | [e] => alloc (Constructor1 con e)
  | _ => alloc (Constructor con enums 0 (map (fun _ => []) enums))
  end.

(** [e.addcon(c)] *)
Definition addcon (e c : ref) (h : heap) : heap :=
  match h !! e with
  | Some (Enum constructors _) => <[e := Enum (constructors ++ [c]) [0]]> h
  | _ => h
  end.

(** [lambda: []] *)
Definition nil_builder : builder :=
  fun args => match args with [] => Some (VList []) | _ => None end.

(** [app(x, xs)]: [xs.append(x); return xs].  The list [xs] is the one
    just decoded for the last component, which no other value shares. *)
Definition app : builder :=
  fun args =>
    match args with
    | [x; VList xs] => Some (VList (xs ++ [x]))
    | _ => None
    end.

Definition elist (elems : ref) (h : heap) : ref * heap :=
  let '(e, h) := new_Enum h in
  let '(c0, h) := new_Constructor nil_builder [] h in
  let h := addcon e c0 h in
  let '(c1, h) := new_Constructor app [elems; e] h in
  let h := addcon e c1 h in
  (e, h).

(** [elist(IntEnum())] on an empty heap: the [IntEnum] is object 0, the
    list enumerator object 1. *)
Definition nat_list_heap : heap := snd (elist 0%nat (snd (new_IntEnum []))).
Definition nat_list : ref := 1%nat.

(** [listToMap(xs)]: the dictionary with [xs[k]] under the key ["a" + str(k)]. *)
Fixpoint listToMap_for (xs : list value) (res : gmap string value) (key : Z) :
    gmap string value :=
  match xs with
  | [] => res
  | x :: xs' => listToMap_for xs' (<["a" +:+ pretty key := x]> res) (key + 1)
  end.

Definition listToMap (xs : list value) : gmap string value := listToMap_for xs ∅ 0.

(** * Specifications *)

(** ** The static structure of a heap

    [card] and [index] change only the memoization fields ([cards],
    [next], [cs]); what an object is and which objects it refers to is
    fixed once the enumerators are built. *)

Inductive skel : Type :=
| SEnum (constructors : list ref)
| SConstructor0 (con : builder)
| SConstructor1 (con : builder) (e : ref)
| SConstructor (con : builder) (enums : list ref)
| SIntEnum.

Definition skel_of (o : obj) : skel :=
  match o with
  | Enum constructors _ => SEnum constructors
  | Constructor0 con => SConstructor0 con
  | Constructor1 con e => SConstructor1 con e
  | Constructor con enums _ _ => SConstructor con enums
  | IntEnum => SIntEnum
  end.

Definition skeleton (h : heap) : list skel := map skel_of h.

(** Every chain of component references that starts at [r] reaches an
    [Enum], an [IntEnum] or a nullary constructor within [d] steps: no
    cycle of references avoids the [Enum]s. *)
Fixpoint grounded (sk : list skel) (d : nat) (r : ref) : bool :=
  match d with
  | O => false
  | S d =>
      match sk !! r with
      | Some SIntEnum | Some (SConstructor0 _) | Some (SEnum _) => true
      | Some (SConstructor1 _ e) => grounded sk d e
      | Some (SConstructor _ enums) =>
          negb (Nat.eqb (length enums) 0) && forallb (grounded sk d) enums
      | None => false
      end
  end.

Definition closed_skel (sk : list skel) (s : skel) : bool :=
  match s with
  | SEnum constructors => forallb (fun c => Nat.ltb c (length sk)) constructors
  | _ => true
  end.

(** Well-formed structure: no dangling reference, and every cycle of
    references passes through an [Enum]. *)
Definition wf_skel (sk : list skel) : bool :=
  forallb (grounded sk (length sk)) (seq 0 (length sk)) && forallb (closed_skel sk) sk.

(** ** Cardinalities, as a function of the structure *)

Definition Zsum (l : list Z) : Z := fold_right Z.add 0 l.

(** Number of ways to build a tuple of total size [s] from the components
    [enums], given the cardinalities [c] of the components. *)
Fixpoint prodcard (c : ref -> Z -> Z) (enums : list ref) (s : Z) : Z :=
  match enums with
  | [] => 0
  | e :: es =>
      match es with
      | [] => c e s
      | _ => Zsum (map (fun i => prodcard c es i * c e (s - i)) (range (s + 1)))
      end
  end.

Section Denotation.
Variable sk : list skel.

(** Cardinalities at one size, through the constructors down to the
    next [Enum]s, whose alternatives are counted by [below]. *)
Fixpoint layer (below : ref -> Z -> Z) (d : nat) (r : ref) (n : Z) : Z :=
  match d with
  | O => 0
  | S d =>
      match sk !! r with
      | Some SIntEnum => 1
      | Some (SConstructor0 _) => if n =? 1 then 1 else 0
      | Some (SConstructor1 _ e) => layer below d e n
      | Some (SConstructor _ enums) => prodcard (layer below d) enums n
      | Some (SEnum constructors) =>
          if n <=? 0 then 0
          else Zsum (map (fun c => below c (n - 1)) constructors)
      | None => 0
      end
  end.

Fixpoint cardN (sz : nat) : ref -> Z -> Z :=
  match sz with
  | O => fun _ _ => 0
  | S sz => layer (cardN sz) (length sk)
  end.

(** [cardD r n]: the number of values of size [n] of the enumerator [r]. *)
Definition cardD (r : ref) (n : Z) : Z := cardN (S (Z.to_nat n)) r n.

End Denotation.

(** ** Outcomes of fuel-bounded computations *)

(** [c] run from [h] ends with outcome [o], whatever fuel it is given
    beyond some bound. *)
Definition Runs {A} (c : nat -> M A) (h : heap) (o : outcome A) : Prop :=
  o <> OutOfFuel /\ exists F : nat, forall f, (F <= f)%nat -> c f h = o.

Definition out (res : option value) (h : heap) : outcome value :=
  match res with
  | Some v => Ret v h
  | None => Raise TypeError h
  end.

(** [o'] is [o], unless [o] ran out of fuel. *)
Definition le_out {A} (o o' : outcome A) : Prop := o = OutOfFuel \/ o = o'.

(** ** Consistent memoization tables *)

(** What [cs[k][i]] must hold: the number of tuples of total size [i] of
    the components [k], [k+1], ... *)
Definition table (sk : list skel) (enums : list ref) (k : nat) (i : Z) : Z :=
  prodcard (cardD sk) (drop k enums) i.

(** The matrix whose row [k] is filled up to (excluding) size [lv k]. *)
Definition cs_at (sk : list skel) (enums : list ref) (lv : nat -> Z) : list (list Z) :=
  map (fun k => map (table sk enums k) (range (lv k))) (seq 0 (length enums)).

(** The tables of an object hold the right cardinalities.  While
    [expand] is adding a column to [cs], the rows already extended are one
    entry longer than [next] ([obj_weak]). *)
Definition obj_weak (sk : list skel) (r : ref) (o : obj) : Prop :=
  match o with
  | Enum _ cards => 1 <= len cards /\ cards = map (cardD sk r) (range (len cards))
  | Constructor _ enums next cs =>
      0 <= next /\ exists lv, cs = cs_at sk enums lv /\ forall k, next <= lv k
  | _ => True
  end.

Definition obj_ok (sk : list skel) (r : ref) (o : obj) : Prop :=
  match o with
  | Enum _ cards => 1 <= len cards /\ cards = map (cardD sk r) (range (len cards))
  | Constructor _ enums next cs => 0 <= next /\ cs = cs_at sk enums (fun _ => next)
  | _ => True
  end.

(** Every memoization table of the heap holds the right cardinalities. *)
Definition right_tables (h : heap) : Prop :=
  forall r o, h !! r = Some o -> obj_ok (skeleton h) r o.

(** A heap between two calls: well-formed structure and right tables. *)
Definition consistent (h : heap) : Prop :=
  wf_skel (skeleton h) = true /\ right_tables h.

Definition fresh_obj (o : obj) : bool :=
  match o with
  | Enum _ cards => match cards with [z] => z =? 0 | _ => false end
  | Constructor _ enums next cs =>
      (next =? 0) && Nat.eqb (length cs) (length enums) &&
      forallb (fun row : list Z => match row with [] => true | _ => false end) cs
  | _ => true
  end.

(** No cardinality was asked yet: the tables are as [__init__] and
    [addcon] leave them. *)
Definition fresh (h : heap) : bool := forallb fresh_obj h.

(** [cs[k][s]] *)
Definition cs_entry (cs : list (list Z)) (k s : Z) : option Z :=
  py_getitem cs k ≫= fun row => py_getitem row s.

(** Object [r] already holds its cardinality at size [n]. *)
Fixpoint memoized (h : heap) (d : nat) (r : ref) (n : Z) : Prop :=
  match d with
  | O => False
  | S d =>
      match h !! r with
      | Some (Enum _ cards) => n < len cards
      | Some (Constructor _ _ next _) => n < next
      | Some (Constructor1 _ e) => memoized h d e n
      | Some (Constructor0 _) | Some IntEnum => True
      | None => False
      end
  end.

(** The tables of [o'] extend those of [o]: entries are appended, none is
    changed. *)
Definition obj_extends (o o' : obj) : Prop :=
  match o, o' with
  | Enum constructors cards, Enum constructors' cards' =>
      constructors' = constructors /\ cards `prefix_of` cards'
  | Constructor con enums next cs, Constructor con' enums' next' cs' =>
      con' = con /\ enums' = enums /\ next <= next' /\ Forall2 prefix cs cs'
  | _, _ => o' = o
  end.

Definition extends (h h' : heap) : Prop := Forall2 obj_extends h h'.

(** ** What [index] decodes, as a relation on the structure *)

(** The alternative of an [Enum] that owns index [i], and the index
    within it ([c] gives the cardinalities of the alternatives). *)
Fixpoint pick (c : ref -> Z) (constructors : list ref) (i : Z) : option (ref * Z) :=
  match constructors with
  | [] => None
  | con :: rest => if i <? c con then Some (con, i) else pick c rest (i - c con)
  end.

(** The linear search of [Constructor.index]: blocks of [f 0], [f 1], ...
    indices are skipped until the block that contains the index. *)
Inductive searchR (f : Z -> Z) : Z -> Z -> Z -> Z -> Prop :=
| search_stop i esize :
    i < f esize -> searchR f i esize i esize
| search_next i esize i' esize' :
    f esize <= i -> searchR f (i - f esize) (esize + 1) i' esize' ->
    searchR f i esize i' esize'.

(** Number of tuples in which the first component [e] has size [s] and the
    other components [es] share the size [n - s]. *)
Definition block (sk : list skel) (e : ref) (es : list ref) (n s : Z) : Z :=
  cardD sk e s * prodcard (cardD sk) es (n - s).

(** [IndexR sk r n i res]: [index(n, i)] on object [r] yields [res]; [None]
    when a constructor function raises. *)
Inductive IndexR (sk : list skel) : ref -> Z -> Z -> option value -> Prop :=
| IR_IntEnum r n i :
    sk !! r = Some SIntEnum ->
    IndexR sk r n i (Some (VInt n))
| IR_Constructor0 r con n i :
    sk !! r = Some (SConstructor0 con) ->
    IndexR sk r n i (con [])
| IR_Constructor1 r con e n i res :
    sk !! r = Some (SConstructor1 con e) ->
    IndexR sk e n i res ->
    IndexR sk r n i (res ≫= fun v => con [v])
| IR_Enum r constructors n i c i' res :
    sk !! r = Some (SEnum constructors) ->
    pick (fun c => cardD sk c (n - 1)) constructors i = Some (c, i') ->
    IndexR sk c (n - 1) i' res ->
    IndexR sk r n i res
| IR_Constructor r con enums n i args :
    sk !! r = Some (SConstructor con enums) ->
    DecodeR sk enums n i args ->
    IndexR sk r n i (args ≫= con)

(** The components decoded for the product of [enums] at total size [n]. *)
with DecodeR (sk : list skel) : list ref -> Z -> Z -> option (list value) -> Prop :=
| DR_last e n i res :
    IndexR sk e n i res ->
    DecodeR sk [e] n i (res ≫= fun v => Some [v])
| DR_raise e es n i i1 esize :
    es <> [] ->
    searchR (block sk e es n) i 0 i1 esize ->
    IndexR sk e esize (i1 mod cardD sk e esize) None ->
    DecodeR sk (e :: es) n i None
| DR_cons e es n i i1 esize v args :
    es <> [] ->
    searchR (block sk e es n) i 0 i1 esize ->
    IndexR sk e esize (i1 mod cardD sk e esize) (Some v) ->
    DecodeR sk es (n - esize) (i1 / cardD sk e esize) args ->
    DecodeR sk (e :: es) n i (args ≫= fun vs => Some (v :: vs)).

(** The values that enumerator [r] yields, at any size. *)
Definition produces (sk : list skel) (r : ref) (v : value) : Prop :=
  exists n i, 0 <= n /\ 0 <= i < cardD sk r n /\ IndexR sk r n i (Some v).

Definition con_of (s : skel) : option builder :=
  match s with
  | SConstructor0 con | SConstructor1 con _ | SConstructor con _ => Some con
  | _ => None
  end.

(** The constructor functions are injective, and no value is yielded by
    two alternatives of one [Enum]: the enumerator describes a free
    data type. *)
Definition unambiguous (sk : list skel) : Prop :=
  (forall r s con, sk !! r = Some s -> con_of s = Some con ->
     forall args args' v, con args = Some v -> con args' = Some v -> args = args') /\
  (forall r constructors (p q : nat) c c' v,
     sk !! r = Some (SEnum constructors) ->
     constructors !! p = Some c -> constructors !! q = Some c' ->
     produces sk c v -> produces sk c' v -> p = q).

(** Some [index(n, i)] with [n >= 0] and [0 <= i < card(n)] returns [v]. *)
Definition yields (h : heap) (r : ref) (v : value) : Prop :=
  exists n i c hc h',
    0 <= n /\ Runs (fun f => card f r n) h (Ret c hc) /\ 0 <= i < c /\
    Runs (fun f => index f r n i) h (Ret v h').

(** The constructor functions of the heap are injective, and no value is
    returned by two alternatives of one [Enum]. *)
Definition unambiguous_heap (h : heap) : Prop :=
  (forall r o con, h !! r = Some o -> con_of (skel_of o) = Some con ->
     forall args args' v, con args = Some v -> con args' = Some v -> args = args') /\
  (forall r constructors cards (p q : nat) c c' v,
     h !! r = Some (Enum constructors cards) ->
     constructors !! p = Some c -> constructors !! q = Some c' ->
     yields h c v -> yields h c' v -> p = q).

(** ** References between objects *)

(** [e] is a component of the constructor [r]. *)
Definition component (sk : list skel) (r e : ref) : Prop :=
  match sk !! r with
  | Some (SConstructor1 _ e') => e' = e
  | Some (SConstructor _ enums) => e ∈ enums
  | _ => False
  end.

(** Every reference held by an object is an object of the heap, and a
    constructor with a matrix has at least one component. *)
Definition closed_refs (sk : list skel) : Prop :=
  forall r s, sk !! r = Some s ->
    match s with
    | SEnum constructors => forall c, c ∈ constructors -> (c < length sk)%nat
    | SConstructor1 _ e => (e < length sk)%nat
    | SConstructor _ enums => enums <> [] /\ forall e, e ∈ enums -> (e < length sk)%nat
    | _ => True
    end.

(** No constructor is, through components that are constructors, a
    component of itself: every cycle of references passes through an
    [Enum]. *)
Definition cycle_free (sk : list skel) : Prop :=
  forall r, ~ tc (component sk) r r.

(** A list of references, each a component of the one before. *)
Definition chain (sk : list skel) (l : list ref) : Prop :=
  forall (i : nat) a b, l !! i = Some a -> l !! S i = Some b -> component sk a b.

(** ** Example heaps *)

(** The pair constructor [lambda x, y: [x, y]], for examples with a
    matrix-based [Constructor] other than [app]. *)
Definition pair_builder : builder :=
  fun args => match args with [x; y] => Some (VList [x; y]) | _ => None end.

(** [Constructor(pair, [IntEnum(), IntEnum()])]: objects 0, 1 and 2. *)
Definition int_pair_heap : heap :=
  let '(a, h) := new_IntEnum [] in
  let '(b, h) := new_IntEnum h in
  snd (new_Constructor pair_builder [a; b] h).
Definition int_pair : ref := 2%nat.

(** [lambda x: [x]] *)
Definition singleton_builder : builder :=
  fun args => match args with [x] => Some (VList [x]) | _ => None end.

(** An [Enum] with [IntEnum()] added twice. *)
Definition int_or_int_heap : heap :=
  let '(e, h) := new_Enum [] in
  let '(a, h) := new_IntEnum h in
  let h := addcon e a h in
  let '(b, h) := new_IntEnum h in
  addcon e b h.
Definition int_or_int : ref := 0%nat.

(** [c = Enum(); p = Enum(); p.addcon(c); i = IntEnum()], objects 0, 1, 2. *)
Definition nested_heap : heap :=
  let '(c, h) := new_Enum [] in
  let '(p, h) := new_Enum h in
  let h := addcon p c h in
  snd (new_IntEnum h).

(** [p.card(2)], then [c.addcon(i)] *)
Definition stale_heap : heap :=
  match card 10 1%nat 2 nested_heap with
  | Ret _ h => addcon 0%nat 2%nat h
  | _ => nested_heap
  end.

(** 2 for the empty list, and 1 plus its own size for every element. *)
Definition nat_list_size (l : list Z) : Z := 2 + Zsum (map (fun x => 1 + x) l).

(** [elist(IntEnum())] after [index(4, 1)] *)
Definition nat_list_queried : heap :=
  match index 30 nat_list 4 1 nat_list_heap with
  | Ret _ h => h
  | _ => nat_list_heap
  end.

(** [Constructor(pair, [IntEnum(), IntEnum()])] after [card(3)] *)
Definition int_pair_queried : heap :=
  match card 30 int_pair 3 int_pair_heap with
  | Ret _ h => h
  | _ => int_pair_heap
  end.

(** [nested_heap] after [p.card(2)] *)
Definition nested_queried : heap :=
  match card 10 1%nat 2 nested_heap with
  | Ret _ h => h
  | _ => nested_heap
  end.

(** ** Properties that fail on some enumerators *)

(** The property as the specification words it: [card(n)] is 0 for every
    negative size, on every enumerator. *)
Definition card_negative_is_zero : Prop :=
  forall h r n, consistent h -> (r < length h)%nat -> n < 0 ->
    exists h', Runs (fun f => card f r n) h (Ret 0 h').

(** The property as the specification words it: [index(n, i)] with
    [i >= card(n)] or [i < 0] fails with an error. *)
Definition index_out_of_bounds_fails : Prop :=
  forall h r n i c h1,
    consistent h -> (r < length h)%nat ->
    Runs (fun f => card f r n) h (Ret c h1) -> i < 0 \/ c <= i ->
    exists e h', Runs (fun f => index f r n i) h (Raise e h').

(** The property as the specification words it, for every [m <= n]:
    after [card(n)], [card(m)] returns what [card(m)] alone returns. *)
Definition card_after_card : Prop :=
  forall h r n m v h1 vm h2,
    consistent h -> (r < length h)%nat -> m <= n ->
    Runs (fun f => card f r n) h (Ret v h1) ->
    Runs (fun f => card f r m) h1 (Ret vm h2) ->
    exists hm, Runs (fun f => card f r m) h (Ret vm hm).

(** Objects [fast] and [general] of heap [h] give the same results at
    size [n]: the same cardinality and, for each index below it, the same
    outcome of [index]. *)
Definition same_results (h : heap) (fast general : ref) (n : Z) : Prop :=
  exists c : Z,
    (exists h1, Runs (fun f => card f fast n) h (Ret c h1)) /\
    (exists h2, Runs (fun f => card f general n) h (Ret c h2)) /\
    forall i, 0 <= i < c ->
      exists res,
        (exists h1, Runs (fun f => index f fast n i) h (out res h1)) /\
        (exists h2, Runs (fun f => index f general n i) h (out res h2)).

(** The property as the specification words it, for no component: the
    nullary closures against the methods of the class on the state that
    the last branch of [__init__] builds from an empty list. *)
Definition nullary_fast_path_agrees : Prop :=
  forall con n, 0 <= n ->
    same_results [Constructor0 con; Constructor con [] 0 []] 0%nat 1%nat n.

(** The property as the specification words it, for every enumerator:
    distinct indices below [card(n)] give distinct values. *)
Definition index_always_injective : Prop :=
  forall h r n c hc i j vi hi vj hj,
    consistent h -> (r < length h)%nat -> 0 <= n ->
    Runs (fun f => card f r n) h (Ret c hc) ->
    0 <= i < c -> 0 <= j < c -> i <> j ->
    Runs (fun f => index f r n i) h (Ret vi hi) ->
    Runs (fun f => index f r n j) h (Ret vj hj) ->
    vi <> vj.

(** ** Building and querying *)

(** The heaps that the constructors and [addcon] build: an object refers
    to objects that exist when it is made ([Constructor]) or when it is
    added ([addcon]). *)
Inductive built : heap -> Prop :=
| built_empty : built []
| built_Enum h : built h -> built (snd (new_Enum h))
| built_IntEnum h : built h -> built (snd (new_IntEnum h))
| built_Constructor h con enums :
    built h -> (forall e, e ∈ enums -> (e < length h)%nat) ->
    built (snd (new_Constructor con enums h))
| built_addcon h e c :
    built h -> (c < length h)%nat -> built (addcon e c h).

(** [queried h h']: [h'] is what some calls of [card] and of [index],
    each within its contract, make of [h]. *)
Inductive queried (h : heap) : heap -> Prop :=
| queried_none : queried h h
| queried_card h1 r n v h2 :
    queried h h1 -> (r < length h)%nat -> 0 <= n ->
    Runs (fun f => card f r n) h1 (Ret v h2) ->
    queried h h2
| queried_index h1 r n c hc i res h2 :
    queried h h1 -> (r < length h)%nat -> 0 <= n ->
    Runs (fun f => card f r n) h1 (Ret c hc) -> 0 <= i < c ->
    Runs (fun f => index f r n i) h1 (out res h2) ->
    queried h h2.

(** [index(n, i)] returns [v] for some [i] below [card(n)]. *)
Definition yields_at (h : heap) (r : ref) (n : Z) (v : value) : Prop :=
  exists i c hc h',
    Runs (fun f => card f r n) h (Ret c hc) /\ 0 <= i < c /\
    Runs (fun f => index f r n i) h (Ret v h').

(** The same, on the structure. *)
Definition produces_at (sk : list skel) (r : ref) (n : Z) (v : value) : Prop :=
  exists i, 0 <= i < cardD sk r n /\ IndexR sk r n i (Some v).

(** ** Invariants of a call in progress *)

(** [B]: the objects whose [card] or [expand] is running, further up the
    call stack. *)
Definition InvB (sk : list skel) (B : list ref) (h : heap) : Prop :=
  forall r o, h !! r = Some o ->
    obj_weak sk r o /\ (r ∉ B -> obj_ok sk r o).

(** Number of sizes memoized by an object. *)
Definition level_of (o : obj) : Z :=
  match o with
  | Enum _ cards => len cards
  | Constructor _ _ next _ => next
  | _ => 0
  end.

Definition level (h : heap) (r : ref) : Z :=
  match h !! r with
  | Some o => level_of o
  | None => 0
  end.

(** How far a call of [card] at size [t] on an object grounded at depth
    [d] can extend the tables of object [b]. *)
Definition bnd (sk : list skel) (d : nat) (t : Z) (b : ref) : Z :=
  match sk !! b with
  | Some (SEnum _) => t + 1
  | Some (SConstructor _ _) => if grounded sk d b then t + 1 else t
  | _ => 0
  end.

Definition quiet (sk : list skel) (B : list ref) (d : nat) (t : Z) (h : heap) : Prop :=
  forall b, b ∈ B -> bnd sk d t b <= level h b.

Definition post (sk : list skel) (B : list ref) (h h' : heap) : Prop :=
  skeleton h' = sk /\ InvB sk B h' /\
  (forall b, b ∈ B -> h' !! b = h !! b) /\
  (forall r, level h r <= level h' r).

Definition card_spec (sk : list skel) (d : nat) (t : Z) : Prop :=
  forall B r h,
    grounded sk d r = true -> skeleton h = sk -> InvB sk B h -> quiet sk B d t h ->
    exists h', Runs (fun f => card f r t) h (Ret (cardD sk r t) h') /\ post sk B h h' /\
               memoized h' d r t.

(** Rows [j], [j+1], ... already hold the column of size [s]. *)
Definition stage (s : Z) (j : nat) : nat -> Z :=
  fun k => if Nat.ltb k j then s else s + 1.

Definition index_spec (sk : list skel) (d : nat) (t : Z) : Prop :=
  forall B r h i,
    grounded sk d r = true -> skeleton h = sk -> InvB sk B h -> quiet sk B d t h ->
    0 <= i < cardD sk r t ->
    exists res h',
      IndexR sk r t i res /\
      Runs (fun f => index f r t i) h (out res h') /\ post sk B h h'.

(** A value of [r] at size [n] has no other size and no other index. *)
Definition inj_at (sk : list skel) (r : ref) (n : Z) : Prop :=
  forall n' i i' v,
    0 <= n' -> 0 <= i < cardD sk r n -> 0 <= i' < cardD sk r n' ->
    IndexR sk r n i (Some v) -> IndexR sk r n' i' (Some v) ->
    n = n' /\ i = i'.

(** * Proofs *)

(** ** The cardinalities [cardD] *)

Lemma range_elem (n i : Z) : i ∈ range n <-> 0 <= i < n.
Proof.
  unfold range. rewrite list_elem_of_fmap. split.
  - intros (k & -> & Hk). apply elem_of_seq in Hk. lia.
  - intros Hi. exists (Z.to_nat i). split; [lia|]. apply elem_of_seq. lia.
Qed.

Lemma Zsum_ext {A} (f g : A -> Z) (l : list A) :
  (forall x, x ∈ l -> f x = g x) -> Zsum (map f l) = Zsum (map g l).
Proof.
  induction l as [|a l IH]; intros H; simpl; [done|].
  rewrite H by apply list_elem_of_here. rewrite IH; [done|].
  intros x Hx. apply H. by apply list_elem_of_further.
Qed.

Lemma prodcard_ext (c1 c2 : ref -> Z -> Z) (enums : list ref) (n : Z) :
  (forall e m, e ∈ enums -> m <= n -> c1 e m = c2 e m) ->
  prodcard c1 enums n = prodcard c2 enums n.
Proof.
  revert n. induction enums as [|e es IH]; intros n H; [done|].
  cbn [prodcard]. destruct es as [|e' es'].
  - apply H; [apply list_elem_of_here | lia].
  - apply Zsum_ext. intros i Hi. apply range_elem in Hi.
    rewrite (IH i).
    + rewrite (H e (n - i)); [done | apply list_elem_of_here | lia].
    + intros e0 m He0 Hm. apply H; [by apply list_elem_of_further | lia].
Qed.

Lemma grounded_mono sk d d' r :
  grounded sk d r = true -> (d <= d')%nat -> grounded sk d' r = true.
Proof.
  revert d' r. induction d as [|d IH]; intros d' r H Hd; [done|].
  destruct d' as [|d']; [lia|]. simpl in *.
  destruct (sk !! r) as [[| | |con enums|]|]; try done.
  - apply IH; [done | lia].
  - apply andb_true_iff in H as [H1 H2]. apply andb_true_iff. split; [done|].
    rewrite forallb_forall in *. intros x Hx. apply IH; [auto | lia].
Qed.

Lemma layer_depth sk below d d' r n :
  grounded sk d r = true -> (d <= d')%nat ->
  layer sk below d' r n = layer sk below d r n.
Proof.
  revert d' r n. induction d as [|d IH]; intros d' r n H Hd; [done|].
  destruct d' as [|d']; [lia|]. simpl in *.
  destruct (sk !! r) as [[| | |con enums|]|]; try done.
  - apply IH; [done | lia].
  - apply andb_true_iff in H as [_ H2]. rewrite forallb_forall in H2.
    apply prodcard_ext. intros e m He _. apply IH; [|lia].
    apply H2. by apply list_elem_of_In.
Qed.

Lemma layer_below_ext sk b1 b2 d r n :
  (forall c m, 0 <= m < n -> b1 c m = b2 c m) ->
  forall t, t <= n -> layer sk b1 d r t = layer sk b2 d r t.
Proof.
  intros Hb. revert r. induction d as [|d IH]; intros r t Ht; [done|].
  simpl. destruct (sk !! r) as [[| | |con enums|]|]; try done.
  - destruct (t <=? 0) eqn:E; [done|]. apply Z.leb_gt in E.
    apply Zsum_ext. intros c _. apply Hb. lia.
  - apply IH. lia.
  - apply prodcard_ext. intros e m _ Hm. apply IH. lia.
Qed.

Lemma cardN_stable sk sz1 sz2 r n :
  n <= Z.of_nat sz1 -> n <= Z.of_nat sz2 ->
  cardN sk (S sz1) r n = cardN sk (S sz2) r n.
Proof.
  revert sz2 r n. induction sz1 as [|a IH]; intros sz2 r n H1 H2.
  - cbn [cardN]. apply layer_below_ext with (n := n); [|lia]. intros; lia.
  - destruct sz2 as [|b].
    + cbn [cardN]. apply layer_below_ext with (n := n); [|lia]. intros; lia.
    + change (layer sk (cardN sk (S a)) (length sk) r n =
              layer sk (cardN sk (S b)) (length sk) r n).
      apply layer_below_ext with (n := n); [|lia].
      intros c m Hm. apply IH; lia.
Qed.

Lemma cardN_cardD sk sz r n :
  n <= Z.of_nat sz -> cardN sk (S sz) r n = cardD sk r n.
Proof. intros H. unfold cardD. apply cardN_stable; lia. Qed.

(** *** The equations that [cardD] solves *)

Lemma wf_grounded sk r s :
  wf_skel sk = true -> sk !! r = Some s -> grounded sk (length sk) r = true.
Proof.
  intros H Hr. apply andb_true_iff in H as [H _].
  rewrite forallb_forall in H. apply H. apply in_seq.
  apply lookup_lt_Some in Hr. lia.
Qed.

Lemma wf_closed sk r constructors c :
  wf_skel sk = true -> sk !! r = Some (SEnum constructors) -> c ∈ constructors ->
  (c < length sk)%nat.
Proof.
  intros H Hr Hc. apply andb_true_iff in H as [_ H].
  rewrite forallb_forall in H.
  assert (Hin : In (SEnum constructors) sk).
  { apply list_elem_of_In. eapply list_elem_of_lookup_2. exact Hr. }
  specialize (H _ Hin). simpl in H. rewrite forallb_forall in H.
  apply Nat.ltb_lt. apply H. by apply list_elem_of_In.
Qed.

Lemma grounded_lookup sk d r : grounded sk d r = true -> is_Some (sk !! r).
Proof.
  destruct d as [|d]; [done|]. cbn [grounded]. destruct (sk !! r); [eauto | done].
Qed.

Lemma grounded_Constructor sk d r con enums e :
  grounded sk (S d) r = true -> sk !! r = Some (SConstructor con enums) -> e ∈ enums ->
  grounded sk d e = true.
Proof.
  cbn [grounded]. intros H Hr He. rewrite Hr in H.
  apply andb_true_iff in H as [_ H].
  rewrite forallb_forall in H. apply H. by apply list_elem_of_In.
Qed.

Lemma grounded_Constructor_arity sk d r con enums :
  grounded sk d r = true -> sk !! r = Some (SConstructor con enums) ->
  (1 <= length enums)%nat.
Proof.
  destruct d as [|d]; [done|]. cbn [grounded]. intros H Hr. rewrite Hr in H.
  apply andb_true_iff in H as [H _]. apply negb_true_iff, Nat.eqb_neq in H. lia.
Qed.

Lemma grounded_Constructor1 sk d r con e :
  grounded sk (S d) r = true -> sk !! r = Some (SConstructor1 con e) ->
  grounded sk d e = true.
Proof. cbn [grounded]. intros H Hr. by rewrite Hr in H. Qed.

Lemma cardD_unfold sk r n :
  cardD sk r n = layer sk (cardN sk (Z.to_nat n)) (length sk) r n.
Proof. reflexivity. Qed.

Lemma cardD_IntEnum sk r n : sk !! r = Some SIntEnum -> cardD sk r n = 1.
Proof.
  intros H. rewrite cardD_unfold. pose proof (lookup_lt_Some _ _ _ H).
  destruct (length sk); [lia|]. cbn [layer]. by rewrite H.
Qed.

Lemma cardD_Constructor0 sk r con n :
  sk !! r = Some (SConstructor0 con) -> cardD sk r n = if n =? 1 then 1 else 0.
Proof.
  intros H. rewrite cardD_unfold. pose proof (lookup_lt_Some _ _ _ H).
  destruct (length sk); [lia|]. cbn [layer]. by rewrite H.
Qed.

Lemma cardD_Enum sk r constructors n :
  sk !! r = Some (SEnum constructors) ->
  cardD sk r n =
    if n <=? 0 then 0 else Zsum (map (fun c => cardD sk c (n - 1)) constructors).
Proof.
  intros H. rewrite cardD_unfold. pose proof (lookup_lt_Some _ _ _ H).
  destruct (length sk) eqn:E; [lia|]. cbn [layer]. rewrite H.
  destruct (n <=? 0) eqn:En; [done|]. apply Z.leb_gt in En.
  apply Zsum_ext. intros c _. unfold cardD.
  replace (S (Z.to_nat (n - 1))) with (Z.to_nat n) by lia. done.
Qed.

Lemma cardD_Constructor1 sk r con e n :
  wf_skel sk = true -> sk !! r = Some (SConstructor1 con e) ->
  cardD sk r n = cardD sk e n.
Proof.
  intros Hwf H. pose proof (wf_grounded _ _ _ Hwf H) as Hg.
  rewrite !cardD_unfold.
  destruct (length sk) as [|D] eqn:E; [done|].
  pose proof (grounded_Constructor1 _ _ _ _ _ Hg H) as Hge.
  rewrite (layer_depth sk _ D (S D) e n Hge) by lia.
  cbn [layer]. by rewrite H.
Qed.

Lemma cardD_Constructor sk r con enums n :
  wf_skel sk = true -> sk !! r = Some (SConstructor con enums) ->
  cardD sk r n = prodcard (cardD sk) enums n.
Proof.
  intros Hwf H. pose proof (wf_grounded _ _ _ Hwf H) as Hg.
  rewrite cardD_unfold.
  destruct (length sk) as [|D] eqn:E; [done|].
  cbn [layer]. rewrite H. apply prodcard_ext. intros e m He Hm.
  pose proof (grounded_Constructor _ _ _ _ _ _ Hg H He) as Hge.
  rewrite <- (layer_depth sk _ D (S D)) by (done || lia).
  rewrite <- E. change (cardN sk (S (Z.to_nat n)) e m = cardD sk e m).
  apply cardN_cardD. lia.
Qed.

(** ** Runs of fuel-bounded computations *)

Lemma Runs_prim {A} (m : M A) h o :
  m h = o -> o <> OutOfFuel -> Runs (fun _ => m) h o.
Proof. intros H Ho. split; [done|]. by exists 0%nat. Qed.

Lemma Runs_ret {A} (a : A) h : Runs (fun _ => ret a) h (Ret a h).
Proof. by apply Runs_prim. Qed.

Lemma Runs_bind {A B} (c : nat -> M A) (k : nat -> A -> M B) h a h1 o :
  Runs c h (Ret a h1) -> Runs (fun f => k f a) h1 o ->
  Runs (fun f => bind (c f) (k f)) h o.
Proof.
  intros [_ [F1 H1]] [Ho [F2 H2]]. split; [done|].
  exists (max F1 F2). intros f Hf. unfold bind.
  rewrite H1 by lia. apply H2. lia.
Qed.

Lemma Runs_bind_raise {A B} (c : nat -> M A) (k : nat -> A -> M B) h e h1 :
  Runs c h (Raise e h1) -> Runs (fun f => bind (c f) (k f)) h (Raise e h1).
Proof.
  intros [_ [F1 H1]]. split; [done|].
  exists F1. intros f Hf. unfold bind. by rewrite H1.
Qed.

Lemma Runs_bind_prim {A B} (m : M A) (k : nat -> A -> M B) h a h1 o :
  m h = Ret a h1 -> Runs (fun f => k f a) h1 o ->
  Runs (fun f => bind m (k f)) h o.
Proof. intros H. apply (Runs_bind (fun _ => m)). by apply Runs_prim. Qed.

Lemma Runs_S {A} (c : nat -> M A) h o : Runs (fun f => c (S f)) h o -> Runs c h o.
Proof.
  intros [Ho [F H]]. split; [done|]. exists (S F). intros f Hf.
  destruct f as [|f]; [lia|]. apply H. lia.
Qed.

Lemma Runs_det {A} (c : nat -> M A) h o o' : Runs c h o -> Runs c h o' -> o = o'.
Proof.
  intros [_ [F H]] [_ [F' H']].
  rewrite <- (H (max F F')) by lia. apply H'. lia.
Qed.

(** *** Python lists *)

Lemma len_nonneg {A} (l : list A) : 0 <= len l.
Proof. unfold len. lia. Qed.

Lemma len_app {A} (l l' : list A) : len (l ++ l') = len l + len l'.
Proof. unfold len. rewrite length_app. lia. Qed.

Lemma len_map {A B} (f : A -> B) (l : list A) : len (map f l) = len l.
Proof. unfold len. by rewrite length_map. Qed.

Lemma len_range n : 0 <= n -> len (range n) = n.
Proof. intros H. unfold len, range. rewrite length_map, length_seq. lia. Qed.

Lemma range_S n : 0 <= n -> range (n + 1) = range n ++ [n].
Proof.
  intros H. unfold range. replace (Z.to_nat (n + 1)) with (S (Z.to_nat n)) by lia.
  rewrite seq_S, map_app. simpl. by rewrite Z2Nat.id.
Qed.

Lemma range_0 : range 0 = [].
Proof. reflexivity. Qed.

Lemma range_lookup n i : 0 <= i < n -> range n !! Z.to_nat i = Some i.
Proof.
  intros H. unfold range. rewrite list_lookup_fmap.
  rewrite lookup_seq_lt by lia. simpl. f_equal. lia.
Qed.

Lemma py_getitem_nonneg {A} (l : list A) i :
  0 <= i < len l -> py_getitem l i = l !! Z.to_nat i.
Proof.
  intros H. unfold py_getitem.
  destruct (i <? 0) eqn:E; [apply Z.ltb_lt in E; lia|].
  destruct (0 <=? i) eqn:E1; [|apply Z.leb_gt in E1; lia].
  destruct (i <? len l) eqn:E2; [|apply Z.ltb_ge in E2; lia]. done.
Qed.

Lemma py_getitem_last {A} (l : list A) :
  (1 <= length l)%nat -> py_getitem l (-1) = l !! (length l - 1)%nat.
Proof.
  intros H. unfold py_getitem, len. simpl.
  destruct (0 <=? _) eqn:E1; [|apply Z.leb_gt in E1; lia].
  destruct (_ <? _) eqn:E2; [|apply Z.ltb_ge in E2; lia]. simpl.
  f_equal. lia.
Qed.

Lemma py_getitem_map {A B} (f : A -> B) (l : list A) i :
  py_getitem (map f l) i = f <$> py_getitem l i.
Proof.
  unfold py_getitem. rewrite len_map.
  destruct (_ && _); [|done]. apply list_lookup_fmap.
Qed.

Lemma py_getitem_range n i : 0 <= i < n -> py_getitem (range n) i = Some i.
Proof.
  intros H. rewrite py_getitem_nonneg by (rewrite len_range; lia).
  by apply range_lookup.
Qed.

Lemma getitem_Some {A} (l : list A) i a h :
  py_getitem l i = Some a -> getitem l i h = Ret a h.
Proof. unfold getitem. by intros ->. Qed.

(** *** Attribute access on a known object *)

Lemma get_obj_eq h r o : h !! r = Some o -> get_obj r h = Ret o h.
Proof. unfold get_obj. by intros ->. Qed.

Lemma get_cards_eq h r constructors cards :
  h !! r = Some (Enum constructors cards) -> get_cards r h = Ret cards h.
Proof. intros H. unfold get_cards, bind. by rewrite (get_obj_eq _ _ _ H). Qed.

Lemma cards_append_eq h r constructors cards c :
  h !! r = Some (Enum constructors cards) ->
  cards_append r c h = Ret tt (<[r := Enum constructors (cards ++ [c])]> h).
Proof. intros H. unfold cards_append, bind. by rewrite (get_obj_eq _ _ _ H). Qed.

Lemma get_next_eq h r con enums next cs :
  h !! r = Some (Constructor con enums next cs) -> get_next r h = Ret next h.
Proof. intros H. unfold get_next, bind. by rewrite (get_obj_eq _ _ _ H). Qed.

Lemma set_next_eq h r con enums next cs v :
  h !! r = Some (Constructor con enums next cs) ->
  set_next r v h = Ret tt (<[r := Constructor con enums v cs]> h).
Proof. intros H. unfold set_next, bind. by rewrite (get_obj_eq _ _ _ H). Qed.

Lemma get_cs_at_eq h r con enums next cs k i row x :
  h !! r = Some (Constructor con enums next cs) ->
  py_getitem cs k = Some row -> py_getitem row i = Some x ->
  get_cs_at r k i h = Ret x h.
Proof.
  intros H Hk Hi. unfold get_cs_at, get_cs, bind.
  rewrite (get_obj_eq _ _ _ H). unfold ret.
  rewrite (getitem_Some _ _ _ _ Hk). by apply getitem_Some.
Qed.

Lemma cs_append_eq h r con enums next cs k row c :
  h !! r = Some (Constructor con enums next cs) ->
  py_getitem cs k = Some row ->
  cs_append r k c h =
    Ret tt (<[r := Constructor con enums next (<[row_pos cs k := row ++ [c]]> cs)]> h).
Proof.
  intros H Hk. unfold cs_append, bind. rewrite (get_obj_eq _ _ _ H).
  by rewrite (getitem_Some _ _ _ _ Hk).
Qed.

Lemma cs_append_last h r con enums next cs c :
  h !! r = Some (Constructor con enums next cs) -> (1 <= length cs)%nat ->
  cs_append r (-1) c h = cs_append r (Z.of_nat (length cs - 1)) c h.
Proof.
  intros H Hl. unfold cs_append, bind. rewrite (get_obj_eq _ _ _ H).
  unfold getitem. rewrite py_getitem_last by done.
  rewrite py_getitem_nonneg by (unfold len; lia). rewrite Nat2Z.id.
  replace (row_pos cs (-1)) with (length cs - 1)%nat.
  2:{ unfold row_pos, len. simpl. lia. }
  replace (row_pos cs (Z.of_nat (length cs - 1))) with (length cs - 1)%nat.
  2:{ unfold row_pos. destruct (Z.ltb_spec (Z.of_nat (length cs - 1)) 0); lia. }
  done.
Qed.

(** ** Consistent memoization tables *)

Lemma obj_ok_weak sk r o : obj_ok sk r o -> obj_weak sk r o.
Proof.
  destruct o as [| | |con enums next cs|]; try done.
  intros [H1 H2]. split; [done|]. exists (fun _ => next). split; [done|]. intros; lia.
Qed.

Lemma skeleton_lookup h r : skeleton h !! r = skel_of <$> h !! r.
Proof. unfold skeleton. apply list_lookup_fmap. Qed.

Lemma skeleton_length h : length (skeleton h) = length h.
Proof. unfold skeleton. apply length_map. Qed.

Lemma skeleton_insert h r o o' :
  h !! r = Some o -> skel_of o' = skel_of o -> skeleton (<[r := o']> h) = skeleton h.
Proof.
  intros H Ho. unfold skeleton.
  change (map skel_of (<[r:=o']> h)) with (skel_of <$> <[r:=o']> h).
  rewrite list_fmap_insert, Ho.
  apply list_insert_id. rewrite list_lookup_fmap, H. done.
Qed.

Lemma level_insert_eq h r o o' :
  h !! r = Some o -> level (<[r := o']> h) r = level_of o'.
Proof.
  intros H. unfold level. rewrite list_lookup_insert_eq; [done|].
  by apply lookup_lt_Some in H.
Qed.

Lemma level_insert_ne h r r' o' : r <> r' -> level (<[r := o']> h) r' = level h r'.
Proof. intros H. unfold level. by rewrite list_lookup_insert_ne. Qed.

Lemma level_lookup h r o : h !! r = Some o -> level h r = level_of o.
Proof. unfold level. by intros ->. Qed.

Lemma InvB_insert sk B h r o o' :
  InvB sk B h -> h !! r = Some o ->
  obj_weak sk r o' -> (r ∉ B -> obj_ok sk r o') ->
  InvB sk B (<[r := o']> h).
Proof.
  intros HI Hr Hw Hok r' o''. destruct (decide (r = r')) as [<-|Hne].
  - rewrite list_lookup_insert_eq by (by apply lookup_lt_Some in Hr).
    intros [= <-]. done.
  - rewrite list_lookup_insert_ne by done. apply HI.
Qed.

Lemma InvB_add sk B r h : InvB sk B h -> InvB sk (r :: B) h.
Proof.
  intros HI r' o' Hr'. destruct (HI r' o' Hr') as [Hw Ho]. split; [done|].
  intros Hn. apply Ho. rewrite elem_of_cons in Hn. tauto.
Qed.

Lemma post_refl sk B h : skeleton h = sk -> InvB sk B h -> post sk B h h.
Proof. intros Hs HI. split; [done|]. split; [done|]. split; [done|]. intros; lia. Qed.

Lemma post_trans sk B h h1 h2 : post sk B h h1 -> post sk B h1 h2 -> post sk B h h2.
Proof.
  intros (_ & _ & Hb1 & Hl1) (Hs & HI & Hb2 & Hl2).
  split; [done|]. split; [done|]. split.
  - intros b Hb. rewrite Hb2, Hb1; auto.
  - intros r. specialize (Hl1 r). specialize (Hl2 r). lia.
Qed.

Lemma quiet_post sk B d t h h' : quiet sk B d t h -> post sk B h h' -> quiet sk B d t h'.
Proof.
  intros Hq (_ & _ & _ & Hl) b Hb. specialize (Hq b Hb). specialize (Hl b). lia.
Qed.

Lemma bnd_mono sk d d' t t' b :
  (d' <= d)%nat -> t' <= t -> bnd sk d' t' b <= bnd sk d t b.
Proof.
  intros Hd Ht. unfold bnd. destruct (sk !! b) as [[| | |con enums|]|]; try lia.
  destruct (grounded sk d' b) eqn:E.
  - rewrite (grounded_mono _ _ _ _ E Hd). lia.
  - destruct (grounded sk d b); lia.
Qed.

Lemma bnd_lt sk d d' t t' b : t' < t -> 0 <= t -> bnd sk d' t' b <= bnd sk d t b.
Proof.
  intros Ht H0. unfold bnd. destruct (sk !! b) as [[| | |con enums|]|]; try lia.
  destruct (grounded sk d' b), (grounded sk d b); lia.
Qed.

(** *** The matrix *)

Lemma cs_at_length sk enums lv : length (cs_at sk enums lv) = length enums.
Proof. unfold cs_at. by rewrite length_map, length_seq. Qed.

Lemma cs_at_lookup sk enums lv k :
  (k < length enums)%nat ->
  cs_at sk enums lv !! k = Some (map (table sk enums k) (range (lv k))).
Proof.
  intros H. unfold cs_at. rewrite list_lookup_fmap, lookup_seq_lt by done. done.
Qed.

Lemma cs_at_ext sk enums lv lv' :
  (forall k, (k < length enums)%nat -> lv k = lv' k) ->
  cs_at sk enums lv = cs_at sk enums lv'.
Proof.
  intros H. unfold cs_at. apply map_ext_in. intros k Hk. apply in_seq in Hk.
  rewrite H by lia. done.
Qed.

Lemma cs_at_append sk enums lv k :
  (k < length enums)%nat -> 0 <= lv k ->
  <[k := map (table sk enums k) (range (lv k)) ++ [table sk enums k (lv k)]]>
    (cs_at sk enums lv) =
  cs_at sk enums (fun j => if Nat.eqb j k then lv k + 1 else lv j).
Proof.
  intros Hk H0. apply list_eq. intros j.
  destruct (decide (j = k)) as [->|Hne].
  - rewrite list_lookup_insert_eq by (by rewrite cs_at_length).
    rewrite cs_at_lookup by done. rewrite Nat.eqb_refl.
    rewrite range_S by done. by rewrite map_app.
  - rewrite list_lookup_insert_ne by done.
    destruct (decide (j < length enums)%nat) as [Hj|Hj].
    + rewrite !cs_at_lookup by done.
      destruct (Nat.eqb_spec j k); [done|]. done.
    + rewrite !lookup_ge_None_2; [done | |]; rewrite cs_at_length; lia.
Qed.

Lemma cs_at_getitem sk enums lv k i :
  (k < length enums)%nat -> 0 <= i < lv k ->
  exists row, py_getitem (cs_at sk enums lv) (Z.of_nat k) = Some row /\
              py_getitem row i = Some (table sk enums k i).
Proof.
  intros Hk Hi. eexists. split.
  - rewrite py_getitem_nonneg by (unfold len; rewrite cs_at_length; lia).
    rewrite Nat2Z.id. by apply cs_at_lookup.
  - rewrite py_getitem_map, py_getitem_range by done. done.
Qed.

(** ** [card] computes [cardD] *)

Lemma heap_skel h r o : h !! r = Some o -> skeleton h !! r = Some (skel_of o).
Proof. intros H. by rewrite skeleton_lookup, H. Qed.

Section EnumCard.
Context (sk : list skel) (Hwf : wf_skel sk = true).
Context (B : list ref) (r : ref) (constructors : list ref).
Context (Hr : sk !! r = Some (SEnum constructors)).

(** The [for con in self.constructors] loop of [Enum.card], while the
    table has [L] entries. *)
Lemma Enum_card_for (cards : list Z) :
  card_spec sk (length sk) (len cards - 1) ->
  forall (cons' : list ref) (acc : Z) (h : heap),
    (forall c, c ∈ cons' -> (c < length sk)%nat) ->
    skeleton h = sk -> InvB sk (r :: B) h ->
    quiet sk (r :: B) (length sk) (len cards - 1) h ->
    h !! r = Some (Enum constructors cards) ->
    exists h',
      Runs (fun f => foldM (fun c con =>
                              cards <- get_cards r ;;
                              v <- card f con (len cards - 1) ;;
                              ret (c + v)) cons' acc) h
           (Ret (acc + Zsum (map (fun c => cardD sk c (len cards - 1)) cons')) h')
      /\ post sk (r :: B) h h'.
Proof.
  intros Hsub cons'. induction cons' as [|c cons' IH]; intros acc h Hc Hs HI Hq Hh.
  - exists h. split; [|by apply post_refl]. simpl. rewrite Z.add_0_r. apply Runs_ret.
  - assert (Hg : grounded sk (length sk) c = true).
    { assert (Hlt : (c < length sk)%nat) by (apply Hc, list_elem_of_here).
      destruct (lookup_lt_is_Some_2 sk c Hlt) as [s Hs'].
      by apply (wf_grounded _ _ s). }
    destruct (Hsub (r :: B) c h Hg Hs HI Hq) as (h1 & Hrun & Hp & _).
    destruct (Hp) as (Hs1 & HI1 & Hb1 & _).
    destruct (IH (acc + cardD sk c (len cards - 1)) h1) as (h2 & Hrun2 & Hp2).
    + intros c' Hc'. apply Hc. by apply list_elem_of_further.
    + done.
    + done.
    + by apply (quiet_post _ _ _ _ h).
    + rewrite Hb1; [done | apply list_elem_of_here].
    + exists h2. split; [|by apply (post_trans _ _ _ h1)].
      cbn [foldM map Zsum fold_right]. rewrite Z.add_assoc.
      eapply Runs_bind; [|exact Hrun2].
      eapply Runs_bind_prim; [by eapply get_cards_eq|].
      eapply Runs_bind; [exact Hrun|]. apply Runs_ret.
Qed.

Lemma InvB_insert_drop h o o' :
  InvB sk (r :: B) h -> h !! r = Some o -> obj_ok sk r o' ->
  InvB sk B (<[r := o']> h).
Proof.
  intros HI Hh Hok r' o''. destruct (decide (r = r')) as [<-|Hne].
  - rewrite list_lookup_insert_eq by (by apply lookup_lt_Some in Hh).
    intros [= <-]. split; [by apply obj_ok_weak | done].
  - rewrite list_lookup_insert_ne by done. intros Hr'.
    destruct (HI r' o'' Hr') as [Hw Ho]. split; [done|].
    intros Hn. apply Ho. rewrite elem_of_cons. intros [?|?]; [by subst | done].
Qed.

Lemma Enum_card_while_spec (m : Z) (d : nat) :
  0 < m ->
  (forall t, 0 <= t < m -> card_spec sk (length sk) t) ->
  forall (k : nat) (h : heap) (cards : list Z),
    skeleton h = sk -> InvB sk B h -> quiet sk B d m h ->
    h !! r = Some (Enum constructors cards) ->
    m + 1 - len cards <= Z.of_nat k ->
    exists h',
      Runs (fun f => Enum_card_while f r m) h (Ret (cardD sk r m) h') /\ post sk B h h' /\
      m < level h' r.
Proof.
  intros Hm Hsub k. induction k as [|k IH]; intros h cards Hs HI Hq Hh Hk.
  all: destruct (HI r _ Hh) as [[HL Hcards] _].
  all: destruct (Z_lt_ge_dec m (len cards)) as [Hlt|Hge].
  1,3: exists h; split;
    [|split; [by apply post_refl | by rewrite (level_lookup _ _ _ Hh)]];
    apply Runs_S; cbn [Enum_card_while];
    (eapply Runs_bind_prim; [by apply get_obj_eq|]); cbn beta iota;
    destruct (Z.geb_spec m (len cards)) as [?|_]; [lia|];
    apply Runs_prim; [|done]; apply getitem_Some;
    rewrite Hcards, py_getitem_map, py_getitem_range by lia; done.
  { lia. }
  assert (Hnb : r ∉ B).
  { intros Hb. specialize (Hq r Hb). unfold bnd in Hq. rewrite Hr in Hq.
    rewrite (level_lookup _ _ _ Hh) in Hq. simpl in Hq. lia. }
  destruct (Enum_card_for cards (Hsub (len cards - 1) ltac:(lia)) constructors 0 h)
    as (h1 & Hrun1 & Hp1); try done.
  { intros c Hc. by apply (wf_closed sk r constructors). }
  { by apply InvB_add. }
  { intros b Hb. apply elem_of_cons in Hb as [->|Hb].
    - unfold bnd. rewrite Hr, (level_lookup _ _ _ Hh). simpl. lia.
    - etrans; [|apply (Hq b Hb)]. apply bnd_lt; lia. }
  destruct Hp1 as (Hs1 & HI1 & Hb1 & Hl1).
  assert (Hh1 : h1 !! r = Some (Enum constructors cards)).
  { rewrite Hb1; [done | apply list_elem_of_here]. }
  set (c := 0 + Zsum (map (fun c => cardD sk c (len cards - 1)) constructors)) in *.
  assert (Hc : c = cardD sk r (len cards)).
  { rewrite (cardD_Enum sk r constructors) by done.
    destruct (Z.leb_spec (len cards) 0); [lia|]. unfold c. lia. }
  set (h2 := <[r := Enum constructors (cards ++ [c])]> h1).
  assert (Hs2 : skeleton h2 = sk).
  { unfold h2. by rewrite (skeleton_insert _ _ _ _ Hh1). }
  assert (HI2 : InvB sk B h2).
  { apply (InvB_insert_drop h1 _ _ HI1 Hh1). simpl. rewrite len_app.
    change (len [c]) with 1. split; [lia|].
    rewrite range_S, map_app by lia. simpl. by rewrite <- Hcards, Hc. }
  assert (Hp2 : post sk B h h2).
  { split; [done|]. split; [done|]. split.
    - intros b Hb. unfold h2. rewrite list_lookup_insert_ne by (intros ->; done).
      apply Hb1. by apply list_elem_of_further.
    - intros x. specialize (Hl1 x). destruct (decide (x = r)) as [->|Hne].
      + unfold h2. rewrite (level_insert_eq _ _ _ _ Hh1), (level_lookup _ _ _ Hh).
        simpl. rewrite len_app. pose proof (len_nonneg [c]). lia.
      + unfold h2. rewrite level_insert_ne by done. done. }
  destruct (IH h2 (cards ++ [c])) as (h3 & Hrun3 & Hp3 & Hl3); try done.
  { by apply (quiet_post _ _ _ _ h). }
  { unfold h2. apply list_lookup_insert_eq. by apply lookup_lt_Some in Hh1. }
  { rewrite len_app. change (len [c]) with 1. lia. }
  exists h3. split; [|split; [by apply (post_trans _ _ _ h2) | done]].
  apply Runs_S. cbn [Enum_card_while].
  eapply Runs_bind_prim; [by apply get_obj_eq|]. cbn beta iota.
  destruct (Z.geb_spec m (len cards)) as [_|?]; [|lia].
  eapply Runs_bind; [exact Hrun1|].
  eapply Runs_bind_prim; [by eapply cards_append_eq|].
  exact Hrun3.
Qed.

End EnumCard.

(** *** [Constructor.expand] *)

Lemma table_last sk enums e s :
  enums !! (length enums - 1)%nat = Some e ->
  table sk enums (length enums - 1) s = cardD sk e s.
Proof.
  intros H. unfold table.
  assert (Hd : drop (length enums - 1) enums = [e]).
  { pose proof (lookup_lt_Some _ _ _ H) as Hlt.
    rewrite (drop_S _ _ _ H). rewrite drop_ge by lia. done. }
  by rewrite Hd.
Qed.

Lemma table_step sk enums k e s :
  (k + 1 < length enums)%nat -> enums !! k = Some e ->
  table sk enums k s =
    Zsum (map (fun i => table sk enums (k + 1) i * cardD sk e (s - i)) (range (s + 1))).
Proof.
  intros Hk H. unfold table. rewrite (drop_S _ _ _ H).
  replace (k + 1)%nat with (S k) by lia.
  destruct (drop (S k) enums) as [|e' es'] eqn:E.
  - apply (f_equal length) in E. rewrite length_drop in E. simpl in E. lia.
  - done.
Qed.

Lemma table_0 sk enums s : table sk enums 0 s = prodcard (cardD sk) enums s.
Proof. reflexivity. Qed.

Lemma quiet_level sk B d t h h' :
  quiet sk B d t h -> (forall b, level h b <= level h' b) -> quiet sk B d t h'.
Proof. intros Hq Hl b Hb. specialize (Hq b Hb). specialize (Hl b). lia. Qed.

Section Expand.
Context (sk : list skel) (Hwf : wf_skel sk = true).
Context (B : list ref) (r : ref) (con : builder) (enums : list ref).
Context (Hr : sk !! r = Some (SConstructor con enums)).
Context (d : nat) (m : Z).
Context (Hg : grounded sk (S d) r = true) (Hng : grounded sk d r = false).
Context (Hsub : forall t, 0 <= t <= m -> card_spec sk d t).

(** The heap while [expand] fills the column of size [s]. *)
Definition filling (s : Z) (j : nat) (h : heap) : Prop :=
  h !! r = Some (Constructor con enums s (cs_at sk enums (stage s j))) /\
  skeleton h = sk /\ InvB sk (r :: B) h /\ quiet sk B (S d) m h.

Definition step_post (h h' : heap) : Prop :=
  (forall b, b ∈ B -> h' !! b = h !! b) /\ (forall x, level h x <= level h' x).

Lemma step_post_refl h : step_post h h.
Proof. split; [done|]. intros; lia. Qed.

Lemma step_post_trans h h1 h2 : step_post h h1 -> step_post h1 h2 -> step_post h h2.
Proof.
  intros [Hb1 Hl1] [Hb2 Hl2]. split.
  - intros b Hb. rewrite Hb2, Hb1; auto.
  - intros x. specialize (Hl1 x). specialize (Hl2 x). lia.
Qed.

Lemma arity_pos : (1 <= length enums)%nat.
Proof. by apply (grounded_Constructor_arity sk (S d) r con). Qed.

Lemma filling_sub s j h e t :
  filling s j h -> 0 <= s <= m -> e ∈ enums -> 0 <= t <= s ->
  exists h', Runs (fun f => card f e t) h (Ret (cardD sk e t) h') /\
             filling s j h' /\ step_post h h'.
Proof.
  intros (Hh & Hs & HI & Hq) Hsm He Ht.
  assert (Hge : grounded sk d e = true).
  { by apply (grounded_Constructor sk d r con enums). }
  destruct (Hsub t ltac:(lia) (r :: B) e h Hge Hs HI) as (h' & Hrun & (Hs' & HI' & Hb' & Hl') & _).
  { intros b Hb. apply elem_of_cons in Hb as [->|Hb].
    - unfold bnd. rewrite Hr, Hng, (level_lookup _ _ _ Hh). simpl. lia.
    - etrans; [|apply (Hq b Hb)]. apply bnd_mono; lia. }
  exists h'. split; [done|]. split.
  - split; [|split; [done|split; [done|]]].
    + rewrite Hb'; [done | apply list_elem_of_here].
    + by apply (quiet_level _ _ _ _ h).
  - split; [|done]. intros b Hb. apply Hb'. by apply list_elem_of_further.
Qed.

Lemma filling_cs_at s j h k i :
  filling s j h -> (k < length enums)%nat -> 0 <= i < stage s j k ->
  get_cs_at r (Z.of_nat k) i h = Ret (table sk enums k i) h.
Proof.
  intros (Hh & _) Hk Hi.
  destruct (cs_at_getitem sk enums (stage s j) k i Hk Hi) as (row & H1 & H2).
  by apply (get_cs_at_eq _ _ _ _ _ _ _ _ _ _ Hh H1 H2).
Qed.

Lemma getitem_enums k e h :
  enums !! k = Some e -> getitem enums (Z.of_nat k) h = Ret e h.
Proof.
  intros H. apply getitem_Some. pose proof (lookup_lt_Some _ _ _ H).
  rewrite py_getitem_nonneg by (unfold len; lia). by rewrite Nat2Z.id.
Qed.

(** [for i in range(self.next+1)]: the convolution for row [k] *)
Lemma expand_for_i (s : Z) (k : nat) (e : ref) :
  0 <= s <= m -> (k + 1 < length enums)%nat -> enums !! k = Some e ->
  forall (l : list Z) (acc : Z) (h : heap),
    (forall i, i ∈ l -> 0 <= i <= s) -> filling s (k + 1) h ->
    exists h',
      Runs (fun f => foldM (fun c i =>
                              x <- get_cs_at r (Z.of_nat k + 1) i ;;
                              e <- getitem enums (Z.of_nat k) ;;
                              next <- get_next r ;;
                              y <- card f e (next - i) ;;
                              ret (c + x * y)) l acc) h
           (Ret (acc + Zsum (map (fun i => table sk enums (k + 1) i * cardD sk e (s - i)) l)) h')
      /\ filling s (k + 1) h' /\ step_post h h'.
Proof.
  intros Hs Hk He l. induction l as [|i l IH]; intros acc h Hl Hf.
  - exists h. split; [|split; [done | apply step_post_refl]].
    simpl. rewrite Z.add_0_r. apply Runs_ret.
  - assert (Hi : 0 <= i <= s) by (apply Hl, list_elem_of_here).
    destruct (filling_sub s (k + 1) h e (s - i) Hf Hs) as (h1 & Hrun1 & Hf1 & Hp1).
    { eapply list_elem_of_lookup_2. exact He. }
    { lia. }
    destruct (IH (acc + table sk enums (k + 1) i * cardD sk e (s - i)) h1)
      as (h2 & Hrun2 & Hf2 & Hp2).
    { intros i' Hi'. apply Hl. by apply list_elem_of_further. }
    { done. }
    exists h2. split; [|split; [done | by apply (step_post_trans _ h1)]].
    cbn [foldM map Zsum fold_right]. rewrite Z.add_assoc.
    eapply Runs_bind; [|exact Hrun2].
    eapply Runs_bind_prim.
    { replace (Z.of_nat k + 1) with (Z.of_nat (k + 1)) by lia.
      apply (filling_cs_at s (k + 1)); [done | lia |].
      unfold stage. rewrite Nat.ltb_irrefl. lia. }
    eapply Runs_bind_prim; [by apply getitem_enums|].
    eapply Runs_bind_prim; [eapply get_next_eq; apply Hf|].
    eapply Runs_bind; [exact Hrun1|]. apply Runs_ret.
Qed.

Lemma filling_append s j h c :
  filling s (S j) h -> (j < length enums)%nat -> 0 <= s -> r ∉ B ->
  c = table sk enums j s ->
  exists h', cs_append r (Z.of_nat j) c h = Ret tt h' /\ filling s j h' /\ step_post h h'.
Proof.
  intros (Hh & Hs & HI & Hq) Hj H0 Hnb ->.
  set (o' := Constructor con enums s (cs_at sk enums (stage s j))).
  exists (<[r := o']> h). split; [|split].
  - rewrite (cs_append_eq _ _ _ _ _ _ _ (map (table sk enums j) (range s)) _ Hh).
    + unfold row_pos. destruct (Z.ltb_spec (Z.of_nat j) 0); [lia|].
      rewrite Nat2Z.id.
      replace (map (table sk enums j) (range s))
        with (map (table sk enums j) (range (stage s (S j) j))).
      2:{ unfold stage. destruct (Nat.ltb_spec j (S j)); [done | lia]. }
      replace s with (stage s (S j) j) at 3.
      2:{ unfold stage. destruct (Nat.ltb_spec j (S j)); [done | lia]. }
      rewrite cs_at_append.
      * unfold o'. do 3 f_equal. apply cs_at_ext. intros k Hk. unfold stage.
        destruct (Nat.eqb_spec k j) as [->|Hne].
        -- rewrite Nat.ltb_irrefl. destruct (Nat.ltb_spec j (S j)); lia.
        -- destruct (Nat.ltb_spec k (S j)), (Nat.ltb_spec k j); lia.
      * done.
      * unfold stage. destruct (Nat.ltb_spec j (S j)); lia.
    + rewrite py_getitem_nonneg by (unfold len; rewrite cs_at_length; lia).
      rewrite Nat2Z.id, cs_at_lookup by done. unfold stage.
      destruct (Nat.ltb_spec j (S j)); [done | lia].
  - split; [|split; [|split]].
    + apply list_lookup_insert_eq. by apply lookup_lt_Some in Hh.
    + by rewrite (skeleton_insert _ _ _ _ Hh).
    + apply (InvB_insert _ _ _ _ _ _ HI Hh).
      * simpl. split; [done|]. exists (stage s j). split; [done|].
        intros k. unfold stage. destruct (k <? j)%nat; lia.
      * intros Hn. exfalso. apply Hn. apply list_elem_of_here.
    + intros b Hb. rewrite level_insert_ne by (intros ->; done). by apply Hq.
  - split.
    + intros b Hb. rewrite list_lookup_insert_ne by (intros ->; done). done.
    + intros x. destruct (decide (x = r)) as [->|Hne].
      * rewrite (level_insert_eq _ _ _ _ Hh), (level_lookup _ _ _ Hh). simpl. lia.
      * rewrite level_insert_ne by done. lia.
Qed.

Lemma rev_range_S (j : nat) :
  rev (range (Z.of_nat (S j))) = Z.of_nat j :: rev (range (Z.of_nat j)).
Proof.
  replace (Z.of_nat (S j)) with (Z.of_nat j + 1) by lia.
  rewrite range_S by lia. by rewrite rev_app_distr.
Qed.

(** [for k in range(len(self.enums)-2, -1, -1)] *)
Lemma expand_for_k (s : Z) :
  0 <= s <= m -> r ∉ B ->
  forall (j : nat) (h : heap),
    (j < length enums)%nat -> filling s j h ->
    exists h',
      Runs (fun f => foldM (fun (_ : unit) k =>
                              next <- get_next r ;;
                              c <- foldM (fun c i =>
                                            x <- get_cs_at r (k + 1) i ;;
                                            e <- getitem enums k ;;
                                            next <- get_next r ;;
                                            y <- card f e (next - i) ;;
                                            ret (c + x * y))
                                         (range (next + 1)) 0 ;;
                              cs_append r k c)
                           (rev (range (Z.of_nat j))) tt) h
           (Ret tt h')
      /\ filling s 0 h' /\ step_post h h'.
Proof.
  intros Hs Hnb j. induction j as [|j IH]; intros h Hj Hf.
  - exists h. split; [apply Runs_ret | split; [done | apply step_post_refl]].
  - destruct (lookup_lt_is_Some_2 enums j ltac:(lia)) as [e He].
    replace (S j) with (j + 1)%nat in Hf by lia.
    destruct (expand_for_i s j e Hs ltac:(lia) He (range (s + 1)) 0 h)
      as (h1 & Hrun1 & Hf1 & Hp1); [|done|].
    { intros i Hi. apply range_elem in Hi. lia. }
    replace (j + 1)%nat with (S j) in Hf1 by lia.
    destruct (filling_append s j h1
                (0 + Zsum (map (fun i => table sk enums (j + 1) i * cardD sk e (s - i))
                               (range (s + 1)))) Hf1)
      as (h2 & Happ & Hf2 & Hp2); [lia | lia | done | |].
    { rewrite (table_step sk enums j e) by (done || lia). lia. }
    destruct (IH h2 ltac:(lia) Hf2) as (h3 & Hrun3 & Hf3 & Hp3).
    exists h3. split; [|split; [done|]].
    + rewrite rev_range_S. cbn [foldM].
      eapply Runs_bind; [|exact Hrun3].
      eapply Runs_bind_prim; [eapply get_next_eq; apply Hf|].
      eapply Runs_bind; [exact Hrun1|].
      by apply Runs_prim.
    + apply (step_post_trans _ h1); [done|]. by apply (step_post_trans _ h2).
Qed.

(** [expand(m)] fills the columns [next], ..., [m]. *)
Lemma expand_spec :
  forall (k : nat) (h : heap) (next : Z) (cs : list (list Z)),
    skeleton h = sk -> InvB sk B h -> quiet sk B (S d) m h ->
    h !! r = Some (Constructor con enums next cs) ->
    m + 1 - next <= Z.of_nat k ->
    exists h',
      Runs (fun f => expand f r m) h (Ret tt h') /\ post sk B h h' /\ m < level h' r.
Proof.
  intros k. induction k as [|k IH]; intros h next cs Hs HI Hq Hh Hk.
  all: destruct (HI r _ Hh) as [[Hn0 _] Hok].
  all: destruct (Z_lt_ge_dec m next) as [Hlt|Hge].
  1,3: exists h; split; [|split; [by apply post_refl|]];
    [ apply Runs_S; cbn [expand];
      (eapply Runs_bind_prim; [by apply get_obj_eq|]); cbn beta iota;
      destruct (Z.leb_spec next m) as [?|_]; [lia|]; apply Runs_ret
    | rewrite (level_lookup _ _ _ Hh); simpl; lia ].
  { lia. }
  assert (Hnb : r ∉ B).
  { intros Hb. specialize (Hq r Hb). unfold bnd in Hq. rewrite Hr, Hg in Hq.
    rewrite (level_lookup _ _ _ Hh) in Hq. simpl in Hq. lia. }
  destruct (Hok Hnb) as [_ ->].
  pose proof arity_pos as HK.
  destruct (lookup_lt_is_Some_2 enums (length enums - 1) ltac:(lia)) as [e He].
  assert (Hf : filling next (length enums) h).
  { split; [|split; [done | split; [by apply InvB_add | done]]].
    rewrite Hh. do 2 f_equal. apply cs_at_ext. intros j Hj. unfold stage.
    destruct (Nat.ltb_spec j (length enums)); [done | lia]. }
  destruct (filling_sub next (length enums) h e next Hf) as (h1 & Hrun1 & Hf1 & Hp1);
    [lia | by eapply list_elem_of_lookup_2 | lia |].
  replace (length enums) with (S (length enums - 1)) in Hf1 at 1 by lia.
  destruct (filling_append next (length enums - 1) h1 (cardD sk e next) Hf1)
    as (h2 & Happ & Hf2 & Hp2); [lia | lia | done | by rewrite (table_last sk enums e) |].
  destruct (expand_for_k next ltac:(lia) Hnb (length enums - 1) h2 ltac:(lia) Hf2)
    as (h3 & Hrun3 & Hf3 & Hp3).
  destruct Hf3 as (Hh3 & Hs3 & HI3 & Hq3).
  set (o4 := Constructor con enums (next + 1) (cs_at sk enums (stage next 0))).
  set (h4 := <[r := o4]> h3).
  assert (Hok4 : obj_ok sk r o4).
  { simpl. split; [lia|]. apply cs_at_ext. intros j _. done. }
  assert (Hs4 : skeleton h4 = sk) by (unfold h4; by rewrite (skeleton_insert _ _ _ _ Hh3)).
  assert (HI4 : InvB sk B h4) by (by apply (InvB_insert_drop sk B r h3 _ _ HI3 Hh3)).
  assert (Hp4 : post sk B h h4).
  { split; [done | split; [done | split]].
    - intros b Hb. unfold h4. rewrite list_lookup_insert_ne by (intros ->; done).
      destruct Hp1 as [Hb1 _], Hp2 as [Hb2 _], Hp3 as [Hb3 _].
      rewrite Hb3, Hb2, Hb1; auto.
    - intros x. destruct Hp1 as [_ Hl1], Hp2 as [_ Hl2], Hp3 as [_ Hl3].
      specialize (Hl1 x). specialize (Hl2 x). specialize (Hl3 x).
      destruct (decide (x = r)) as [->|Hne].
      + unfold h4. rewrite (level_insert_eq _ _ _ _ Hh3).
        rewrite (level_lookup _ _ _ Hh). simpl. lia.
      + unfold h4. rewrite level_insert_ne by done. lia. }
  destruct (IH h4 (next + 1) (cs_at sk enums (stage next 0))) as (h5 & Hrun5 & Hp5 & Hl5);
    [done | done | | | lia |].
  { apply (quiet_post _ _ _ _ h); done. }
  { unfold h4. apply list_lookup_insert_eq. by apply lookup_lt_Some in Hh3. }
  exists h5. split; [|split; [by apply (post_trans _ _ _ h4) | done]].
  apply Runs_S. cbn [expand].
  eapply Runs_bind_prim; [by apply get_obj_eq|]. cbn beta iota.
  destruct (Z.leb_spec next m) as [_|?]; [|lia].
  eapply Runs_bind_prim.
  { apply getitem_Some. rewrite py_getitem_last by (rewrite cs_at_length; lia).
    rewrite cs_at_length. apply cs_at_lookup. lia. }
  eapply Runs_bind_prim.
  { apply getitem_Some. rewrite py_getitem_last by lia. exact He. }
  eapply Runs_bind; [exact Hrun1|].
  eapply Runs_bind_prim.
  { destruct Hf1 as (Hh1 & _).
    rewrite (cs_append_last _ _ _ _ _ _ _ Hh1) by (rewrite cs_at_length; lia).
    rewrite cs_at_length. exact Happ. }
  eapply Runs_bind.
  { replace (len enums - 2) with (Z.of_nat (length enums - 1) - 1) by (unfold len; lia).
    unfold range_down.
    replace (Z.of_nat (length enums - 1) - 1 + 1) with (Z.of_nat (length enums - 1)) by lia.
    exact Hrun3. }
  eapply Runs_bind_prim; [by eapply get_next_eq|].
  eapply Runs_bind_prim; [by eapply set_next_eq|].
  exact Hrun5.
Qed.

End Expand.

(** *** [card], by induction on the size and on the depth *)

Lemma skel_Enum h r constructors :
  skeleton h !! r = Some (SEnum constructors) ->
  exists cards, h !! r = Some (Enum constructors cards).
Proof.
  rewrite skeleton_lookup. destruct (h !! r) as [[]|]; intros [=]; subst; eauto.
Qed.

Lemma skel_Constructor h r con enums :
  skeleton h !! r = Some (SConstructor con enums) ->
  exists next cs, h !! r = Some (Constructor con enums next cs).
Proof.
  rewrite skeleton_lookup. destruct (h !! r) as [[]|]; intros [=]; subst; eauto.
Qed.

Lemma skel_Constructor0 h r con :
  skeleton h !! r = Some (SConstructor0 con) -> h !! r = Some (Constructor0 con).
Proof.
  rewrite skeleton_lookup. destruct (h !! r) as [[]|]; intros [=]; subst; eauto.
Qed.

Lemma skel_Constructor1 h r con e :
  skeleton h !! r = Some (SConstructor1 con e) -> h !! r = Some (Constructor1 con e).
Proof.
  rewrite skeleton_lookup. destruct (h !! r) as [[]|]; intros [=]; subst; eauto.
Qed.

Lemma skel_IntEnum h r : skeleton h !! r = Some SIntEnum -> h !! r = Some IntEnum.
Proof.
  rewrite skeleton_lookup. destruct (h !! r) as [[]|]; intros [=]; subst; eauto.
Qed.

Lemma weak_cs_at sk B h r con enums next cs i :
  InvB sk B h -> h !! r = Some (Constructor con enums next cs) ->
  (0 < length enums)%nat -> 0 <= i < next ->
  forall k, (k < length enums)%nat ->
    get_cs_at r (Z.of_nat k) i h = Ret (table sk enums k i) h.
Proof.
  intros HI Hh HK Hi k Hk. destruct (HI r _ Hh) as [[_ (lv & -> & Hlv)] _].
  destruct (cs_at_getitem sk enums lv k i Hk) as (row & H1 & H2).
  { specialize (Hlv k). lia. }
  by apply (get_cs_at_eq _ _ _ _ _ _ _ _ _ _ Hh H1 H2).
Qed.

Lemma card_step sk d m :
  wf_skel sk = true -> 0 <= m ->
  (forall t d', 0 <= t < m -> card_spec sk d' t) ->
  card_spec sk d m -> card_spec sk (S d) m.
Proof.
  intros Hwf Hm Hlt Hd B r h Hg Hs HI Hq.
  assert (Hq' : quiet sk B d m h).
  { intros b Hb. etrans; [|apply (Hq b Hb)]. apply bnd_mono; lia. }
  destruct (grounded_lookup _ _ _ Hg) as [s Hsk].
  destruct s as [constructors|con|con e|con enums|].
  - (* Enum *)
    rewrite <- Hs in Hsk. destruct (skel_Enum _ _ _ Hsk) as [cards Hh]. rewrite Hs in Hsk.
    destruct (Z_le_gt_dec m 0) as [H0|H0].
    + exists h. split; [|split; [by apply post_refl|]].
      2:{ cbn [memoized]. rewrite Hh. destruct (HI r _ Hh) as [[HL _] _]. lia. }
      rewrite (cardD_Enum sk r constructors) by done.
      destruct (Z.leb_spec m 0); [|lia].
      apply Runs_S. cbn [card]. eapply Runs_bind_prim; [by apply get_obj_eq|].
      cbn beta iota. destruct (Z.leb_spec m 0); [|lia]. apply Runs_ret.
    + destruct (Enum_card_while_spec sk Hwf B r constructors Hsk m (S d) ltac:(lia)
                  (fun t Ht => Hlt t (length sk) Ht)
                  (Z.to_nat (m + 1 - len cards)) h cards Hs HI Hq Hh ltac:(lia))
        as (h' & Hrun & Hp & Hl).
      exists h'. split; [|split; [done|]].
      2:{ destruct Hp as (Hs' & _). rewrite <- Hs' in Hsk.
          destruct (skel_Enum _ _ _ Hsk) as [cards' Hh'].
          cbn [memoized]. rewrite Hh'. by rewrite (level_lookup _ _ _ Hh') in Hl. }
      apply Runs_S. cbn [card]. eapply Runs_bind_prim; [by apply get_obj_eq|].
      cbn beta iota. destruct (Z.leb_spec m 0); [lia|]. exact Hrun.
  - (* nullary constructor *)
    rewrite <- Hs in Hsk. pose proof (skel_Constructor0 _ _ _ Hsk) as Hh. rewrite Hs in Hsk.
    exists h. split; [|split; [by apply post_refl | cbn [memoized]; by rewrite Hh]].
    rewrite (cardD_Constructor0 sk r con) by done.
    apply Runs_S. cbn [card]. eapply Runs_bind_prim; [by apply get_obj_eq|].
    cbn beta iota. apply Runs_ret.
  - (* unary constructor *)
    rewrite <- Hs in Hsk. pose proof (skel_Constructor1 _ _ _ _ Hsk) as Hh. rewrite Hs in Hsk.
    pose proof (grounded_Constructor1 _ _ _ _ _ Hg Hsk) as Hge.
    destruct (Hd B e h Hge Hs HI Hq') as (h' & Hrun & Hp & Hmem).
    exists h'. split; [|split; [done|]].
    2:{ destruct Hp as (Hs' & _). rewrite <- Hs' in Hsk.
        pose proof (skel_Constructor1 _ _ _ _ Hsk) as Hh'.
        cbn [memoized]. by rewrite Hh'. }
    rewrite (cardD_Constructor1 sk r con e) by done.
    apply Runs_S. cbn [card]. eapply Runs_bind_prim; [by apply get_obj_eq|].
    cbn beta iota. exact Hrun.
  - (* constructor with a matrix *)
    rewrite <- Hs in Hsk. destruct (skel_Constructor _ _ _ _ Hsk) as (next & cs & Hh).
    rewrite Hs in Hsk.
    destruct (grounded sk d r) eqn:Hgd.
    { destruct (Hd B r h Hgd Hs HI Hq') as (h' & Hrun & Hp & Hmem).
      exists h'. split; [done|]. split; [done|].
      destruct d as [|d0]; [done|]. cbn [memoized] in *.
      destruct Hp as (Hs' & _). rewrite <- Hs' in Hsk.
      destruct (skel_Constructor _ _ _ _ Hsk) as (next' & cs' & Hh').
      by rewrite Hh' in *. }
    assert (Hsub : forall t, 0 <= t <= m -> card_spec sk d t).
    { intros t Ht. destruct (decide (t = m)) as [->|Hne]; [done|]. apply Hlt. lia. }
    destruct (expand_spec sk B r con enums Hsk d m Hg Hgd Hsub
                (Z.to_nat (m + 1 - next)) h next cs Hs HI Hq Hh ltac:(lia))
      as (h' & Hrun & Hp & Hl).
    pose proof Hp as (Hs' & HI' & _).
    rewrite <- Hs' in Hsk. destruct (skel_Constructor _ _ _ _ Hsk) as (next' & cs' & Hh').
    rewrite Hs' in Hsk. rewrite (level_lookup _ _ _ Hh') in Hl. simpl in Hl.
    exists h'. split; [|split; [done | cbn [memoized]; by rewrite Hh']].
    pose proof (grounded_Constructor_arity _ _ _ _ _ Hg Hsk) as HK.
    rewrite (cardD_Constructor sk r con enums) by done. rewrite <- table_0.
    apply Runs_S. cbn [card]. eapply Runs_bind_prim; [by apply get_obj_eq|].
    cbn beta iota. eapply Runs_bind; [exact Hrun|].
    apply Runs_prim; [|done].
    apply (weak_cs_at sk B h' r con enums next' cs' m HI' Hh' ltac:(lia) ltac:(lia) 0%nat).
    lia.
  - (* IntEnum *)
    rewrite <- Hs in Hsk. pose proof (skel_IntEnum _ _ Hsk) as Hh. rewrite Hs in Hsk.
    exists h. split; [|split; [by apply post_refl | cbn [memoized]; by rewrite Hh]].
    rewrite (cardD_IntEnum sk r) by done.
    apply Runs_S. cbn [card]. eapply Runs_bind_prim; [by apply get_obj_eq|].
    cbn beta iota. apply Runs_ret.
Qed.

Lemma card_correct sk :
  wf_skel sk = true -> forall m d, 0 <= m -> card_spec sk d m.
Proof.
  intros Hwf.
  assert (H : forall (n : nat) m, 0 <= m -> (Z.to_nat m < n)%nat ->
                forall d, card_spec sk d m).
  { induction n as [|n IH]; intros m Hm Hn d; [lia|].
    induction d as [|d IHd].
    - intros B r h Hg. done.
    - apply card_step; [done | done | | done].
      intros t d' Ht. apply IH; lia. }
  intros m d Hm. apply (H (S (Z.to_nat m))); lia.
Qed.

(** ** Cardinalities are natural numbers *)

Lemma Zsum_nonneg {A} (f : A -> Z) (l : list A) :
  (forall x, x ∈ l -> 0 <= f x) -> 0 <= Zsum (map f l).
Proof.
  induction l as [|a l IH]; intros H; simpl; [lia|].
  pose proof (H a (list_elem_of_here _ _)).
  assert (0 <= Zsum (map f l)); [|lia].
  apply IH. intros x Hx. apply H. by apply list_elem_of_further.
Qed.

Lemma prodcard_nonneg (c : ref -> Z -> Z) enums n :
  (forall e m, 0 <= c e m) -> 0 <= prodcard c enums n.
Proof.
  intros Hc. revert n. induction enums as [|e es IH]; intros n; [done|].
  cbn [prodcard]. destruct es as [|e' es']; [apply Hc|].
  apply Zsum_nonneg. intros i _. apply Z.mul_nonneg_nonneg; [apply IH | apply Hc].
Qed.

Lemma layer_nonneg sk below d r n :
  (forall c m, 0 <= below c m) -> 0 <= layer sk below d r n.
Proof.
  intros Hb. revert r n. induction d as [|d IH]; intros r n; [done|].
  cbn [layer]. destruct (sk !! r) as [[| | |con enums|]|]; try lia.
  - destruct (n <=? 0); [done|]. apply Zsum_nonneg. intros; apply Hb.
  - destruct (n =? 1); lia.
  - apply IH.
  - apply prodcard_nonneg. apply IH.
Qed.

Lemma cardN_nonneg sk sz r n : 0 <= cardN sk sz r n.
Proof.
  revert r n. induction sz as [|sz IH]; intros r n; [done|].
  cbn [cardN]. by apply layer_nonneg.
Qed.

Lemma cardD_nonneg sk r n : 0 <= cardD sk r n.
Proof. apply cardN_nonneg. Qed.

Lemma table_nonneg sk enums k i : 0 <= table sk enums k i.
Proof. apply prodcard_nonneg. apply cardD_nonneg. Qed.

(** ** [index] decodes as [IndexR] says *)

Lemma call_out con args h : call con args h = out (con args) h.
Proof. unfold call, out. by destruct (con args). Qed.

Lemma out_not_diverge res h : out res h <> OutOfFuel.
Proof. by destruct res. Qed.

Lemma Runs_ext {A} (c c' : nat -> M A) h o :
  (forall f, c f h = c' f h) -> Runs c h o -> Runs c' h o.
Proof.
  intros He [Ho [F H]]. split; [done|]. exists F. intros f Hf. rewrite <- He. by apply H.
Qed.

Lemma bind_assoc {A B C} (m : M A) (k1 : A -> M B) (k2 : B -> M C) h :
  bind (bind m k1) k2 h = bind m (fun a => bind (k1 a) k2) h.
Proof. unfold bind. by destruct (m h). Qed.

Lemma Runs_bind_assoc {A B C} (c : nat -> M A) (k1 : nat -> A -> M B)
    (k2 : nat -> B -> M C) h o :
  Runs (fun f => bind (c f) (fun a => bind (k1 f a) (k2 f))) h o ->
  Runs (fun f => bind (bind (c f) (k1 f)) (k2 f)) h o.
Proof. apply Runs_ext. intros f. symmetry. apply bind_assoc. Qed.

(** [Enum.index]: the scan of the alternatives *)
Lemma Enum_index_for_spec sk B t :
  wf_skel sk = true -> 0 < t ->
  index_spec sk (length sk) (t - 1) ->
  forall (cons' : list ref) (i : Z) (h : heap),
    (forall c, c ∈ cons' -> (c < length sk)%nat) ->
    skeleton h = sk -> InvB sk B h -> quiet sk B (length sk) (t - 1) h ->
    0 <= i < Zsum (map (fun c => cardD sk c (t - 1)) cons') ->
    exists c i' res h',
      pick (fun c => cardD sk c (t - 1)) cons' i = Some (c, i') /\
      IndexR sk c (t - 1) i' res /\
      Runs (fun f => Enum_index_for (card f) (index f) cons' t i) h (out res h') /\
      post sk B h h'.
Proof.
  intros Hwf Ht Hsub cons'. induction cons' as [|c cons' IH]; intros i h Hc Hs HI Hq Hi.
  - simpl in Hi. lia.
  - assert (Hg : grounded sk (length sk) c = true).
    { assert (Hlt : (c < length sk)%nat) by (apply Hc, list_elem_of_here).
      destruct (lookup_lt_is_Some_2 sk c Hlt) as [s Hs'].
      by apply (wf_grounded _ _ s). }
    destruct (card_correct sk Hwf (t - 1) (length sk) ltac:(lia) B c h Hg Hs HI Hq)
      as (h1 & Hrun1 & Hp1 & _).
    pose proof Hp1 as (Hs1 & HI1 & _ & _).
    pose proof (quiet_post _ _ _ _ _ _ Hq Hp1) as Hq1.
    cbn [map Zsum fold_right] in Hi. cbn [pick].
    destruct (Z.ltb_spec i (cardD sk c (t - 1))) as [Hlt|Hge].
    + destruct (Hsub B c h1 i Hg Hs1 HI1 Hq1 ltac:(lia)) as (res & h2 & HR & Hrun2 & Hp2).
      exists c, i, res, h2. split; [done|]. split; [done|].
      split; [|by apply (post_trans _ _ _ h1)].
      cbn [Enum_index_for]. eapply Runs_bind; [exact Hrun1|].
      cbn beta. destruct (Z.ltb_spec i (cardD sk c (t - 1))); [|lia]. exact Hrun2.
    + destruct (IH (i - cardD sk c (t - 1)) h1) as (c' & i' & res & h2 & Hpk & HR & Hrun2 & Hp2);
        try done.
      { intros c' Hc'. apply Hc. by apply list_elem_of_further. }
      { fold (Zsum (map (fun c => cardD sk c (t - 1)) cons')) in Hi. lia. }
      exists c', i', res, h2. split; [done|]. split; [done|].
      split; [|by apply (post_trans _ _ _ h1)].
      cbn [Enum_index_for]. eapply Runs_bind; [exact Hrun1|].
      cbn beta. destruct (Z.ltb_spec i (cardD sk c (t - 1))); [lia|]. exact Hrun2.
Qed.

(** *** Sums over [range] *)

Lemma Zsum_app (l l' : list Z) : Zsum (l ++ l') = Zsum l + Zsum l'.
Proof. induction l as [|a l IH]; simpl; [done|]. rewrite IH. lia. Qed.

Lemma Zsum_range_S (f : Z -> Z) n :
  0 <= n -> Zsum (map f (range (n + 1))) = Zsum (map f (range n)) + f n.
Proof. intros H. rewrite range_S, map_app, Zsum_app by done. simpl. lia. Qed.

Lemma range_shift n : 0 <= n -> range (n + 1) = 0 :: map Z.succ (range n).
Proof.
  intros H. unfold range. replace (Z.to_nat (n + 1)) with (S (Z.to_nat n)) by lia.
  cbn [seq map]. f_equal. rewrite <- seq_shift, !map_map.
  apply map_ext. intros a. lia.
Qed.

Lemma Zsum_range_mono (f : Z -> Z) a b :
  (forall j, 0 <= f j) -> 0 <= a <= b ->
  Zsum (map f (range a)) <= Zsum (map f (range b)).
Proof.
  intros Hf [Ha Hab].
  replace b with (a + Z.of_nat (Z.to_nat (b - a))) by lia.
  induction (Z.to_nat (b - a)) as [|n IH].
  - replace (a + Z.of_nat 0) with a by lia. lia.
  - replace (a + Z.of_nat (S n)) with (a + Z.of_nat n + 1) by lia.
    rewrite Zsum_range_S by lia. specialize (Hf (a + Z.of_nat n)). lia.
Qed.

Lemma Zsum_range_flip (g : Z -> Z) (N : nat) :
  Zsum (map g (range (Z.of_nat N))) =
  Zsum (map (fun s => g (Z.of_nat N - 1 - s)) (range (Z.of_nat N))).
Proof.
  revert g. induction N as [|N IH]; intros g; [done|].
  replace (Z.of_nat (S N)) with (Z.of_nat N + 1) by lia.
  rewrite Zsum_range_S by lia.
  rewrite range_shift by lia. cbn [map Zsum fold_right].
  rewrite map_map. rewrite (IH g).
  replace (Z.of_nat N + 1 - 1 - 0) with (Z.of_nat N) by lia.
  rewrite Z.add_comm. f_equal.
  apply Zsum_ext. intros s _. f_equal. lia.
Qed.

Lemma table_block_sum sk enums k e n :
  (k + 1 < length enums)%nat -> enums !! k = Some e -> 0 <= n ->
  table sk enums k n = Zsum (map (block sk e (drop (k + 1) enums) n) (range (n + 1))).
Proof.
  intros Hk He Hn. rewrite (table_step sk enums k e) by done.
  replace (n + 1) with (Z.of_nat (Z.to_nat (n + 1))) by lia.
  rewrite Zsum_range_flip. apply Zsum_ext. intros s Hs. apply range_elem in Hs.
  unfold block, table. rewrite Z.mul_comm. f_equal; f_equal; lia.
Qed.

Lemma searchR_sum f i e i1 e1 :
  searchR f i e i1 e1 -> 0 <= e ->
  i + Zsum (map f (range e)) = i1 + Zsum (map f (range e1)) /\ e <= e1 /\ i1 < f e1.
Proof.
  induction 1 as [i e Hlt | i e i1 e1 Hge Hs IH]; intros He.
  - split; [done|]. split; [lia | done].
  - destruct (IH ltac:(lia)) as (H1 & H2 & H3). rewrite Zsum_range_S in H1 by lia.
    split; [lia|]. split; [lia | done].
Qed.

Section ConstructorIndex.
Context (sk : list skel) (Hwf : wf_skel sk = true).
Context (B : list ref) (r : ref) (con : builder) (enums : list ref).
Context (Hr : sk !! r = Some (SConstructor con enums)).
Context (d : nat) (t : Z) (Ht : 0 <= t).
Context (Hg : grounded sk (S d) r = true).
Context (Hsub : forall s, 0 <= s <= t -> index_spec sk d s).

(** The matrix of [r] is filled up to size [t]. *)
Definition ready (h : heap) : Prop :=
  skeleton h = sk /\ InvB sk B h /\ quiet sk B (S d) t h /\ t < level h r.

Lemma ready_post h h' : ready h -> post sk B h h' -> ready h'.
Proof.
  intros (Hs & HI & Hq & Hl) Hp. pose proof Hp as (Hs' & HI' & _ & Hl').
  split; [done|]. split; [done|]. split; [by apply (quiet_post _ _ _ _ h)|].
  specialize (Hl' r). lia.
Qed.

Lemma ready_card h e s :
  ready h -> e ∈ enums -> 0 <= s <= t ->
  exists h', Runs (fun f => card f e s) h (Ret (cardD sk e s) h') /\
             ready h' /\ post sk B h h'.
Proof.
  intros Hrd He Hs. pose proof Hrd as (Hsk & HI & Hq & Hl).
  assert (Hge : grounded sk d e = true) by (by apply (grounded_Constructor sk d r con enums)).
  destruct (card_correct sk Hwf s d ltac:(lia) B e h Hge Hsk HI) as (h' & Hrun & Hp & _).
  { intros b Hb. etrans; [|apply (Hq b Hb)]. apply bnd_mono; lia. }
  exists h'. split; [done|]. split; [by apply (ready_post h) | done].
Qed.

Lemma ready_index h e s i :
  ready h -> e ∈ enums -> 0 <= s <= t -> 0 <= i < cardD sk e s ->
  exists res h', IndexR sk e s i res /\
                 Runs (fun f => index f e s i) h (out res h') /\
                 ready h' /\ post sk B h h'.
Proof.
  intros Hrd He Hs Hi. pose proof Hrd as (Hsk & HI & Hq & Hl).
  assert (Hge : grounded sk d e = true) by (by apply (grounded_Constructor sk d r con enums)).
  destruct (Hsub s Hs B e h i Hge Hsk HI) as (res & h' & HR & Hrun & Hp); [|done|].
  { intros b Hb. etrans; [|apply (Hq b Hb)]. apply bnd_mono; lia. }
  exists res, h'. split; [done|]. split; [done|]. split; [by apply (ready_post h) | done].
Qed.

Lemma ready_cs_at h k i :
  ready h -> (k < length enums)%nat -> 0 <= i <= t ->
  get_cs_at r (Z.of_nat k) i h = Ret (table sk enums k i) h.
Proof.
  intros (Hsk & HI & Hq & Hl) Hk Hi.
  rewrite <- Hsk in Hr. destruct (skel_Constructor _ _ _ _ Hr) as (next & cs & Hh).
  rewrite (level_lookup _ _ _ Hh) in Hl. simpl in Hl.
  apply (weak_cs_at sk B h r con enums next cs i HI Hh); lia.
Qed.

(** The [while i >= c] search for component [k] *)
Lemma index_while_spec (k : nat) (e : ref) (n : Z) :
  0 <= n <= t -> (k + 1 < length enums)%nat -> enums !! k = Some e ->
  forall (cnt : nat) (esize i : Z) (h : heap),
    ready h -> 0 <= esize -> 0 <= i ->
    i + Zsum (map (block sk e (drop (k + 1) enums) n) (range esize))
      < Zsum (map (block sk e (drop (k + 1) enums) n) (range (n + 1))) ->
    n + 1 - esize <= Z.of_nat cnt ->
    exists i1 esize1 h',
      searchR (block sk e (drop (k + 1) enums) n) i esize i1 esize1 /\
      0 <= i1 < block sk e (drop (k + 1) enums) n esize1 /\ esize <= esize1 <= n /\
      Runs (fun f => index_while f r e (Z.of_nat k) n i esize) h (Ret (i1, esize1) h') /\
      ready h' /\ post sk B h h'.
Proof.
  intros Hn Hk He. set (f := block sk e (drop (k + 1) enums) n).
  assert (Hf : forall j, 0 <= f j).
  { intros j. unfold f, block. apply Z.mul_nonneg_nonneg;
      [apply cardD_nonneg | apply prodcard_nonneg, cardD_nonneg]. }
  intros cnt. induction cnt as [|cnt IH]; intros esize i h Hrd He0 Hi Hsum Hcnt.
  all: assert (Hle : esize <= n) by
    (destruct (Z_le_gt_dec esize n) as [|Hgt]; [done|];
     pose proof (Zsum_range_mono f (n + 1) esize Hf ltac:(lia)); lia).
  { lia. }
  destruct (ready_card h e esize Hrd) as (h1 & Hrun1 & Hrd1 & Hp1);
    [by eapply list_elem_of_lookup_2 | lia |].
  assert (Hread : get_cs_at r (Z.of_nat k + 1) (n - esize) h1 =
                  Ret (table sk enums (k + 1) (n - esize)) h1).
  { replace (Z.of_nat k + 1) with (Z.of_nat (k + 1)) by lia.
    apply ready_cs_at; [done | lia | lia]. }
  destruct (Z_lt_ge_dec i (f esize)) as [Hlt|Hge].
  - exists i, esize, h1. split; [by apply search_stop|]. split; [lia|]. split; [lia|].
    split; [|done]. apply Runs_S. cbn [index_while].
    eapply Runs_bind; [exact Hrun1|]. eapply Runs_bind_prim; [exact Hread|].
    cbn beta zeta. fold (table sk enums (k + 1) (n - esize)) in Hlt.
    destruct (Z.geb_spec i (cardD sk e esize * table sk enums (k + 1) (n - esize)))
      as [Hc|_]; [unfold f, block, table in *; lia|]. apply Runs_ret.
  - destruct (IH (esize + 1) (i - f esize) h1 Hrd1) as (i1 & e1 & h2 & HS & Hi1 & He1 & Hrun2 & Hrd2 & Hp2);
      [lia | lia | | lia |].
    { rewrite Zsum_range_S by lia. lia. }
    exists i1, e1, h2. split; [apply search_next; [lia | done]|]. split; [done|]. split; [lia|].
    split; [|split; [done | by apply (post_trans _ _ _ h1)]].
    apply Runs_S. cbn [index_while].
    eapply Runs_bind; [exact Hrun1|]. eapply Runs_bind_prim; [exact Hread|].
    cbn beta zeta.
    destruct (Z.geb_spec i (cardD sk e esize * table sk enums (k + 1) (n - esize)))
      as [_|Hc]; [|unfold f, block, table in *; lia]. exact Hrun2.
Qed.

(** One round of [for k in range(len(self.enums)-1)], and what follows
    the loop. *)
Definition index_for_body (fuel : nat) (st : Z * Z * list value) (k : Z)
    : M (Z * Z * list value) :=
  let '(n, i, args) := st in
  e <- getitem enums k ;;
  ie <- index_while fuel r e k n i 0 ;;
  let '(i, esize) := ie in
  let n := n - esize in
  d <- card fuel e esize ;;
  qr <- divmod i d ;;
  let '(i, ei) := qr in
  v <- index fuel e esize ei ;;
  ret (n, i, args ++ [v]).

Definition index_final (fuel : nat) (st : Z * Z * list value) : M value :=
  let '(n, i, args) := st in
  e <- getitem enums (-1) ;;
  v <- index fuel e n i ;;
  call con (args ++ [v]).

Lemma Runs_bind_out {B'} (c : nat -> M value) (k : nat -> value -> M B') h res h1 o :
  Runs c h (out res h1) ->
  (forall v, res = Some v -> Runs (fun f => k f v) h1 o) ->
  (res = None -> o = Raise TypeError h1) ->
  Runs (fun f => bind (c f) (k f)) h o.
Proof.
  intros Hrun Hs Hn. destruct res as [v|]; simpl in Hrun.
  - eapply Runs_bind; [exact Hrun | by apply Hs].
  - rewrite Hn by done. by apply Runs_bind_raise.
Qed.

Lemma index_rest :
  forall (cnt k : nat) (n i : Z) (args : list value) (h : heap),
    (k + cnt + 1 = length enums)%nat -> ready h -> 0 <= n <= t ->
    0 <= i < table sk enums k n ->
    exists res h',
      DecodeR sk (drop k enums) n i res /\
      Runs (fun f => bind (foldM (index_for_body f) (map Z.of_nat (seq k cnt)) (n, i, args))
                          (index_final f)) h
           (out (res ≫= fun vs => con (args ++ vs)) h') /\
      ready h' /\ post sk B h h'.
Proof.
  intros cnt. induction cnt as [|cnt IH]; intros k n i args h Hk Hrd Hn Hi.
  - destruct (lookup_lt_is_Some_2 enums k ltac:(lia)) as [e He].
    assert (Hk' : k = (length enums - 1)%nat) by lia.
    assert (Hd : drop k enums = [e]).
    { rewrite (drop_S _ _ _ He). rewrite drop_ge by lia. done. }
    rewrite Hk' in Hi, He. rewrite (table_last sk enums e) in Hi by done.
    destruct (ready_index h e n i Hrd) as (res & h' & HR & Hrun & Hrd' & Hp');
      [by eapply list_elem_of_lookup_2 | done | done |].
    exists (res ≫= fun v => Some [v]), h'. split; [rewrite Hd; by apply DR_last|].
    split; [|done]. cbn [seq map foldM].
    eapply Runs_bind_prim; [reflexivity|]. unfold index_final.
    eapply Runs_bind_prim.
    { apply getitem_Some. rewrite py_getitem_last by lia. exact He. }
    eapply Runs_bind_out; [exact Hrun | |].
    + intros v ->. simpl. apply Runs_prim; [apply call_out | apply out_not_diverge].
    + intros ->. done.
  - destruct (lookup_lt_is_Some_2 enums k ltac:(lia)) as [e He].
    assert (Hin : e ∈ enums) by (by eapply list_elem_of_lookup_2).
    assert (Hd : drop k enums = e :: drop (k + 1) enums).
    { rewrite (drop_S _ _ _ He). by replace (S k) with (k + 1)%nat by lia. }
    assert (Hne : drop (k + 1) enums <> []).
    { intros E. apply (f_equal length) in E. rewrite length_drop in E. simpl in E. lia. }
    rewrite (table_block_sum sk enums k e) in Hi by (done || lia).
    destruct (index_while_spec k e n Hn ltac:(lia) He (Z.to_nat (n + 1)) 0 i h Hrd)
      as (i1 & esize & h1 & HS & Hi1 & Hes & Hrun1 & Hrd1 & Hp1); [lia | lia | | lia |].
    { rewrite range_0. simpl. lia. }
    destruct (ready_card h1 e esize Hrd1 Hin) as (h2 & Hrun2 & Hrd2 & Hp2); [lia|].
    set (ce := cardD sk e esize) in *.
    set (T := table sk enums (k + 1) (n - esize)).
    assert (HT : block sk e (drop (k + 1) enums) n esize = ce * T) by done.
    rewrite HT in Hi1.
    pose proof (cardD_nonneg sk e esize) as Hce. fold ce in Hce.
    pose proof (table_nonneg sk enums (k + 1) (n - esize)) as HT0. fold T in HT0.
    assert (Hce' : 0 < ce) by nia.
    destruct (ready_index h2 e esize (i1 mod ce) Hrd2 Hin) as (res1 & h3 & HR & Hrun3 & Hrd3 & Hp3);
      [lia | by apply Z.mod_pos_bound |].
    assert (Hbody : forall o,
      (forall v, res1 = Some v -> o = Ret (n - esize, i1 / ce, args ++ [v]) h3) ->
      (res1 = None -> o = Raise TypeError h3) ->
      Runs (fun f => index_for_body f (n, i, args) (Z.of_nat k)) h o).
    { intros o Hsome Hnone. unfold index_for_body.
      eapply Runs_bind_prim; [by apply getitem_enums|].
      eapply Runs_bind; [exact Hrun1|]. cbn beta iota zeta.
      eapply Runs_bind; [exact Hrun2|].
      eapply Runs_bind_prim.
      { unfold divmod. destruct (Z.eqb_spec ce 0); [lia|]. reflexivity. }
      cbn beta iota zeta.
      eapply Runs_bind_out; [exact Hrun3 | |].
      - intros v Hv. rewrite (Hsome v Hv). apply Runs_ret.
      - done. }
    destruct res1 as [v|].
    + destruct (IH (S k) (n - esize) (i1 / ce) (args ++ [v]) h3) as (res2 & h4 & HD & Hrun4 & Hrd4 & Hp4);
        [lia | done | lia | |].
      { replace (S k) with (k + 1)%nat by lia. fold T. split.
        - apply Z.div_pos; lia.
        - apply Z.div_lt_upper_bound; lia. }
      exists (res2 ≫= fun vs => Some (v :: vs)), h4. split.
      { rewrite Hd. apply (DR_cons sk e _ n i i1 esize v res2); try done.
        by replace (k + 1)%nat with (S k) by lia. }
      split; [|split; [done|]].
      * cbn [seq map foldM]. apply Runs_bind_assoc.
        eapply Runs_bind; [apply Hbody; [intros v' [= <-]; reflexivity | done]|].
        replace ((res2 ≫= (fun vs : list value => Some (v :: vs))) ≫=
                   (fun vs : list value => con (args ++ vs)))
          with (res2 ≫= fun vs : list value => con ((args ++ [v]) ++ vs)); [exact Hrun4|].
        destruct res2 as [vs|]; [|done]. simpl. by rewrite <- app_assoc.
      * apply (post_trans _ _ _ h1); [done|]. apply (post_trans _ _ _ h2); [done|].
        by apply (post_trans _ _ _ h3).
    + exists None, h3. split.
      { rewrite Hd. by apply (DR_raise sk e _ n i i1 esize). }
      split; [|split; [done|]].
      * cbn [seq map foldM]. apply Runs_bind_assoc.
        apply Runs_bind_raise. by apply Hbody.
      * apply (post_trans _ _ _ h1); [done|]. by apply (post_trans _ _ _ h2).
Qed.

End ConstructorIndex.

(** *** [index], by induction on the size and on the depth *)

Lemma index_step sk d m :
  wf_skel sk = true -> 0 <= m ->
  (forall t d', 0 <= t < m -> index_spec sk d' t) ->
  index_spec sk d m -> index_spec sk (S d) m.
Proof.
  intros Hwf Hm Hlt Hd B r h i Hg Hs HI Hq Hi.
  assert (Hq' : quiet sk B d m h).
  { intros b Hb. etrans; [|apply (Hq b Hb)]. apply bnd_mono; lia. }
  destruct (grounded_lookup _ _ _ Hg) as [s Hsk].
  destruct s as [constructors|con|con e|con enums|].
  - (* Enum *)
    rewrite <- Hs in Hsk. destruct (skel_Enum _ _ _ Hsk) as [cards Hh]. rewrite Hs in Hsk.
    rewrite (cardD_Enum sk r constructors) in Hi by done.
    destruct (Z.leb_spec m 0) as [|Hpos]; [lia|].
    destruct (Enum_index_for_spec sk B m Hwf Hpos (Hlt (m - 1) (length sk) ltac:(lia))
                constructors i h) as (c & i' & res & h' & Hpk & HR & Hrun & Hp); try done.
    { intros c Hc. by apply (wf_closed sk r constructors). }
    { intros b Hb. etrans; [|apply (Hq b Hb)]. apply bnd_lt; lia. }
    exists res, h'. split; [by apply (IR_Enum sk r constructors m i c i')|].
    split; [|done]. apply Runs_S. cbn [index].
    eapply Runs_bind_prim; [by apply get_obj_eq|]. cbn beta iota. exact Hrun.
  - (* nullary constructor *)
    rewrite <- Hs in Hsk. pose proof (skel_Constructor0 _ _ _ Hsk) as Hh. rewrite Hs in Hsk.
    exists (con []), h. split; [by apply (IR_Constructor0 sk r con)|].
    split; [|by apply post_refl]. apply Runs_S. cbn [index].
    eapply Runs_bind_prim; [by apply get_obj_eq|]. cbn beta iota.
    apply Runs_prim; [apply call_out | apply out_not_diverge].
  - (* unary constructor *)
    rewrite <- Hs in Hsk. pose proof (skel_Constructor1 _ _ _ _ Hsk) as Hh. rewrite Hs in Hsk.
    pose proof (grounded_Constructor1 _ _ _ _ _ Hg Hsk) as Hge.
    rewrite (cardD_Constructor1 sk r con e) in Hi by done.
    destruct (Hd B e h i Hge Hs HI Hq' Hi) as (res & h' & HR & Hrun & Hp).
    exists (res ≫= fun v => con [v]), h'. split; [by apply (IR_Constructor1 sk r con e)|].
    split; [|done]. apply Runs_S. cbn [index].
    eapply Runs_bind_prim; [by apply get_obj_eq|]. cbn beta iota.
    eapply Runs_bind_out; [exact Hrun | |].
    + intros v ->. simpl. apply Runs_prim; [apply call_out | apply out_not_diverge].
    + by intros ->.
  - (* constructor with a matrix *)
    destruct (grounded sk d r) eqn:Hgd; [by apply Hd|].
    rewrite <- Hs in Hsk. destruct (skel_Constructor _ _ _ _ Hsk) as (next & cs & Hh).
    rewrite Hs in Hsk.
    pose proof (grounded_Constructor_arity _ _ _ _ _ Hg Hsk) as HK.
    destruct (expand_spec sk B r con enums Hsk d m Hg Hgd
                (fun t Ht => card_correct sk Hwf t d (proj1 Ht))
                (Z.to_nat (m + 1 - next)) h next cs Hs HI Hq Hh ltac:(lia))
      as (h1 & Hrun1 & Hp1 & Hl1).
    assert (Hrd1 : ready sk B r d m h1).
    { pose proof Hp1 as (Hs1 & HI1 & _ & _). split; [done|]. split; [done|].
      split; [|done]. by apply (quiet_post _ _ _ _ h). }
    assert (Hsub : forall s, 0 <= s <= m -> index_spec sk d s).
    { intros t Ht. destruct (decide (t = m)) as [->|Hne]; [done|]. apply Hlt. lia. }
    rewrite (cardD_Constructor sk r con enums) in Hi by done. rewrite <- table_0 in Hi.
    destruct (index_rest sk Hwf B r con enums Hsk d m Hg Hsub
                (length enums - 1) 0 m i [] h1 ltac:(lia) Hrd1 ltac:(lia) Hi)
      as (res & h2 & HD & Hrun2 & Hrd2 & Hp2).
    exists (res ≫= con), h2. split; [by apply (IR_Constructor sk r con enums)|].
    split; [|by apply (post_trans _ _ _ h1)].
    apply Runs_S. cbn [index].
    eapply Runs_bind_prim; [by apply get_obj_eq|]. cbn beta iota.
    eapply Runs_bind; [exact Hrun1|].
    replace (range (len enums - 1)) with (map Z.of_nat (seq 0 (length enums - 1))).
    2:{ unfold range, len. do 2 f_equal. lia. }
    replace (res ≫= con) with (res ≫= fun vs => con ([] ++ vs)); [exact Hrun2|].
    by destruct res.
  - (* IntEnum *)
    rewrite <- Hs in Hsk. pose proof (skel_IntEnum _ _ Hsk) as Hh. rewrite Hs in Hsk.
    exists (Some (VInt m)), h. split; [by apply IR_IntEnum|].
    split; [|by apply post_refl]. apply Runs_S. cbn [index].
    eapply Runs_bind_prim; [by apply get_obj_eq|]. cbn beta iota. apply Runs_ret.
Qed.

Lemma index_correct sk :
  wf_skel sk = true -> forall m d, 0 <= m -> index_spec sk d m.
Proof.
  intros Hwf.
  assert (H : forall (n : nat) m, 0 <= m -> (Z.to_nat m < n)%nat ->
                forall d, index_spec sk d m).
  { induction n as [|n IH]; intros m Hm Hn d; [lia|].
    induction d as [|d IHd].
    - intros B r h i Hg. done.
    - apply index_step; [done | done | | done].
      intros t d' Ht. apply IH; lia. }
  intros m d Hm. apply (H (S (Z.to_nat m))); lia.
Qed.

(** ** Calls on a consistent heap *)

Lemma range_prefix a b : a <= b -> range a `prefix_of` range b.
Proof.
  intros H. unfold range.
  replace (Z.to_nat b) with (Z.to_nat a + (Z.to_nat b - Z.to_nat a))%nat by lia.
  rewrite seq_app, map_app. by eexists.
Qed.

Lemma map_prefix {A B} (f : A -> B) (l l' : list A) :
  l `prefix_of` l' -> map f l `prefix_of` map f l'.
Proof. intros [k ->]. rewrite map_app. by eexists. Qed.

Lemma consistent_InvB h : consistent h -> InvB (skeleton h) [] h.
Proof.
  intros [_ H] r o Hr. split; [apply obj_ok_weak | intros _]; by apply H.
Qed.

Lemma InvB_consistent h :
  wf_skel (skeleton h) = true -> InvB (skeleton h) [] h -> consistent h.
Proof.
  intros Hwf H. split; [done|]. intros r o Hr. apply (H r o Hr).
  apply not_elem_of_nil.
Qed.

Lemma quiet_nil sk d t h : quiet sk [] d t h.
Proof. intros b Hb. by apply elem_of_nil in Hb. Qed.

Lemma obj_ok_extends sk r o o' :
  obj_ok sk r o -> obj_ok sk r o' -> skel_of o' = skel_of o ->
  level_of o <= level_of o' -> obj_extends o o'.
Proof.
  destruct o as [cs cards|con|con e|con enums next rows|];
    destruct o' as [cs' cards'|con'|con' e'|con' enums' next' rows'|];
    simpl; intros Ho Ho' Hsk Hl; try discriminate; try (by injection Hsk as ->);
    try (by injection Hsk as -> ->); try done.
  - injection Hsk as ->. split; [done|].
    destruct Ho as [_ E], Ho' as [_ E']. rewrite E, E'.
    by apply map_prefix, range_prefix.
  - injection Hsk as -> ->. split; [done|]. split; [done|]. split; [done|].
    destruct Ho as [H0 ->], Ho' as [_ ->]. unfold cs_at.
    apply Forall2_fmap, Forall_Forall2_diag, Forall_forall. intros k _.
    by apply map_prefix, range_prefix.
Qed.

Lemma post_extends h h' :
  consistent h -> post (skeleton h) [] h h' -> consistent h' /\ extends h h'.
Proof.
  intros Hc (Hs & HI & _ & Hl). split.
  - apply InvB_consistent; rewrite Hs; [apply Hc | done].
  - apply Forall2_same_length_lookup_2.
    + by rewrite <- (skeleton_length h), <- Hs, skeleton_length.
    + intros r o o' Hr Hr'. apply (obj_ok_extends (skeleton h) r).
      * by apply Hc.
      * apply (HI r o' Hr'). apply not_elem_of_nil.
      * pose proof (skeleton_lookup h r) as E1. pose proof (skeleton_lookup h' r) as E2.
        rewrite Hs, E1 in E2. rewrite Hr, Hr' in E2. by injection E2.
      * specialize (Hl r). by rewrite (level_lookup _ _ _ Hr), (level_lookup _ _ _ Hr') in Hl.
Qed.

Lemma consistent_grounded h r :
  consistent h -> (r < length h)%nat -> grounded (skeleton h) (length h) r = true.
Proof.
  intros [Hwf _] Hr. rewrite <- (skeleton_length h).
  destruct (lookup_lt_is_Some_2 (skeleton h) r) as [s Hs]; [by rewrite skeleton_length|].
  by apply (wf_grounded _ _ s).
Qed.

(** [card(n)] returns on every consistent heap, for every size [n >= 0];
    it leaves a consistent heap whose tables extend the former ones. *)
Lemma card_total h r n :
  consistent h -> (r < length h)%nat -> 0 <= n ->
  exists h',
    Runs (fun f => card f r n) h (Ret (cardD (skeleton h) r n) h') /\
    consistent h' /\ skeleton h' = skeleton h /\ extends h h' /\
    memoized h' (length h) r n.
Proof.
  intros Hc Hr Hn.
  destruct (card_correct (skeleton h) (proj1 Hc) n (length h) Hn [] r h) as (h' & Hrun & Hp & Hm).
  - by apply consistent_grounded.
  - done.
  - by apply consistent_InvB.
  - apply quiet_nil.
  - exists h'. split; [done|]. destruct (post_extends h h' Hc Hp) as [Hc' He].
    split; [done|]. split; [apply Hp|]. split; [done | done].
Qed.

(** [index(n, i)] ends on every consistent heap, for [n >= 0] and
    [0 <= i < card(n)]: with the value [IndexR] gives, or with the
    exception of a constructor function. *)
Lemma index_total h r n i :
  consistent h -> (r < length h)%nat -> 0 <= n ->
  0 <= i < cardD (skeleton h) r n ->
  exists res h',
    IndexR (skeleton h) r n i res /\
    Runs (fun f => index f r n i) h (out res h') /\
    consistent h' /\ skeleton h' = skeleton h /\ extends h h'.
Proof.
  intros Hc Hr Hn Hi.
  destruct (index_correct (skeleton h) (proj1 Hc) n (length h) Hn [] r h i)
    as (res & h' & HR & Hrun & Hp).
  - by apply consistent_grounded.
  - done.
  - by apply consistent_InvB.
  - apply quiet_nil.
  - done.
  - exists res, h'. split; [done|]. split; [done|].
    destruct (post_extends h h' Hc Hp) as [Hc' He].
    split; [done|]. split; [apply Hp | done].
Qed.

(** A memoized cardinality is returned without touching the heap. *)
Lemma memoized_card sk B h d r n :
  wf_skel sk = true -> skeleton h = sk -> InvB sk B h ->
  memoized h d r n -> 0 <= n ->
  Runs (fun f => card f r n) h (Ret (cardD sk r n) h).
Proof.
  intros Hwf Hs HI. revert r. induction d as [|d IH]; intros r Hm Hn; [done|].
  cbn [memoized] in Hm. destruct (h !! r) as [o|] eqn:Hh; [|done].
  pose proof (heap_skel _ _ _ Hh) as Hsk. rewrite Hs in Hsk.
  apply Runs_S. cbn [card]. eapply Runs_bind_prim; [by apply get_obj_eq|].
  destruct o as [constructors cards|con|con e|con enums next cs|]; cbn beta iota.
  - rewrite (cardD_Enum sk r constructors) by done.
    destruct (Z.leb_spec n 0); [apply Runs_ret|].
    apply Runs_S. cbn [Enum_card_while].
    eapply Runs_bind_prim; [by apply get_obj_eq|]. cbn beta iota.
    destruct (Z.geb_spec n (len cards)); [lia|].
    apply Runs_prim; [|done]. apply getitem_Some.
    destruct (HI r _ Hh) as [[_ E] _]. rewrite E, py_getitem_map, py_getitem_range by lia.
    simpl. rewrite (cardD_Enum sk r constructors) by done.
    destruct (Z.leb_spec n 0); [lia | done].
  - rewrite (cardD_Constructor0 sk r con) by done. apply Runs_ret.
  - rewrite (cardD_Constructor1 sk r con e) by done. by apply IH.
  - assert (HK : (0 < length enums)%nat).
    { pose proof (wf_grounded _ _ _ Hwf Hsk) as Hg.
      pose proof (grounded_Constructor_arity _ _ _ _ _ Hg Hsk). lia. }
    eapply Runs_bind.
    { apply Runs_S. cbn [expand]. eapply Runs_bind_prim; [by apply get_obj_eq|].
      cbn beta iota. destruct (Z.leb_spec next n); [lia|]. apply Runs_ret. }
    apply Runs_prim; [|done].
    rewrite (cardD_Constructor sk r con enums) by done. rewrite <- table_0.
    apply (weak_cs_at sk B h r con enums next cs n HI Hh HK ltac:(lia) 0%nat HK).
  - rewrite (cardD_IntEnum sk r) by done. apply Runs_ret.
Qed.

Lemma memoized_le h d r n m : memoized h d r n -> m <= n -> memoized h d r m.
Proof.
  revert r. induction d as [|d IH]; intros r H Hm; [done|].
  cbn [memoized] in *. destruct (h !! r) as [[]|]; try done; try lia. by apply IH.
Qed.

(** ** Freshly built heaps *)

Lemma all_nil_replicate (cs : list (list Z)) :
  forallb (fun row : list Z => match row with [] => true | _ => false end) cs = true ->
  cs = replicate (length cs) [].
Proof.
  induction cs as [|row cs IH]; simpl; [done|].
  destruct row; [|done]. intros H. by rewrite <- IH.
Qed.

Lemma cs_at_0 sk enums : cs_at sk enums (fun _ => 0) = replicate (length enums) [].
Proof.
  unfold cs_at. rewrite range_0. simpl.
  rewrite <- (length_seq (length enums) 0) at 2.
  induction (seq 0 (length enums)) as [|a l IH]; simpl; [done|]. by rewrite IH.
Qed.

Lemma fresh_consistent h :
  wf_skel (skeleton h) = true -> fresh h = true -> consistent h.
Proof.
  intros Hwf Hf. split; [done|]. intros r o Hr.
  unfold fresh in Hf. rewrite forallb_forall in Hf.
  assert (Ho : fresh_obj o = true).
  { apply Hf. apply list_elem_of_In. by eapply list_elem_of_lookup_2. }
  pose proof (heap_skel _ _ _ Hr) as Hsk.
  destruct o as [constructors cards|con|con e|con enums next cs|]; try done; simpl in *.
  - destruct cards as [|z [|z' cards]]; try done. apply Z.eqb_eq in Ho as ->.
    split; [done|]. change (len [0]) with 1. cbn [range seq map Z.to_nat Pos.to_nat Pos.iter_op].
    simpl. rewrite (cardD_Enum _ r constructors) by done. done.
  - apply andb_true_iff in Ho as [Ho H3]. apply andb_true_iff in Ho as [H1 H2].
    apply Z.eqb_eq in H1 as ->. apply Nat.eqb_eq in H2.
    split; [done|]. rewrite cs_at_0, <- H2. by apply all_nil_replicate.
Qed.

(** ** Sizes below zero *)

Lemma consistent_IntEnum : consistent [IntEnum].
Proof. by apply fresh_consistent. Qed.

(** C7, counterexample: [IntEnum().card(-1)] returns 1, not 0. *)
Lemma card_negative_IntEnum : ~ card_negative_is_zero.
Proof.
  intros H.
  destruct (H [IntEnum] 0%nat (-1) consistent_IntEnum ltac:(simpl; lia) ltac:(lia))
    as (h' & Hrun).
  assert (Hrun' : Runs (fun f => card f 0%nat (-1)) [IntEnum] (Ret 1 [IntEnum])).
  { apply Runs_S. by apply Runs_prim. }
  pose proof (Runs_det _ _ _ _ Hrun Hrun') as E. by injection E.
Qed.

(** C7, as amended: for a negative size, [Enum.card] and the [card] of a
    nullary [Constructor] return 0; [IntEnum.card] returns 1 at every
    size; a unary [Constructor] returns what its component returns. *)
Theorem card_negative_size h r n f :
  n < 0 ->
  match h !! r with
  | Some (Enum _ _) | Some (Constructor0 _) => card (S f) r n h = Ret 0 h
  | Some IntEnum => card (S f) r n h = Ret 1 h
  | Some (Constructor1 _ e) => card (S f) r n h = card f e n h
  | _ => True
  end.
Proof.
  intros Hn. destruct (h !! r) as [o|] eqn:Hh; [|done].
  destruct o as [constructors cards|con|con e|con enums next cs|]; try done;
    cbn [card]; unfold bind; rewrite (get_obj_eq _ _ _ Hh).
  - destruct (Z.leb_spec n 0); [done | lia].
  - destruct (Z.eqb_spec n 1); [lia | done].
  - done.
  - done.
Qed.

Lemma card_negative_size_witness :
  card 1 nat_list (-1) nat_list_heap = Ret 0 nat_list_heap /\
  card 1 0%nat (-1) nat_list_heap = Ret 1 nat_list_heap.
Proof.
  split.
  - apply (card_negative_size nat_list_heap nat_list (-1) 0). lia.
  - apply (card_negative_size nat_list_heap 0%nat (-1) 0). lia.
Defined.

(** On a matrix-based [Constructor], [card(-1)] indexes [cs[0][-1]]:
    [IndexError] while the matrix is empty, the last memoized entry
    afterwards. *)
Lemma card_negative_Constructor :
  (forall f, card (S (S f)) int_pair (-1) int_pair_heap = Raise IndexError int_pair_heap) /\
  (forall f, exists h1,
     card (10 + f) int_pair 3 int_pair_heap = Ret 4 h1 /\
     card (10 + f) int_pair (-1) h1 = Ret 4 h1).
Proof.
  split; [reflexivity|]. intros f. eexists. split; reflexivity.
Qed.

(** ** Indices out of bounds *)

Lemma index_IntEnum h r n i f :
  h !! r = Some IntEnum -> index (S f) r n i h = Ret (VInt n) h.
Proof. intros H. cbn [index]. unfold bind. by rewrite (get_obj_eq _ _ _ H). Qed.

(** C4, counterexample: [IntEnum().index(5, 7)] returns 5 although
    [card(5)] is 1. *)
Lemma index_out_of_bounds_IntEnum : ~ index_out_of_bounds_fails.
Proof.
  intros H.
  destruct (H [IntEnum] 0%nat 5 7 1 [IntEnum] consistent_IntEnum ltac:(simpl; lia))
    as (e & h' & Hrun).
  - apply Runs_S. by apply Runs_prim.
  - lia.
  - assert (Hrun' : Runs (fun f => index f 0%nat 5 7) [IntEnum] (Ret (VInt 5) [IntEnum])).
    { apply Runs_S. by apply Runs_prim. }
    pose proof (Runs_det _ _ _ _ Hrun Hrun') as E. discriminate E.
Qed.

(** [Enum.index]: the scan of the alternatives, for an index that no
    alternative owns. *)
Lemma Enum_index_for_oob sk B t :
  wf_skel sk = true -> 0 < t ->
  forall (cons' : list ref) (i : Z) (h : heap),
    (forall c, c ∈ cons' -> (c < length sk)%nat) ->
    skeleton h = sk -> InvB sk B h -> quiet sk B (length sk) (t - 1) h ->
    Zsum (map (fun c => cardD sk c (t - 1)) cons') <= i ->
    exists h',
      Runs (fun f => Enum_index_for (card f) (index f) cons' t i) h (Raise ValueError h') /\
      post sk B h h'.
Proof.
  intros Hwf Ht cons'. induction cons' as [|c cons' IH]; intros i h Hc Hs HI Hq Hi.
  - exists h. split; [by apply Runs_prim | by apply post_refl].
  - assert (Hg : grounded sk (length sk) c = true).
    { assert (Hlt : (c < length sk)%nat) by (apply Hc, list_elem_of_here).
      destruct (lookup_lt_is_Some_2 sk c Hlt) as [s Hs'].
      by apply (wf_grounded _ _ s). }
    destruct (card_correct sk Hwf (t - 1) (length sk) ltac:(lia) B c h Hg Hs HI Hq)
      as (h1 & Hrun1 & Hp1 & _).
    pose proof Hp1 as (Hs1 & HI1 & _ & _).
    cbn [map Zsum fold_right] in Hi.
    fold (Zsum (map (fun c => cardD sk c (t - 1)) cons')) in Hi.
    assert (H0 : 0 <= Zsum (map (fun c => cardD sk c (t - 1)) cons')).
    { apply Zsum_nonneg. intros; apply cardD_nonneg. }
    destruct (IH (i - cardD sk c (t - 1)) h1) as (h2 & Hrun2 & Hp2); try done.
    { intros c' Hc'. apply Hc. by apply list_elem_of_further. }
    { by apply (quiet_post _ _ _ _ h). }
    { lia. }
    exists h2. split; [|by apply (post_trans _ _ _ h1)].
    cbn [Enum_index_for]. eapply Runs_bind; [exact Hrun1|]. cbn beta.
    destruct (Z.ltb_spec i (cardD sk c (t - 1))); [lia|]. exact Hrun2.
Qed.

Lemma Enum_index_ValueError h r constructors cards n i :
  consistent h -> h !! r = Some (Enum constructors cards) -> 1 <= n ->
  cardD (skeleton h) r n <= i ->
  exists h', Runs (fun f => index f r n i) h (Raise ValueError h').
Proof.
  intros Hc Hh Hn Hi. pose proof (heap_skel _ _ _ Hh) as Hsk.
  rewrite (cardD_Enum _ r constructors) in Hi by done.
  destruct (Z.leb_spec n 0); [lia|].
  destruct (Enum_index_for_oob (skeleton h) [] n (proj1 Hc) ltac:(lia) constructors i h)
    as (h' & Hrun & _); try done.
  - intros c' Hc'. by apply (wf_closed _ r constructors c' (proj1 Hc)).
  - by apply consistent_InvB.
  - apply quiet_nil.
  - exists h'. apply Runs_S. cbn [index].
    eapply Runs_bind_prim; [by apply get_obj_eq|]. exact Hrun.
Qed.

(** C4, as amended: on a consistent heap, [Enum.index(n, i)] with
    [n >= 1] and [i >= card(n)] raises [ValueError]; [IntEnum.index]
    returns [n] and the [index] of a nullary [Constructor] calls [con()]
    whatever [i] is; a unary [Constructor] hands [i] to its component. *)
Theorem index_out_of_bounds h r n i :
  match h !! r with
  | Some (Enum _ _) =>
      consistent h -> 1 <= n ->
      forall c h1, Runs (fun f => card f r n) h (Ret c h1) -> c <= i ->
      exists h', Runs (fun f => index f r n i) h (Raise ValueError h')
  | Some IntEnum => forall f, index (S f) r n i h = Ret (VInt n) h
  | Some (Constructor0 con) => forall f, index (S f) r n i h = call con [] h
  | Some (Constructor1 con e) =>
      forall f, index (S f) r n i h = bind (index f e n i) (fun v => call con [v]) h
  | _ => True
  end.
Proof.
  destruct (h !! r) as [o|] eqn:Hh; [|done].
  destruct o as [constructors cards|con|con e|con enums next cs|]; try done.
  - intros Hc Hn c h1 Hcard Hi.
    assert (Hr : (r < length h)%nat) by (by apply lookup_lt_Some in Hh).
    destruct (card_total h r n Hc Hr ltac:(lia)) as (h1' & Hcard' & _).
    pose proof (Runs_det _ _ _ _ Hcard Hcard') as E. injection E as -> _.
    by apply (Enum_index_ValueError h r constructors cards).
  - intros f. cbn [index]. unfold bind. by rewrite (get_obj_eq _ _ _ Hh).
  - intros f. cbn [index]. unfold bind. by rewrite (get_obj_eq _ _ _ Hh).
  - intros f. by apply index_IntEnum.
Qed.

Lemma nat_list_consistent : consistent nat_list_heap.
Proof. by apply fresh_consistent. Qed.

(** [elist(IntEnum()).index(2, 1)] raises [ValueError]: [card(2)] is 1. *)
Lemma index_out_of_bounds_witness :
  exists h', Runs (fun f => index f nat_list 2 1) nat_list_heap (Raise ValueError h').
Proof.
  destruct (card_total nat_list_heap nat_list 2 nat_list_consistent) as (h1 & Hrun & _);
    [vm_compute; lia | lia |].
  apply (index_out_of_bounds nat_list_heap nat_list 2 1 nat_list_consistent ltac:(lia)
           _ h1 Hrun).
  vm_compute. discriminate.
Defined.

(** ** The cardinality of a sum *)

Lemma card_Enum_nonpos h r constructors cards n f :
  h !! r = Some (Enum constructors cards) -> n <= 0 -> card (S f) r n h = Ret 0 h.
Proof.
  intros Hh Hn. cbn [card]. unfold bind. rewrite (get_obj_eq _ _ _ Hh).
  destruct (Z.leb_spec n 0); [done | lia].
Qed.

(** C2: [Enum.card(n)] returns 0 for [n <= 0]; for [n > 0] it returns the
    sum of what the [card(n-1)] of its alternatives return. *)
Theorem Enum_card_sum h r constructors cards n :
  consistent h -> h !! r = Some (Enum constructors cards) ->
  (n <= 0 -> forall f, card (S f) r n h = Ret 0 h) /\
  (0 < n ->
   exists (vs : list Z) (h' : heap),
     Forall2 (fun c v => exists hc, Runs (fun f => card f c (n - 1)) h (Ret v hc))
             constructors vs /\
     Runs (fun f => card f r n) h (Ret (Zsum vs) h')).
Proof.
  intros Hc Hh. split; [intros Hn f; by apply (card_Enum_nonpos h r constructors cards)|].
  intros Hn. pose proof (heap_skel _ _ _ Hh) as Hsk.
  exists (map (fun c => cardD (skeleton h) c (n - 1)) constructors).
  assert (Hr : (r < length h)%nat) by (by apply lookup_lt_Some in Hh).
  destruct (card_total h r n Hc Hr ltac:(lia)) as (h' & Hrun & _).
  exists h'. split.
  - apply Forall2_fmap_r, Forall_Forall2_diag, Forall_forall. intros c Hin.
    assert (Hlt : (c < length h)%nat).
    { rewrite <- skeleton_length. by apply (wf_closed _ r constructors c (proj1 Hc)). }
    destruct (card_total h c (n - 1) Hc Hlt ltac:(lia)) as (hc & Hrunc & _). eauto.
  - rewrite (cardD_Enum _ r constructors) in Hrun by done.
    destruct (Z.leb_spec n 0); [lia | done].
Qed.

Lemma Enum_card_sum_witness :
  exists (vs : list Z) (h' : heap),
    Forall2 (fun c v => exists hc, Runs (fun f => card f c (3 - 1)) nat_list_heap (Ret v hc))
            [2%nat; 3%nat] vs /\
    Runs (fun f => card f nat_list 3) nat_list_heap (Ret (Zsum vs) h').
Proof.
  apply (Enum_card_sum nat_list_heap nat_list [2%nat; 3%nat] [0] 3 nat_list_consistent).
  - reflexivity.
  - lia.
Defined.

(** ** The cardinality matrix of a product *)

(** C3: after [card(n)], for every memoized size [s] the last row of the
    matrix holds the cardinalities of the last component, every other row
    is the convolution of the cardinalities [V] of its component with the
    row below, and [card(n)] returned [cs[0][n]]. *)
Theorem Constructor_matrix h r con enums next cs n :
  consistent h -> h !! r = Some (Constructor con enums next cs) -> 0 <= n ->
  exists (v : Z) (h' : heap) (next' : Z) (cs' : list (list Z)) (V : ref -> Z -> Z),
    Runs (fun f => card f r n) h (Ret v h') /\
    h' !! r = Some (Constructor con enums next' cs') /\ n < next' /\
    cs_entry cs' 0 n = Some v /\
    (forall e i, e ∈ enums -> 0 <= i ->
       exists he, Runs (fun f => card f e i) h' (Ret (V e i) he)) /\
    (forall e s, enums !! (length enums - 1)%nat = Some e -> 0 <= s < next' ->
       cs_entry cs' (len enums - 1) s = Some (V e s)) /\
    (forall (k : nat) e s, (k + 1 < length enums)%nat -> enums !! k = Some e ->
       0 <= s < next' ->
       exists C : Z -> Z,
         (forall i, 0 <= i <= s -> cs_entry cs' (Z.of_nat k + 1) i = Some (C i)) /\
         cs_entry cs' (Z.of_nat k) s =
           Some (Zsum (map (fun i => V e i * C (s - i)) (range (s + 1))))).
Proof.
  intros Hc Hh Hn.
  assert (Hr : (r < length h)%nat) by (by apply lookup_lt_Some in Hh).
  pose proof (heap_skel _ _ _ Hh) as Hsk. simpl in Hsk.
  destruct (card_total h r n Hc Hr Hn) as (h' & Hrun & Hc' & Hs' & _ & Hm).
  rewrite <- Hs' in Hsk. destruct (skel_Constructor _ _ _ _ Hsk) as (next' & cs' & Hh').
  rewrite Hs' in Hsk.
  destruct (length h) as [|d] eqn:El; [lia|]. cbn [memoized] in Hm. rewrite Hh' in Hm.
  destruct (proj2 Hc' r _ Hh') as [Hn' Hcs]. rewrite Hs' in Hcs.
  pose proof (wf_grounded _ _ _ (proj1 Hc) Hsk) as Hg.
  pose proof (grounded_Constructor_arity _ _ _ _ _ Hg Hsk) as HK.
  assert (Hentry : forall (k : nat) s, (k < length enums)%nat -> 0 <= s < next' ->
            cs_entry cs' (Z.of_nat k) s = Some (table (skeleton h) enums k s)).
  { intros k s Hk Hs. unfold cs_entry. rewrite Hcs.
    destruct (cs_at_getitem (skeleton h) enums (fun _ => next') k s Hk Hs) as (row & -> & E).
    exact E. }
  exists (cardD (skeleton h) r n), h', next', cs', (cardD (skeleton h)).
  split; [done|]. split; [done|]. split; [done|]. split; [|split; [|split]].
  - rewrite (cardD_Constructor _ r con enums) by (done || apply Hc).
    rewrite <- table_0. apply (Hentry 0%nat); lia.
  - intros e i He Hi.
    assert (Hlt : (e < length h')%nat).
    { rewrite <- skeleton_length, Hs'. apply lookup_lt_is_Some_1.
      apply (grounded_lookup _ (length (skeleton h) - 1)).
      apply (grounded_Constructor _ _ r con enums); [|done|done].
      replace (S (length (skeleton h) - 1)) with (length (skeleton h)); [done|].
      pose proof (lookup_lt_Some _ _ _ Hsk). lia. }
    destruct (card_total h' e i Hc' Hlt Hi) as (he & Hrune & _).
    rewrite Hs' in Hrune. eauto.
  - intros e s He Hs.
    replace (len enums - 1) with (Z.of_nat (length enums - 1)) by (unfold len; lia).
    rewrite Hentry by lia. by rewrite (table_last _ enums e).
  - intros k e s Hk He Hs. exists (table (skeleton h) enums (k + 1)). split.
    + intros i Hi. replace (Z.of_nat k + 1) with (Z.of_nat (k + 1)) by lia.
      apply Hentry; lia.
    + rewrite Hentry by lia. by rewrite (table_block_sum _ enums k e) by (done || lia).
Qed.

Lemma nat_list_cons : nat_list_heap !! 3%nat = Some (Constructor app [0%nat; nat_list] 0 [[]; []]).
Proof. reflexivity. Qed.

Lemma Constructor_matrix_witness :
  exists (v : Z) (h' : heap) (next' : Z) (cs' : list (list Z)),
    Runs (fun f => card f 3%nat 4) nat_list_heap (Ret v h') /\
    h' !! 3%nat = Some (Constructor app [0%nat; nat_list] next' cs') /\ 4 < next' /\
    cs_entry cs' 0 4 = Some v.
Proof.
  destruct (Constructor_matrix nat_list_heap 3%nat app [0%nat; nat_list] 0 [[]; []] 4
              nat_list_consistent nat_list_cons ltac:(lia))
    as (v & h' & next' & cs' & V & H1 & H2 & H3 & H4 & _).
  exists v, h', next', cs'. auto.
Defined.

(** ** Memoization *)

Lemma Runs_from {A} (c : nat -> M A) (F : nat) h o :
  o <> OutOfFuel -> (forall f, c (F + f)%nat h = o) -> Runs c h o.
Proof.
  intros Ho H. split; [done|]. exists F. intros f Hf.
  replace f with (F + (f - F))%nat by lia. apply H.
Qed.

Lemma int_pair_consistent : consistent int_pair_heap.
Proof. by apply fresh_consistent. Qed.

(** C8, counterexample: on [Constructor(pair, [IntEnum(), IntEnum()])],
    [card(-1)] after [card(2)] returns 3 (it reads [cs[0][-1]]), while
    [card(-1)] alone raises [IndexError]. *)
Lemma card_after_card_negative : ~ card_after_card.
Proof.
  intros H.
  destruct (card_total int_pair_heap int_pair 2 int_pair_consistent) as (h1 & Hrun1 & _);
    [vm_compute; lia | lia |].
  assert (Hrun1' : exists h1', Runs (fun f => card f int_pair 2) int_pair_heap (Ret 3 h1') /\
             Runs (fun f => card f int_pair (-1)) h1' (Ret 3 h1')).
  { eexists. split; apply (Runs_from _ 10); try done; intros f; reflexivity. }
  destruct Hrun1' as (h1' & Ha & Hb).
  destruct (H int_pair_heap int_pair 2 (-1) 3 h1' 3 h1' int_pair_consistent) as (hm & Hm);
    [vm_compute; lia | lia | done | done |].
  assert (Hm' : Runs (fun f => card f int_pair (-1)) int_pair_heap
                     (Raise IndexError int_pair_heap)).
  { apply (Runs_from _ 2); [done|]. intros f. reflexivity. }
  pose proof (Runs_det _ _ _ _ Hm Hm') as E. discriminate E.
Qed.

(** C8, as amended (sizes are not negative): [card(n)] called twice
    returns the same value, the second call leaves the heap as it is;
    for [0 <= m <= n], [card(m)] after [card(n)] returns what [card(m)]
    alone returns; and the first call only appends to the tables. *)
Theorem card_memoization h r n :
  consistent h -> (r < length h)%nat -> 0 <= n ->
  exists (v : Z) (h1 : heap),
    Runs (fun f => card f r n) h (Ret v h1) /\
    Runs (fun f => card f r n) h1 (Ret v h1) /\
    extends h h1 /\
    forall m, 0 <= m <= n ->
      exists (vm : Z) (hm : heap),
        Runs (fun f => card f r m) h (Ret vm hm) /\
        Runs (fun f => card f r m) h1 (Ret vm h1).
Proof.
  intros Hc Hr Hn.
  destruct (card_total h r n Hc Hr Hn) as (h1 & Hrun & Hc1 & Hs1 & He & Hm).
  assert (Hagain : forall m, 0 <= m <= n ->
            Runs (fun f => card f r m) h1 (Ret (cardD (skeleton h) r m) h1)).
  { intros m Hmn. apply (memoized_card (skeleton h) [] h1 (length h) r m).
    - apply Hc.
    - done.
    - rewrite <- Hs1. by apply consistent_InvB.
    - apply (memoized_le _ _ _ n); [done | lia].
    - lia. }
  exists (cardD (skeleton h) r n), h1. split; [done|]. split; [apply Hagain; lia|].
  split; [done|]. intros m Hmn.
  destruct (card_total h r m Hc Hr ltac:(lia)) as (hm & Hrunm & _).
  exists (cardD (skeleton h) r m), hm. split; [done | by apply Hagain].
Qed.

Lemma card_memoization_witness :
  exists (v : Z) (h1 : heap),
    Runs (fun f => card f nat_list 5) nat_list_heap (Ret v h1) /\
    Runs (fun f => card f nat_list 5) h1 (Ret v h1) /\
    extends nat_list_heap h1 /\
    forall m, 0 <= m <= 5 ->
      exists (vm : Z) (hm : heap),
        Runs (fun f => card f nat_list m) nat_list_heap (Ret vm hm) /\
        Runs (fun f => card f nat_list m) h1 (Ret vm h1).
Proof.
  apply (card_memoization nat_list_heap nat_list 5 nat_list_consistent).
  - vm_compute. lia.
  - lia.
Defined.

(** ** [IndexR] is a function *)

Scheme IndexR_mind := Minimality for IndexR Sort Prop
  with DecodeR_mind := Minimality for DecodeR Sort Prop.
Combined Scheme IndexR_DecodeR_ind from IndexR_mind, DecodeR_mind.

Lemma searchR_det f i e i1 e1 i2 e2 :
  searchR f i e i1 e1 -> searchR f i e i2 e2 -> i1 = i2 /\ e1 = e2.
Proof.
  intros H. revert i2 e2. induction H as [i e Hlt | i e i1 e1 Hge Hs IH]; intros i2 e2 H2.
  - inversion H2; subst; [done | lia].
  - inversion H2; subst; [lia | by apply IH].
Qed.

(** *** Inversion, by the kind of the object *)

Lemma IndexR_IntEnum_inv sk r n i res :
  sk !! r = Some SIntEnum -> IndexR sk r n i res -> res = Some (VInt n).
Proof. intros Hr H. inversion H; simplify_eq; done. Qed.

Lemma IndexR_Constructor0_inv sk r con n i res :
  sk !! r = Some (SConstructor0 con) -> IndexR sk r n i res -> res = con [].
Proof. intros Hr H. inversion H; simplify_eq; done. Qed.

Lemma IndexR_Constructor1_inv sk r con e n i res :
  sk !! r = Some (SConstructor1 con e) -> IndexR sk r n i res ->
  exists res0, IndexR sk e n i res0 /\ res = res0 ≫= fun v => con [v].
Proof. intros Hr H. inversion H; simplify_eq; eauto. Qed.

Lemma IndexR_Enum_inv sk r constructors n i res :
  sk !! r = Some (SEnum constructors) -> IndexR sk r n i res ->
  exists c i', pick (fun c => cardD sk c (n - 1)) constructors i = Some (c, i') /\
               IndexR sk c (n - 1) i' res.
Proof. intros Hr H. inversion H; simplify_eq; eauto. Qed.

Lemma IndexR_Constructor_inv sk r con enums n i res :
  sk !! r = Some (SConstructor con enums) -> IndexR sk r n i res ->
  exists args, DecodeR sk enums n i args /\ res = args ≫= con.
Proof. intros Hr H. inversion H; simplify_eq; eauto. Qed.

Lemma DecodeR_last_inv sk e n i args :
  DecodeR sk [e] n i args ->
  exists res, IndexR sk e n i res /\ args = res ≫= fun v => Some [v].
Proof. intros H. inversion H; simplify_eq; eauto. Qed.

Lemma DecodeR_cons_inv sk e es n i args :
  es <> [] -> DecodeR sk (e :: es) n i args ->
  exists i1 esize res1,
    searchR (block sk e es n) i 0 i1 esize /\
    IndexR sk e esize (i1 mod cardD sk e esize) res1 /\
    match res1 with
    | None => args = None
    | Some v =>
        exists args2, DecodeR sk es (n - esize) (i1 / cardD sk e esize) args2 /\
                      args = args2 ≫= fun vs => Some (v :: vs)
    end.
Proof.
  intros Hne H. inversion H; simplify_eq.
  - exists i1, esize, None. eauto.
  - exists i1, esize, (Some v). eauto 6.
Qed.

Lemma IndexR_DecodeR_det sk :
  (forall r n i res, IndexR sk r n i res ->
     forall res', IndexR sk r n i res' -> res = res') /\
  (forall es n i args, DecodeR sk es n i args ->
     forall args', DecodeR sk es n i args' -> args = args').
Proof.
  apply IndexR_DecodeR_ind.
  - intros r n i Hr res' H'. by rewrite (IndexR_IntEnum_inv _ _ _ _ _ Hr H').
  - intros r con n i Hr res' H'. by rewrite (IndexR_Constructor0_inv _ _ _ _ _ _ Hr H').
  - intros r con e n i res Hr _ IH res' H'.
    destruct (IndexR_Constructor1_inv _ _ _ _ _ _ _ Hr H') as (res0 & H0 & ->).
    by rewrite (IH _ H0).
  - intros r constructors n i c i' res Hr Hpk _ IH res' H'.
    destruct (IndexR_Enum_inv _ _ _ _ _ _ Hr H') as (c0 & i0 & Hpk0 & H0).
    simplify_eq. by apply IH.
  - intros r con enums n i args Hr _ IH res' H'.
    destruct (IndexR_Constructor_inv _ _ _ _ _ _ _ Hr H') as (args0 & H0 & ->).
    by rewrite (IH _ H0).
  - intros e n i res _ IH args' H'.
    destruct (DecodeR_last_inv _ _ _ _ _ H') as (res0 & H0 & ->).
    by rewrite (IH _ H0).
  - intros e es n i i1 esize Hne HS _ IH args' H'.
    destruct (DecodeR_cons_inv _ _ _ _ _ _ Hne H') as (i2 & e2 & res1 & HS2 & H1 & H2).
    destruct (searchR_det _ _ _ _ _ _ _ HS HS2) as [<- <-].
    rewrite <- (IH _ H1) in H2. by rewrite H2.
  - intros e es n i i1 esize v args Hne HS _ IH1 _ IH2 args' H'.
    destruct (DecodeR_cons_inv _ _ _ _ _ _ Hne H') as (i2 & e2 & res1 & HS2 & H1 & H2).
    destruct (searchR_det _ _ _ _ _ _ _ HS HS2) as [<- <-].
    rewrite <- (IH1 _ H1) in H2. destruct H2 as (args2 & HD & ->).
    by rewrite (IH2 _ HD).
Qed.

Lemma IndexR_det sk r n i res res' :
  IndexR sk r n i res -> IndexR sk r n i res' -> res = res'.
Proof. intros H. by apply (proj1 (IndexR_DecodeR_det sk)). Qed.

Lemma index_value h r n i res :
  consistent h -> (r < length h)%nat -> 0 <= n ->
  0 <= i < cardD (skeleton h) r n -> IndexR (skeleton h) r n i res ->
  exists h', Runs (fun f => index f r n i) h (out res h').
Proof.
  intros Hc Hr Hn Hi HR.
  destruct (index_total h r n i Hc Hr Hn Hi) as (res' & h' & HR' & Hrun & _).
  rewrite (IndexR_det _ _ _ _ _ _ HR HR'). eauto.
Qed.

(** ** The list of naturals at its smallest sizes *)

(** C5, on the code: [elist(IntEnum())] has no value of size 1, [card(1)]
    is 0 and [index(1, 0)] raises [ValueError]; the empty list is the
    value of size 2.  The nullary constructor counts 1 at size 1 and the
    [Enum] adds its own cost of 1. *)
Theorem nat_list_smallest :
  (exists h', Runs (fun f => card f nat_list 1) nat_list_heap (Ret 0 h')) /\
  (exists h', Runs (fun f => index f nat_list 1 0) nat_list_heap (Raise ValueError h')) /\
  (exists h', Runs (fun f => card f nat_list 2) nat_list_heap (Ret 1 h')) /\
  (exists h', Runs (fun f => index f nat_list 2 0) nat_list_heap (Ret (VList []) h')).
Proof.
  split; [|split; [|split]].
  - eexists. apply (Runs_from _ 10); [done|]. intros f. reflexivity.
  - apply (Enum_index_ValueError nat_list_heap nat_list [2%nat; 3%nat] [0]);
      [apply nat_list_consistent | reflexivity | lia | by vm_compute].
  - eexists. apply (Runs_from _ 10); [done|]. intros f. reflexivity.
  - eexists. apply (Runs_from _ 10); [done|]. intros f. reflexivity.
Qed.

(** ** The index without a size *)

(** C6, on the code: the loop of [ix] stops at [index > enum.card(n)]
    and so hands [index == card(n)] to [enum.index(n, ...)].  On
    [IntEnum()], [ix(e, 1)] returns [index(0, 1) = 0], where the flat
    index 1 is the value [index(1, 0) = 1]; on [elist(IntEnum())],
    [ix(e, 0)] calls [index(0, 0)] and raises [IndexError], where the
    smallest size with a value is 2 and [index(2, 0)] is the empty list. *)
Theorem ix_off_by_one :
  Runs (fun f => ix f 0%nat 1) [IntEnum] (Ret (VInt 0) [IntEnum]) /\
  Runs (fun f => card f 0%nat 0) [IntEnum] (Ret 1 [IntEnum]) /\
  Runs (fun f => index f 0%nat 1 0) [IntEnum] (Ret (VInt 1) [IntEnum]) /\
  Runs (fun f => ix f nat_list 0) nat_list_heap (Raise IndexError nat_list_heap) /\
  (exists h', Runs (fun f => card f nat_list 1) nat_list_heap (Ret 0 h')) /\
  (exists h', Runs (fun f => index f nat_list 2 0) nat_list_heap (Ret (VList []) h')).
Proof.
  split; [|split; [|split; [|split; [|split]]]].
  1-4: apply (Runs_from _ 10); [done|]; intros f; reflexivity.
  all: eexists; apply (Runs_from _ 10); [done|]; intros f; reflexivity.
Qed.

(** ** The fast paths of [Constructor.__init__] *)

(** C9, counterexample: with no component the methods of the class raise
    [IndexError] (at [self.cs[-1]]), where the fast path returns
    [card(1) = 1]. *)
Lemma nullary_fast_path_differs : ~ nullary_fast_path_agrees.
Proof.
  intros H. destruct (H nil_builder 1 ltac:(lia)) as (c & _ & [h2 Hrun] & _).
  assert (Hrun' : Runs (fun f => card f 1%nat 1)
                       [Constructor0 nil_builder; Constructor nil_builder [] 0 []]
                       (Raise IndexError
                          [Constructor0 nil_builder; Constructor nil_builder [] 0 []])).
  { apply (Runs_from _ 3); [done|]. intros f. reflexivity. }
  pose proof (Runs_det _ _ _ _ Hrun Hrun') as E. discriminate E.
Qed.

(** C9, as amended: the unary fast path gives the same [card(n)] and
    [index(n, i)] as the methods of the class on the one-component list,
    for every [n >= 0] and every [0 <= i < card(n)]. *)
Theorem unary_fast_path h fast general con e next cs n :
  consistent h ->
  h !! fast = Some (Constructor1 con e) ->
  h !! general = Some (Constructor con [e] next cs) ->
  0 <= n ->
  same_results h fast general n.
Proof.
  intros Hc Hf Hg Hn.
  assert (Hlf : (fast < length h)%nat) by (by apply lookup_lt_Some in Hf).
  assert (Hlg : (general < length h)%nat) by (by apply lookup_lt_Some in Hg).
  pose proof (heap_skel _ _ _ Hf) as Hsf. pose proof (heap_skel _ _ _ Hg) as Hsg.
  simpl in Hsf, Hsg.
  assert (Ef : cardD (skeleton h) fast n = cardD (skeleton h) e n).
  { by apply (cardD_Constructor1 _ fast con e); [apply Hc|]. }
  assert (Eg : cardD (skeleton h) general n = cardD (skeleton h) e n).
  { by rewrite (cardD_Constructor _ general con [e]) by (done || apply Hc). }
  exists (cardD (skeleton h) e n). split; [|split].
  - destruct (card_total h fast n Hc Hlf Hn) as (h1 & Hrun & _). rewrite Ef in Hrun. eauto.
  - destruct (card_total h general n Hc Hlg Hn) as (h2 & Hrun & _). rewrite Eg in Hrun. eauto.
  - intros i Hi.
    destruct (index_total h fast n i Hc Hlf Hn ltac:(by rewrite Ef))
      as (res1 & h1 & HR1 & Hrun1 & _).
    destruct (index_total h general n i Hc Hlg Hn ltac:(by rewrite Eg))
      as (res2 & h2 & HR2 & Hrun2 & _).
    exists res1. split; [eauto|]. exists h2.
    destruct (IndexR_Constructor1_inv _ _ _ _ _ _ _ Hsf HR1) as (r1 & He1 & ->).
    destruct (IndexR_Constructor_inv _ _ _ _ _ _ _ Hsg HR2) as (args & HD & ->).
    destruct (DecodeR_last_inv _ _ _ _ _ HD) as (r2 & He2 & ->).
    rewrite (IndexR_det _ _ _ _ _ _ He1 He2). by destruct r2.
Qed.

Lemma unary_fast_path_witness :
  same_results [IntEnum; Constructor1 singleton_builder 0%nat;
                Constructor singleton_builder [0%nat] 0 [[]]] 1%nat 2%nat 3.
Proof.
  apply (unary_fast_path _ 1%nat 2%nat singleton_builder 0%nat 0 [[]] 3).
  - by apply fresh_consistent.
  - reflexivity.
  - reflexivity.
  - lia.
Defined.

(** ** [index(n, ·)] is injective on unambiguous enumerators *)

Lemma prodcard_block_sum (c : ref -> Z -> Z) e es n :
  es <> [] -> 0 <= n ->
  prodcard c (e :: es) n =
    Zsum (map (fun s => c e s * prodcard c es (n - s)) (range (n + 1))).
Proof.
  intros Hne Hn. cbn [prodcard]. destruct es as [|e' es']; [done|].
  replace (n + 1) with (Z.of_nat (Z.to_nat (n + 1))) by lia.
  rewrite Zsum_range_flip. apply Zsum_ext. intros s Hs. apply range_elem in Hs.
  rewrite Z.mul_comm. f_equal; f_equal; lia.
Qed.

Lemma searchR_nonneg f i e i1 e1 : searchR f i e i1 e1 -> 0 <= i -> 0 <= i1.
Proof. induction 1; intros; [done|]. apply IHsearchR. lia. Qed.

Lemma pick_spec (c : ref -> Z) constructors i con i1 :
  0 <= i -> pick c constructors i = Some (con, i1) ->
  exists p : nat,
    constructors !! p = Some con /\
    i = i1 + Zsum (map c (take p constructors)) /\ 0 <= i1 < c con.
Proof.
  revert i. induction constructors as [|x l IH]; intros i Hi H; [done|].
  cbn [pick] in H. destruct (Z.ltb_spec i (c x)) as [Hlt|Hge].
  - injection H as -> ->. exists 0%nat. simpl. split; [done|]. lia.
  - destruct (IH (i - c x) ltac:(lia) H) as (p & Hp & E & Hb).
    exists (S p). simpl. split; [done|]. split; [lia | done].
Qed.

Lemma DecodeR_cons_bounds sk e es n i args :
  es <> [] -> 0 <= n -> 0 <= i < prodcard (cardD sk) (e :: es) n ->
  DecodeR sk (e :: es) n i args ->
  exists esize ei q res1,
    0 <= esize <= n /\ 0 <= ei < cardD sk e esize /\
    0 <= q < prodcard (cardD sk) es (n - esize) /\
    i = ei + cardD sk e esize * q + Zsum (map (block sk e es n) (range esize)) /\
    IndexR sk e esize ei res1 /\
    match res1 with
    | None => args = None
    | Some a =>
        exists args2, DecodeR sk es (n - esize) q args2 /\
                      args = args2 ≫= fun vs => Some (a :: vs)
    end.
Proof.
  intros Hne Hn Hi HD.
  destruct (DecodeR_cons_inv _ _ _ _ _ _ Hne HD) as (i1 & esize & res1 & HS & HR & Hm).
  destruct (searchR_sum _ _ _ _ _ HS ltac:(lia)) as (Hsum & He0 & Hlt).
  pose proof (searchR_nonneg _ _ _ _ _ HS ltac:(lia)) as Hi1.
  rewrite range_0 in Hsum. simpl in Hsum.
  assert (Hf : forall j, 0 <= block sk e es n j).
  { intros j. unfold block. apply Z.mul_nonneg_nonneg;
      [apply cardD_nonneg | apply prodcard_nonneg, cardD_nonneg]. }
  rewrite prodcard_block_sum in Hi by done.
  fold (block sk e es n) in Hi.
  assert (Hle : esize <= n).
  { destruct (Z_le_gt_dec esize n) as [|Hgt]; [done|].
    pose proof (Zsum_range_mono (block sk e es n) (n + 1) esize Hf ltac:(lia)). lia. }
  unfold block in Hlt.
  pose proof (cardD_nonneg sk e esize) as Hce.
  pose proof (prodcard_nonneg (cardD sk) es (n - esize) (cardD_nonneg sk)) as HT.
  set (ce := cardD sk e esize) in *. set (T := prodcard (cardD sk) es (n - esize)) in *.
  assert (Hce' : 0 < ce) by nia.
  exists esize, (i1 mod ce), (i1 / ce), res1.
  split; [lia|]. split; [by apply Z.mod_pos_bound|]. split.
  { split; [apply Z.div_pos; lia | apply Z.div_lt_upper_bound; lia]. }
  split; [|done].
  pose proof (Z.div_mod i1 ce ltac:(lia)). lia.
Qed.

Lemma DecodeR_cons_Some sk e es n i args :
  es <> [] -> 0 <= n -> 0 <= i < prodcard (cardD sk) (e :: es) n ->
  DecodeR sk (e :: es) n i (Some args) ->
  exists esize ei q a rest,
    0 <= esize <= n /\ 0 <= ei < cardD sk e esize /\
    0 <= q < prodcard (cardD sk) es (n - esize) /\
    i = ei + cardD sk e esize * q + Zsum (map (block sk e es n) (range esize)) /\
    IndexR sk e esize ei (Some a) /\ DecodeR sk es (n - esize) q (Some rest) /\
    args = a :: rest.
Proof.
  intros Hne Hn Hi HD.
  destruct (DecodeR_cons_bounds _ _ _ _ _ _ Hne Hn Hi HD)
    as (esize & ei & q & res1 & H1 & H2 & H3 & H4 & HR & Hm).
  destruct res1 as [a|]; [|done]. destruct Hm as (args2 & HD2 & E).
  destruct args2 as [rest|]; [|done]. injection E as ->.
  exists esize, ei, q, a, rest. done.
Qed.

Lemma Decode_inj sk es :
  es <> [] ->
  forall n n' i i' args,
    0 <= n -> 0 <= n' ->
    (forall e s, e ∈ es -> 0 <= s <= n -> inj_at sk e s) ->
    0 <= i < prodcard (cardD sk) es n -> 0 <= i' < prodcard (cardD sk) es n' ->
    DecodeR sk es n i (Some args) -> DecodeR sk es n' i' (Some args) ->
    n = n' /\ i = i'.
Proof.
  induction es as [|e es IH]; [done|]. intros _ n n' i i' args Hn Hn' Hinj Hi Hi' HD HD'.
  destruct es as [|e2 es2].
  - destruct (DecodeR_last_inv _ _ _ _ _ HD) as (res & HR & E).
    destruct (DecodeR_last_inv _ _ _ _ _ HD') as (res' & HR' & E').
    destruct res as [a|]; [|done]. destruct res' as [a'|]; [|done].
    simpl in E, E'. simplify_eq.
    apply (Hinj e n (list_elem_of_here _ _) ltac:(lia) n' i i' a); done.
  - set (es := e2 :: es2) in *. assert (Hne : es <> []) by done.
    destruct (DecodeR_cons_Some _ _ _ _ _ _ Hne Hn Hi HD)
      as (s & ei & q & a & rest & Hs & Hei & Hq & Ei & HR & HDr & ->).
    destruct (DecodeR_cons_Some _ _ _ _ _ _ Hne Hn' Hi' HD')
      as (s' & ei' & q' & a' & rest' & Hs' & Hei' & Hq' & Ei' & HR' & HDr' & E).
    injection E as <- <-.
    destruct (Hinj e s (list_elem_of_here _ _) ltac:(lia) s' ei ei' a) as [<- <-];
      [lia | done | done | done | done |].
    destruct (IH Hne (n - s) (n' - s) q q' rest) as [En <-]; try done; try lia.
    { intros e0 s0 He0 Hs0. apply Hinj; [by apply list_elem_of_further | lia]. }
    assert (n = n') as <- by lia. split; [done|]. lia.
Qed.

Lemma index_inj sk :
  wf_skel sk = true -> unambiguous sk ->
  forall (N : nat) n, 0 <= n -> (Z.to_nat n < N)%nat ->
    forall d r, grounded sk d r = true -> inj_at sk r n.
Proof.
  intros Hwf [Hcon Halt]. induction N as [|N IHN]; intros n Hn HN; [lia|].
  induction d as [|d IHd]; intros r Hg; [done|].
  destruct (grounded_lookup _ _ _ Hg) as [s Hsk].
  intros n' i i' v Hn' Hi Hi' HR HR'.
  destruct s as [constructors|con|con e|con enums|].
  - (* Enum *)
    rewrite (cardD_Enum sk r constructors) in Hi, Hi' by done.
    destruct (Z.leb_spec n 0); [lia|]. destruct (Z.leb_spec n' 0); [lia|].
    destruct (IndexR_Enum_inv _ _ _ _ _ _ Hsk HR) as (c & i1 & Hpk & HRc).
    destruct (IndexR_Enum_inv _ _ _ _ _ _ Hsk HR') as (c' & i1' & Hpk' & HRc').
    destruct (pick_spec _ _ _ _ _ (proj1 Hi) Hpk) as (p & Hp & Ei & Hb).
    destruct (pick_spec _ _ _ _ _ (proj1 Hi') Hpk') as (q & Hq & Ei' & Hb').
    assert (p = q) as <-.
    { apply (Halt r constructors p q c c' v Hsk Hp Hq).
      - exists (n - 1), i1. split; [lia | done].
      - exists (n' - 1), i1'. split; [lia | done]. }
    assert (c' = c) as -> by congruence.
    assert (Hgc : grounded sk (length sk) c = true).
    { assert (Hlt : (c < length sk)%nat).
      { apply (wf_closed sk r constructors c Hwf Hsk). by eapply list_elem_of_lookup_2. }
      destruct (lookup_lt_is_Some_2 sk c Hlt) as [s Hs']. by apply (wf_grounded _ _ s). }
    destruct (IHN (n - 1) ltac:(lia) ltac:(lia) (length sk) c Hgc (n' - 1) i1 i1' v)
      as [En <-]; try done; try lia.
    assert (n = n') as <- by lia. split; [done | lia].
  - (* nullary constructor *)
    rewrite (cardD_Constructor0 sk r con) in Hi, Hi' by done.
    destruct (Z.eqb_spec n 1); [|lia]. destruct (Z.eqb_spec n' 1); [|lia]. lia.
  - (* unary constructor *)
    rewrite (cardD_Constructor1 sk r con e) in Hi, Hi' by done.
    destruct (IndexR_Constructor1_inv _ _ _ _ _ _ _ Hsk HR) as (res & He & E).
    destruct (IndexR_Constructor1_inv _ _ _ _ _ _ _ Hsk HR') as (res' & He' & E').
    destruct res as [a|]; [|done]. destruct res' as [a'|]; [|done]. simpl in E, E'.
    assert ([a] = [a']) as [= <-].
    { by apply (Hcon r _ con Hsk eq_refl [a] [a'] v). }
    apply (IHd e (grounded_Constructor1 _ _ _ _ _ Hg Hsk) n' i i' a); done.
  - (* constructor with a matrix *)
    rewrite (cardD_Constructor sk r con enums) in Hi, Hi' by done.
    destruct (IndexR_Constructor_inv _ _ _ _ _ _ _ Hsk HR) as (args & HD & E).
    destruct (IndexR_Constructor_inv _ _ _ _ _ _ _ Hsk HR') as (args' & HD' & E').
    destruct args as [l|]; [|done]. destruct args' as [l'|]; [|done]. simpl in E, E'.
    assert (l = l') as <-.
    { by apply (Hcon r _ con Hsk eq_refl l l' v). }
    pose proof (grounded_Constructor_arity _ _ _ _ _ Hg Hsk) as HK.
    assert (Hnil : enums <> []) by (intros ->; simpl in HK; lia).
    apply (Decode_inj sk enums Hnil n n' i i' l); try done.
    intros e s He Hs. pose proof (grounded_Constructor _ _ _ _ _ _ Hg Hsk He) as Hge.
    destruct (decide (s = n)) as [->|Hne]; [by apply IHd|].
    apply (IHN s ltac:(lia) ltac:(lia) d e Hge).
  - (* IntEnum *)
    rewrite (cardD_IntEnum sk r) in Hi, Hi' by done.
    rewrite (IndexR_IntEnum_inv _ _ _ _ _ Hsk HR) in HR'.
    pose proof (IndexR_IntEnum_inv _ _ _ _ _ Hsk HR') as E. injection E as ->.
    split; [done | lia].
Qed.

Lemma out_Ret res h v h' : out res h = Ret v h' -> res = Some v.
Proof. destruct res; simpl; congruence. Qed.

(** ** The values of an enumerator, in terms of its methods *)

Lemma produces_yields h r v :
  consistent h -> (r < length h)%nat ->
  produces (skeleton h) r v <-> yields h r v.
Proof.
  intros Hc Hr. split.
  - intros (n & i & Hn & Hi & HR).
    destruct (card_total h r n Hc Hr Hn) as (hc & Hcard & _).
    destruct (index_value h r n i (Some v) Hc Hr Hn Hi HR) as (h' & Hrun).
    exists n, i, (cardD (skeleton h) r n), hc, h'. done.
  - intros (n & i & c & hc & h' & Hn & Hcard & Hi & Hrun).
    destruct (card_total h r n Hc Hr Hn) as (hc' & Hcard' & _).
    pose proof (Runs_det _ _ _ _ Hcard Hcard') as E. injection E as -> _.
    destruct (index_total h r n i Hc Hr Hn Hi) as (res & h'' & HR & Hrun' & _).
    pose proof (Runs_det _ _ _ _ Hrun Hrun') as E. symmetry in E. apply out_Ret in E.
    subst res. exists n, i. done.
Qed.

Lemma unambiguous_heap_skel h :
  consistent h -> unambiguous_heap h <-> unambiguous (skeleton h).
Proof.
  intros Hc.
  assert (Hchild : forall r constructors (p : nat) c,
            skeleton h !! r = Some (SEnum constructors) -> constructors !! p = Some c ->
            (c < length h)%nat).
  { intros r constructors p c Hr Hp. rewrite <- skeleton_length.
    apply (wf_closed _ r constructors c (proj1 Hc) Hr). by eapply list_elem_of_lookup_2. }
  split; intros [H1 H2]; split.
  - intros r s con Hr Hs. rewrite skeleton_lookup in Hr.
    destruct (h !! r) as [o|] eqn:Ho; [|done]. injection Hr as <-. by apply (H1 r o).
  - intros r constructors p q c c' v Hr Hp Hq Hv Hv'.
    destruct (skel_Enum _ _ _ Hr) as [cards Hh].
    apply (H2 r constructors cards p q c c' v Hh Hp Hq).
    + apply produces_yields; [done | by apply (Hchild r constructors p) | done].
    + apply produces_yields; [done | by apply (Hchild r constructors q) | done].
  - intros r o con Hr Hs. by apply (H1 r (skel_of o) con (heap_skel _ _ _ Hr)).
  - intros r constructors cards p q c c' v Hr Hp Hq Hv Hv'.
    pose proof (heap_skel _ _ _ Hr) as Hsk. simpl in Hsk.
    apply (H2 r constructors p q c c' v Hsk Hp Hq).
    + apply produces_yields; [done | by apply (Hchild r constructors p) | done].
    + apply produces_yields; [done | by apply (Hchild r constructors q) | done].
Qed.

(** C1, counterexample: with two alternatives that yield the same values,
    [card(1)] is 2 and [index(1, 0)] and [index(1, 1)] are both 0. *)
Lemma index_not_injective_int_or_int : ~ index_always_injective.
Proof.
  intros H.
  assert (Hc : consistent int_or_int_heap) by (by apply fresh_consistent).
  refine (H int_or_int_heap int_or_int 1 2 _ 0 1 (VInt 0) _ (VInt 0) _ Hc _ _ _ _ _ _ _ _ eq_refl).
  - vm_compute. lia.
  - lia.
  - apply (Runs_from _ 5); [done|]. intros f. reflexivity.
  - lia.
  - lia.
  - lia.
  - apply (Runs_from _ 5); [done|]. intros f. reflexivity.
  - apply (Runs_from _ 5); [done|]. intros f. reflexivity.
Qed.

(** C1, as amended: on an unambiguous enumerator (injective constructor
    functions, alternatives with disjoint values, as [elist(IntEnum())]),
    distinct indices below [card(n)] give distinct values. *)
Theorem index_injective h r n c hc i j vi hi vj hj :
  consistent h -> unambiguous_heap h -> (r < length h)%nat -> 0 <= n ->
  Runs (fun f => card f r n) h (Ret c hc) ->
  0 <= i < c -> 0 <= j < c -> i <> j ->
  Runs (fun f => index f r n i) h (Ret vi hi) ->
  Runs (fun f => index f r n j) h (Ret vj hj) ->
  vi <> vj.
Proof.
  intros Hc Hu Hr Hn Hcard Hi Hj Hij Hruni Hrunj Heq. subst vj.
  apply (unambiguous_heap_skel h Hc) in Hu.
  destruct (card_total h r n Hc Hr Hn) as (h1 & Hcard' & _).
  pose proof (Runs_det _ _ _ _ Hcard Hcard') as E. injection E as -> _.
  destruct (index_total h r n i Hc Hr Hn Hi) as (resi & hi' & HRi & Hruni' & _).
  destruct (index_total h r n j Hc Hr Hn Hj) as (resj & hj' & HRj & Hrunj' & _).
  pose proof (Runs_det _ _ _ _ Hruni Hruni') as Ei. symmetry in Ei. apply out_Ret in Ei.
  pose proof (Runs_det _ _ _ _ Hrunj Hrunj') as Ej. symmetry in Ej. apply out_Ret in Ej.
  subst resi resj. apply Hij.
  apply (index_inj (skeleton h) (proj1 Hc) Hu (S (Z.to_nat n)) n Hn ltac:(lia)
           (length h) r (consistent_grounded h r Hc Hr) n i j vi); done.
Qed.

(** A value of an unambiguous enumerator has one size only. *)
Lemma index_size_unique h r n m i j v hi hj :
  consistent h -> unambiguous_heap h -> (r < length h)%nat ->
  0 <= n -> 0 <= m ->
  0 <= i < cardD (skeleton h) r n -> 0 <= j < cardD (skeleton h) r m ->
  Runs (fun f => index f r n i) h (Ret v hi) ->
  Runs (fun f => index f r m j) h (Ret v hj) ->
  n = m.
Proof.
  intros Hc Hu Hr Hn Hm Hi Hj Hruni Hrunj.
  apply (unambiguous_heap_skel h Hc) in Hu.
  destruct (index_total h r n i Hc Hr Hn Hi) as (resi & hi' & HRi & Hruni' & _).
  destruct (index_total h r m j Hc Hr Hm Hj) as (resj & hj' & HRj & Hrunj' & _).
  pose proof (Runs_det _ _ _ _ Hruni Hruni') as Ei. symmetry in Ei. apply out_Ret in Ei.
  pose proof (Runs_det _ _ _ _ Hrunj Hrunj') as Ej. symmetry in Ej. apply out_Ret in Ej.
  subst resi resj.
  apply (index_inj (skeleton h) (proj1 Hc) Hu (S (Z.to_nat n)) n Hn ltac:(lia)
           (length h) r (consistent_grounded h r Hc Hr) m i j v); done.
Qed.

(** [elist(IntEnum())] is unambiguous: the empty list against a list
    with a last element. *)
Lemma nat_list_unambiguous : unambiguous_heap nat_list_heap.
Proof.
  apply (unambiguous_heap_skel _ nat_list_consistent). split.
  - intros r s con Hr Hcon args args' v Ha Ha'.
    destruct r as [|[|[|[|r]]]]; simpl in Hr; simplify_eq; simpl in Hcon; simplify_eq.
    + destruct args; [|done]. by destruct args'.
    + destruct args as [|x [|[z|xs] [|]]]; try done.
      destruct args' as [|x' [|[z'|xs'] [|]]]; try done.
      simpl in Ha, Ha'. simplify_eq. apply app_inj_tail in Ha' as [-> ->]. done.
  - intros r constructors p q c c' v Hr Hp Hq Hv Hv'.
    destruct r as [|[|[|[|r]]]]; simpl in Hr; simplify_eq.
    assert (Hnil : forall w, produces (skeleton nat_list_heap) 2%nat w -> w = VList []).
    { intros w (n & i & _ & _ & HR).
      apply (IndexR_Constructor0_inv _ _ nil_builder) in HR; [|done].
      simpl in HR. by injection HR. }
    assert (Hcons : forall w, produces (skeleton nat_list_heap) 3%nat w -> w <> VList []).
    { intros w (n & i & _ & _ & HR) ->.
      apply (IndexR_Constructor_inv _ _ app [0%nat; nat_list]) in HR; [|done].
      destruct HR as (args & _ & E). destruct args as [args|]; [|done]. simpl in E.
      destruct args as [|x [|[z|xs] [|]]]; try done.
      simpl in E. simplify_eq. by destruct xs. }
    destruct p as [|[|p]], q as [|[|q]]; simpl in Hp, Hq; simplify_eq; try done.
    + apply Hnil in Hv. by apply Hcons in Hv'.
    + apply Hnil in Hv'. by apply Hcons in Hv.
Qed.

Lemma index_injective_witness : VList [VInt 0; VInt 0] <> VList [VInt 1].
Proof.
  refine (index_injective nat_list_heap nat_list 4 2 _ 0 1 _ _ _ _
            nat_list_consistent nat_list_unambiguous _ _ _ _ _ _ _ _).
  - vm_compute. lia.
  - lia.
  - apply (Runs_from _ 10); [done|]. intros f. reflexivity.
  - lia.
  - lia.
  - lia.
  - apply (Runs_from _ 10); [done|]. intros f. reflexivity.
  - apply (Runs_from _ 10); [done|]. intros f. reflexivity.
Defined.

(** ** Well-formed structures and cycles of references *)

Lemma grounded_component sk d r e :
  grounded sk (S d) r = true -> component sk r e -> grounded sk d e = true.
Proof.
  unfold component. intros Hg Hc.
  destruct (sk !! r) as [[| |con e'|con enums|]|] eqn:Hr; try done.
  - subst e'. by apply (grounded_Constructor1 sk d r con).
  - by apply (grounded_Constructor sk d r con enums).
Qed.

Lemma grounded_tc sk r e :
  tc (component sk) r e ->
  forall d, grounded sk d r = true -> exists d', (d' < d)%nat /\ grounded sk d' e = true.
Proof.
  induction 1 as [r e Hc | r e' e Hc _ IH]; intros d Hg.
  - destruct d as [|d]; [done|]. exists d. split; [lia|].
    by apply (grounded_component sk d r).
  - destruct d as [|d]; [done|].
    destruct (IH d (grounded_component _ _ _ _ Hg Hc)) as (d' & Hd' & Hg').
    exists d'. split; [lia | done].
Qed.

Lemma grounded_cycle_free sk d r : grounded sk d r = true -> ~ tc (component sk) r r.
Proof.
  revert r. induction (lt_wf d) as [d _ IH]. intros r Hg Hc.
  destruct (grounded_tc _ _ _ Hc d Hg) as (d' & Hd' & Hg').
  by apply (IH d' Hd' r).
Qed.

Lemma chain_tc sk l :
  chain sk l ->
  forall (k i : nat) a b, l !! i = Some a -> l !! (i + S k)%nat = Some b ->
    tc (component sk) a b.
Proof.
  intros Hch k. induction k as [|k IH]; intros i a b Ha Hb.
  - apply tc_once. apply (Hch i); [done|]. by replace (S i) with (i + 1)%nat by lia.
  - destruct (lookup_lt_is_Some_2 l (S i)) as [c Hc].
    { apply lookup_lt_Some in Hb. lia. }
    apply (tc_l _ a c b); [by apply (Hch i)|].
    apply (IH (S i)); [done|]. by replace (S i + S k)%nat with (i + S (S k))%nat by lia.
Qed.

Lemma duplicate_exists (l : list nat) :
  ~ NoDup l -> exists (i k : nat) x, l !! i = Some x /\ l !! (i + S k)%nat = Some x.
Proof.
  induction l as [|x l IH]; intros Hn; [destruct Hn; constructor|].
  destruct (decide (x ∈ l)) as [Hin|Hnin].
  - apply list_elem_of_lookup in Hin as [j Hj]. by exists 0%nat, j, x.
  - destruct IH as (i & k & y & Hi & Hk).
    { intros Hl. apply Hn. by constructor. }
    by exists (S i), k, y.
Qed.

Lemma ungrounded_chain sk :
  closed_refs sk ->
  forall d r, (r < length sk)%nat -> grounded sk d r = false ->
    exists l, length l = S d /\ l !! 0%nat = Some r /\ chain sk l /\
              forall x, x ∈ l -> (x < length sk)%nat.
Proof.
  intros Hcl d. induction d as [|d IH]; intros r Hr Hg.
  - exists [r]. split; [done|]. split; [done|]. split.
    + intros i a b _ Hb. by destruct i.
    + intros x Hx. apply list_elem_of_singleton in Hx. by subst.
  - destruct (lookup_lt_is_Some_2 sk r Hr) as [s Hs].
    assert (He : exists e, component sk r e /\ (e < length sk)%nat /\ grounded sk d e = false).
    { pose proof (Hcl r s Hs) as Hc. cbn [grounded] in Hg. rewrite Hs in Hg.
      unfold component. rewrite Hs.
      destruct s as [| |con e|con enums|]; try done.
      - by exists e.
      - destruct Hc as [Hne Hc].
        destruct (forallb (grounded sk d) enums) eqn:Hall.
        + destruct enums; [done|]. done.
        + assert (Hex : existsb (fun e => negb (grounded sk d e)) enums = true).
          { clear -Hall. induction enums as [|e enums IHe]; [done|]. simpl in *.
            destruct (grounded sk d e); simpl; [by apply IHe | done]. }
          apply existsb_exists in Hex as (e & Hin & Hne').
          apply list_elem_of_In in Hin. exists e. split; [done|]. split; [by apply Hc|].
          by apply negb_true_iff. }
    destruct He as (e & Hc & He & Hge).
    destruct (IH e He Hge) as (l & Hlen & Hhd & Hch & Hlt).
    exists (r :: l). split; [simpl; by rewrite Hlen|]. split; [done|]. split.
    + intros i a b Ha Hb. destruct i as [|i]; simpl in *.
      * by simplify_eq.
      * by apply (Hch i).
    + intros x Hx. apply elem_of_cons in Hx as [->|Hx]; [done | by apply Hlt].
Qed.

(** [wf_skel] says that no reference dangles and that every cycle of
    references passes through an [Enum]. *)
Theorem wf_skel_iff sk : wf_skel sk = true <-> closed_refs sk /\ cycle_free sk.
Proof.
  split.
  - intros Hwf. split.
    + intros r s Hs. pose proof (wf_grounded _ _ _ Hwf Hs) as Hg.
      destruct s as [constructors|con|con e|con enums|]; try done.
      * intros c Hc. by apply (wf_closed sk r constructors).
      * destruct (length sk) as [|d] eqn:El; [done|]. rewrite <- El.
        apply lookup_lt_is_Some_1, (grounded_lookup _ d).
        by apply (grounded_Constructor1 sk d r con).
      * split.
        { pose proof (grounded_Constructor_arity _ _ _ _ _ Hg Hs) as HK.
          intros ->. simpl in HK. lia. }
        intros e He. destruct (length sk) as [|d] eqn:El; [done|]. rewrite <- El.
        apply lookup_lt_is_Some_1, (grounded_lookup _ d).
        by apply (grounded_Constructor sk d r con enums).
    + intros r Hc.
      assert (Hr : is_Some (sk !! r)).
      { assert (He : exists e, component sk r e) by (inversion Hc; eauto).
        destruct He as [e He]. unfold component in He.
        destruct (sk !! r); [eauto | done]. }
      destruct Hr as [s Hs].
      by apply (grounded_cycle_free sk (length sk) r (wf_grounded _ _ _ Hwf Hs)).
  - intros [Hcl Hcf]. apply andb_true_iff. split.
    + apply forallb_forall. intros r Hr. apply in_seq in Hr.
      destruct (grounded sk (length sk) r) eqn:Hg; [done|]. exfalso.
      destruct (ungrounded_chain sk Hcl (length sk) r ltac:(lia) Hg)
        as (l & Hlen & _ & Hch & Hlt).
      assert (Hnd : ~ NoDup l).
      { intros Hnd.
        assert (Hsub : l ⊆+ seq 0 (length sk)).
        { apply NoDup_submseteq; [done|]. intros x Hx. apply elem_of_seq.
          specialize (Hlt x Hx). lia. }
        apply submseteq_length in Hsub. rewrite length_seq in Hsub. lia. }
      destruct (duplicate_exists l Hnd) as (i & k & x & Hi & Hk).
      apply (Hcf x). by apply (chain_tc sk l Hch k i).
    + apply forallb_forall. intros s Hin. apply list_elem_of_In in Hin.
      apply list_elem_of_lookup in Hin as [r Hs]. pose proof (Hcl r s Hs) as Hc.
      destruct s as [constructors| | | |]; try done. simpl.
      apply forallb_forall. intros c Hc'. apply Nat.ltb_lt, Hc. by apply list_elem_of_In.
Qed.

(** ** Termination *)

(** A cycle that avoids the [Enum]s: a unary constructor over itself.
    [card] runs out of any fuel. *)
Lemma card_diverges_without_Enum con n f :
  card f 0%nat n [Constructor1 con 0%nat] = OutOfFuel.
Proof. induction f as [|f IH]; [done|]. cbn [card]. exact IH. Qed.

(** C10: when no reference dangles and every cycle of references passes
    through an [Enum], on right tables (those of a freshly built heap, or
    of the heap any number of calls leave), [card(n)] returns for every
    [n >= 0] and [index(n, i)] ends for every [0 <= i < card(n)], from the
    given heap and from the heap [card(n)] leaves. *)
Theorem card_index_terminate h r n :
  closed_refs (skeleton h) -> cycle_free (skeleton h) -> right_tables h ->
  (r < length h)%nat -> 0 <= n ->
  exists (c : Z) (h1 : heap),
    Runs (fun f => card f r n) h (Ret c h1) /\
    forall i, 0 <= i < c ->
      (exists res h2, Runs (fun f => index f r n i) h (out res h2)) /\
      (exists res h2, Runs (fun f => index f r n i) h1 (out res h2)).
Proof.
  intros Hcl Hcf Ht Hr Hn.
  assert (Hc : consistent h).
  { split; [|done]. apply wf_skel_iff. by split. }
  destruct (card_total h r n Hc Hr Hn) as (h1 & Hrun & Hc1 & Hs1 & He & _).
  exists (cardD (skeleton h) r n), h1. split; [done|]. intros i Hi. split.
  - destruct (index_total h r n i Hc Hr Hn Hi) as (res & h2 & _ & Hrun2 & _). eauto.
  - assert (Hr1 : (r < length h1)%nat).
    { by rewrite <- skeleton_length, Hs1, skeleton_length. }
    destruct (index_total h1 r n i Hc1 Hr1 Hn) as (res & h2 & _ & Hrun2 & _);
      [by rewrite Hs1|]. eauto.
Qed.

Lemma card_index_terminate_witness :
  exists (c : Z) (h1 : heap),
    Runs (fun f => card f nat_list 6) nat_list_heap (Ret c h1) /\
    forall i, 0 <= i < c ->
      (exists res h2, Runs (fun f => index f nat_list 6 i) nat_list_heap (out res h2)) /\
      (exists res h2, Runs (fun f => index f nat_list 6 i) h1 (out res h2)).
Proof.
  apply (card_index_terminate nat_list_heap nat_list 6).
  - apply (proj1 (wf_skel_iff (skeleton nat_list_heap))). reflexivity.
  - apply (proj1 (wf_skel_iff (skeleton nat_list_heap))). reflexivity.
  - apply nat_list_consistent.
  - vm_compute. lia.
  - lia.
Defined.

(** ** The size of a list of naturals, as the code counts it *)

Lemma nat_list_decode n :
  0 <= n ->
  forall i res,
    0 <= i < cardD (skeleton nat_list_heap) nat_list n ->
    IndexR (skeleton nat_list_heap) nat_list n i res ->
    exists l, res = Some (VList (map VInt l)) /\ Forall (Z.le 0) l /\ n = nat_list_size l.
Proof.
  set (sk := skeleton nat_list_heap).
  assert (Hwf : wf_skel sk = true) by reflexivity.
  intros Hn.
  assert (H : forall (N : nat) n, 0 <= n -> (Z.to_nat n < N)%nat ->
    forall i res, 0 <= i < cardD sk nat_list n -> IndexR sk nat_list n i res ->
    exists l, res = Some (VList (map VInt l)) /\ Forall (Z.le 0) l /\ n = nat_list_size l).
  { clear n Hn. induction N as [|N IH]; intros n Hn HN i res Hi HR; [lia|].
    rewrite (cardD_Enum sk nat_list [2%nat; 3%nat]) in Hi by done.
    destruct (Z.leb_spec n 0); [lia|].
    destruct (IndexR_Enum_inv sk nat_list [2%nat; 3%nat] n i res eq_refl HR)
      as (c & i' & Hpk & HRc).
    destruct (pick_spec _ _ _ _ _ (proj1 Hi) Hpk) as (p & Hp & _ & Hb).
    destruct p as [|[|p]]; simpl in Hp; simplify_eq.
    - (* the empty list *)
      rewrite (cardD_Constructor0 sk 2%nat nil_builder) in Hb by done.
      destruct (Z.eqb_spec (n - 1) 1); [|lia].
      rewrite (IndexR_Constructor0_inv sk 2%nat nil_builder _ _ _ eq_refl HRc).
      exists []. split; [done|]. split; [done|]. unfold nat_list_size. simpl. lia.
    - (* one more element *)
      rewrite (cardD_Constructor sk 3%nat app [0%nat; nat_list]) in Hb by done.
      destruct (IndexR_Constructor_inv sk 3%nat app [0%nat; nat_list] _ _ _ eq_refl HRc)
        as (args & HD & ->).
      destruct (DecodeR_cons_bounds sk 0%nat [nat_list] (n - 1) i' args
                  ltac:(done) ltac:(lia) Hb HD)
        as (esize & ei & q & res1 & Hes & _ & Hq & _ & HR1 & Hm).
      rewrite (IndexR_IntEnum_inv sk 0%nat _ _ _ eq_refl HR1) in Hm.
      destruct Hm as (args2 & HD2 & ->).
      destruct (DecodeR_last_inv _ _ _ _ _ HD2) as (res2 & HR2 & ->).
      cbn [prodcard] in Hq.
      destruct (IH (n - 1 - esize) ltac:(lia) ltac:(lia) q res2 Hq HR2)
        as (l & -> & Hl & El).
      exists (l ++ [esize]). split; [|split].
      + simpl. by rewrite map_app.
      + apply Forall_app. split; [done|]. constructor; [lia | done].
      + unfold nat_list_size in *. rewrite map_app, Zsum_app. simpl. lia. }
  intros i res. apply (H (S (Z.to_nat n))); lia.
Qed.

(** X16: for [elist(IntEnum())], every [index(n, i)] with
    [0 <= i < card(n)] returns a list of naturals whose size, as
    [nat_list_size] counts it, is [n]. *)
Theorem nat_list_index_size n i c hc :
  0 <= n -> Runs (fun f => card f nat_list n) nat_list_heap (Ret c hc) -> 0 <= i < c ->
  exists l h',
    Runs (fun f => index f nat_list n i) nat_list_heap (Ret (VList (map VInt l)) h') /\
    Forall (Z.le 0) l /\ n = nat_list_size l.
Proof.
  intros Hn Hcard Hi.
  assert (Hr : (nat_list < length nat_list_heap)%nat) by (vm_compute; lia).
  destruct (card_total nat_list_heap nat_list n nat_list_consistent Hr Hn) as (hc' & Hcard' & _).
  pose proof (Runs_det _ _ _ _ Hcard Hcard') as E. injection E as -> _.
  destruct (index_total nat_list_heap nat_list n i nat_list_consistent Hr Hn Hi)
    as (res & h' & HR & Hrun & _).
  destruct (nat_list_decode n Hn i res Hi HR) as (l & -> & Hl & El).
  exists l, h'. done.
Qed.

Lemma nat_list_index_size_witness :
  exists l h',
    Runs (fun f => index f nat_list 4 1) nat_list_heap (Ret (VList (map VInt l)) h') /\
    Forall (Z.le 0) l /\ 4 = nat_list_size l.
Proof.
  refine (nat_list_index_size 4 1 2 _ _ _ _).
  - lia.
  - apply (Runs_from _ 10); [done|]. intros f. reflexivity.
  - lia.
Defined.

(** ** [addcon] after a query

    [addcon] resets the table of its own [Enum] only.  When an [Enum]
    has already answered [card] and one of its alternatives then gets a
    new alternative, the first table is stale: the heap is no longer
    [consistent], and the cardinality of the sum is not the sum of the
    cardinalities. *)

Lemma addcon_stale :
  (exists h', Runs (fun f => card f 1%nat 2) stale_heap (Ret 0 h')) /\
  (exists h', Runs (fun f => card f 0%nat 1) stale_heap (Ret 1 h')) /\
  ~ consistent stale_heap.
Proof.
  assert (H1 : exists h', Runs (fun f => card f 1%nat 2) stale_heap (Ret 0 h')).
  { eexists. apply (Runs_from _ 10); [done|]. intros f. reflexivity. }
  assert (H2 : exists h', Runs (fun f => card f 0%nat 1) stale_heap (Ret 1 h')).
  { eexists. apply (Runs_from _ 10); [done|]. intros f. reflexivity. }
  split; [done|]. split; [done|]. intros Hc.
  destruct H1 as [h' H1].
  destruct (card_total stale_heap 1%nat 2 Hc) as (h'' & H1' & _); [vm_compute; lia | lia |].
  pose proof (Runs_det _ _ _ _ H1 H1') as E. injection E as E _.
  vm_compute in E. discriminate E.
Qed.

(** ** Fuel *)

Lemma le_out_refl {A} (o : outcome A) : le_out o o.
Proof. by right. Qed.

Lemma le_out_trans {A} (o1 o2 o3 : outcome A) : le_out o1 o2 -> le_out o2 o3 -> le_out o1 o3.
Proof. intros [->| ->]; [by left | done]. Qed.

Lemma bind_mono {A B} (m m' : M A) (k k' : A -> M B) h :
  le_out (m h) (m' h) -> (forall a h1, le_out (k a h1) (k' a h1)) ->
  le_out (bind m k h) (bind m' k' h).
Proof.
  intros [H|H] Hk; unfold bind; rewrite H; [by left|].
  destruct (m' h); [apply Hk | by right | by right].
Qed.

Lemma foldM_mono {A X} (f f' : A -> X -> M A) l :
  (forall a x h, le_out (f a x h) (f' a x h)) ->
  forall a h, le_out (foldM f l a h) (foldM f' l a h).
Proof.
  intros Hf. induction l as [|x l IH]; intros a h; simpl; [apply le_out_refl|].
  apply bind_mono; [apply Hf | intros; apply IH].
Qed.

Lemma Enum_index_for_mono (c c' : ref -> Z -> M Z) (ix ix' : ref -> Z -> Z -> M value) l :
  (forall r n h, le_out (c r n h) (c' r n h)) ->
  (forall r n i h, le_out (ix r n i h) (ix' r n i h)) ->
  forall n i h, le_out (Enum_index_for c ix l n i h) (Enum_index_for c' ix' l n i h).
Proof.
  intros Hc Hi. induction l as [|x l IH]; intros n i h; simpl; [apply le_out_refl|].
  apply bind_mono; [apply Hc|]. intros a h1. destruct (i <? a); [apply Hi | apply IH].
Qed.

Lemma card_mono_S f :
  (forall r n h, le_out (card f r n h) (card (S f) r n h)) /\
  (forall r n h, le_out (Enum_card_while f r n h) (Enum_card_while (S f) r n h)) /\
  (forall r n h, le_out (expand f r n h) (expand (S f) r n h)).
Proof.
  induction f as [|f (IHc & IHw & IHe)]; [by repeat split; intros; left|].
  split; [|split]; intros r n h.
  - cbn [card]. apply bind_mono; [apply le_out_refl|]. intros o h1.
    destruct o; try apply le_out_refl.
    + destruct (n <=? 0); [apply le_out_refl | apply IHw].
    + apply IHc.
    + apply bind_mono; [apply IHe | intros; apply le_out_refl].
  - cbn [Enum_card_while]. apply bind_mono; [apply le_out_refl|]. intros o h1.
    destruct o; try apply le_out_refl.
    destruct (n >=? len cards); [|apply le_out_refl].
    apply bind_mono.
    + apply foldM_mono. intros a x h2.
      apply bind_mono; [apply le_out_refl|]. intros cs h3.
      apply bind_mono; [apply IHc | intros; apply le_out_refl].
    + intros a h2. apply bind_mono; [apply le_out_refl | intros; apply IHw].
  - cbn [expand]. apply bind_mono; [apply le_out_refl|]. intros o h1.
    destruct o; try apply le_out_refl.
    destruct (next <=? n); [|apply le_out_refl].
    apply bind_mono; [apply le_out_refl|]. intros _ h2.
    apply bind_mono; [apply le_out_refl|]. intros e h3.
    apply bind_mono; [apply IHc|]. intros v h4.
    apply bind_mono; [apply le_out_refl|]. intros _ h5.
    apply bind_mono.
    + apply foldM_mono. intros a k h6.
      apply bind_mono; [apply le_out_refl|]. intros nx h7.
      apply bind_mono; [|intros; apply le_out_refl].
      apply foldM_mono. intros c i h8.
      apply bind_mono; [apply le_out_refl|]. intros x h9.
      apply bind_mono; [apply le_out_refl|]. intros e' h10.
      apply bind_mono; [apply le_out_refl|]. intros nx' h11.
      apply bind_mono; [apply IHc | intros; apply le_out_refl].
    + intros _ h6. apply bind_mono; [apply le_out_refl|]. intros nx h7.
      apply bind_mono; [apply le_out_refl | intros; apply IHe].
Qed.

Lemma index_while_mono_S f r e k n i esize h :
  le_out (index_while f r e k n i esize h) (index_while (S f) r e k n i esize h).
Proof.
  revert i esize h. induction f as [|f IH]; intros i esize h; [by left|].
  cbn [index_while]. apply bind_mono; [apply card_mono_S|]. intros x h1.
  apply bind_mono; [apply le_out_refl|]. intros y h2.
  destruct (i >=? x * y); [apply IH | apply le_out_refl].
Qed.

Lemma index_mono_S f r n i h : le_out (index f r n i h) (index (S f) r n i h).
Proof.
  revert r n i h. induction f as [|f IH]; intros r n i h; [by left|].
  cbn [index]. apply bind_mono; [apply le_out_refl|]. intros o h1.
  destruct o; try apply le_out_refl.
  - apply Enum_index_for_mono; [apply card_mono_S | apply IH].
  - apply bind_mono; [apply IH | intros; apply le_out_refl].
  - apply bind_mono; [apply card_mono_S|]. intros _ h2.
    apply bind_mono.
    + apply foldM_mono. intros [[n' i'] args] k h3.
      apply bind_mono; [apply le_out_refl|]. intros e h4.
      apply bind_mono; [apply index_while_mono_S|]. intros [i2 esize] h5.
      apply bind_mono; [apply card_mono_S|]. intros d h6.
      apply bind_mono; [apply le_out_refl|]. intros [i3 ei] h7.
      apply bind_mono; [apply IH | intros; apply le_out_refl].
    + intros [[n' i'] args] h3.
      apply bind_mono; [apply le_out_refl|]. intros e h4.
      apply bind_mono; [apply IH | intros; apply le_out_refl].
Qed.

Lemma ix_while_mono_S f r j n h : le_out (ix_while f r j n h) (ix_while (S f) r j n h).
Proof.
  revert j n h. induction f as [|f IH]; intros j n h; [by left|].
  cbn [ix_while]. apply bind_mono; [apply card_mono_S|]. intros c h1.
  destruct (j >? c); [|apply le_out_refl].
  apply bind_mono; [apply card_mono_S | intros; apply IH].
Qed.

(** More fuel does not change an outcome. *)
Lemma mono_le {A} (c : nat -> heap -> outcome A) :
  (forall f h, le_out (c f h) (c (S f) h)) ->
  forall f f' h, (f <= f')%nat -> le_out (c f h) (c f' h).
Proof.
  intros H f f' h Hle. induction Hle as [|f' Hle IH]; [apply le_out_refl|].
  eapply le_out_trans; [apply IH | apply H].
Qed.

Lemma Runs_fuel {A} (c : nat -> heap -> outcome A) f h o :
  (forall f h, le_out (c f h) (c (S f) h)) ->
  c f h = o -> o <> OutOfFuel -> Runs c h o.
Proof.
  intros H Hc Ho. split; [done|]. exists f. intros f' Hle.
  destruct (mono_le c H f f' h Hle) as [E|E]; congruence.
Qed.

Lemma card_fuel f r n h o :
  card f r n h = o -> o <> OutOfFuel -> Runs (fun f => card f r n) h o.
Proof. apply (Runs_fuel (fun f => card f r n)). intros. apply card_mono_S. Qed.

Lemma index_fuel f r n i h o :
  index f r n i h = o -> o <> OutOfFuel -> Runs (fun f => index f r n i) h o.
Proof. apply (Runs_fuel (fun f => index f r n i)). intros. apply index_mono_S. Qed.

(** ** Calls on a heap with the structure of a consistent one *)

Lemma card_run h h0 r n :
  consistent h0 -> skeleton h0 = skeleton h -> (r < length h)%nat -> 0 <= n ->
  exists h1, Runs (fun f => card f r n) h0 (Ret (cardD (skeleton h) r n) h1) /\
             consistent h1 /\ skeleton h1 = skeleton h.
Proof.
  intros Hc Hs Hr Hn.
  assert (Hr0 : (r < length h0)%nat).
  { rewrite <- skeleton_length, Hs, skeleton_length. done. }
  destruct (card_total h0 r n Hc Hr0 Hn) as (h1 & Hrun & Hc1 & Hs1 & _).
  exists h1. rewrite <- Hs. split; [done|]. split; [done | congruence].
Qed.

Lemma card_returns h r n :
  consistent h -> (r < length h)%nat -> 0 <= n ->
  exists hs, Runs (fun f => card f r n) h (Ret (cardD (skeleton h) r n) hs).
Proof. intros Hc Hr Hn. destruct (card_total h r n Hc Hr Hn) as (hs & H & _). by exists hs. Qed.

Lemma card_value h r n v hv :
  consistent h -> (r < length h)%nat -> 0 <= n ->
  Runs (fun f => card f r n) h (Ret v hv) -> v = cardD (skeleton h) r n.
Proof.
  intros Hc Hr Hn Hrun. destruct (card_total h r n Hc Hr Hn) as (h1 & Hrun1 & _).
  pose proof (Runs_det _ _ _ _ Hrun Hrun1) as E. by injection E.
Qed.

Lemma card_values h r (V : Z -> Z) n :
  consistent h -> (r < length h)%nat ->
  (forall s, 0 <= s <= n -> exists hs, Runs (fun f => card f r s) h (Ret (V s) hs)) ->
  forall m, 0 <= m <= n + 1 ->
    Zsum (map V (range m)) = Zsum (map (cardD (skeleton h) r) (range m)).
Proof.
  intros Hc Hr HV m Hm. apply Zsum_ext. intros s Hs. apply range_elem in Hs.
  destruct (HV s ltac:(lia)) as [hs Hrun]. apply (card_value h r s _ hs); [done | done | lia | done].
Qed.

Lemma out_inj res res' h h' : out res h = out res' h' -> res = res' /\ h = h'.
Proof. destruct res, res'; simpl; intros E; by simplify_eq. Qed.

Lemma index_run h h0 r n i :
  consistent h0 -> skeleton h0 = skeleton h -> (r < length h)%nat -> 0 <= n ->
  0 <= i < cardD (skeleton h) r n ->
  exists res h1,
    IndexR (skeleton h) r n i res /\
    Runs (fun f => index f r n i) h0 (out res h1) /\
    consistent h1 /\ skeleton h1 = skeleton h.
Proof.
  intros Hc Hs Hr Hn Hi.
  assert (Hr0 : (r < length h0)%nat).
  { rewrite <- skeleton_length, Hs, skeleton_length. done. }
  destruct (index_total h0 r n i Hc Hr0 Hn ltac:(by rewrite Hs))
    as (res & h1 & HR & Hrun & Hc1 & Hs1 & _).
  exists res, h1. rewrite <- Hs. split; [done|]. split; [done|]. split; [done | congruence].
Qed.

Lemma inj_at_heap h r n :
  consistent h -> unambiguous_heap h -> (r < length h)%nat -> 0 <= n ->
  inj_at (skeleton h) r n.
Proof.
  intros Hc Hu Hr Hn. apply (unambiguous_heap_skel h Hc) in Hu.
  apply (index_inj (skeleton h) (proj1 Hc) Hu (S (Z.to_nat n)) n Hn ltac:(lia)
           (length h) r).
  by apply consistent_grounded.
Qed.

Lemma Zsum_range_lt (f : Z -> Z) m n :
  (forall s, 0 <= f s) -> 0 <= m < n ->
  Zsum (map f (range m)) + f m <= Zsum (map f (range n)).
Proof.
  intros Hf Hm. rewrite <- (Zsum_range_S f m) by lia.
  apply Zsum_range_mono; [done | lia].
Qed.

Lemma Zsum_zero {A} (l : list A) : Zsum (map (fun _ => 0) l) = 0.
Proof. induction l as [|x l IH]; simpl; [done | by rewrite IH]. Qed.

(** The search of [Constructor.index] ends in the block that holds the
    index. *)
Lemma searchR_intro (f : Z -> Z) (k : nat) :
  forall e i1,
    0 <= i1 < f (e + Z.of_nat k) ->
    (forall s, e <= s < e + Z.of_nat k -> 0 <= f s) ->
    searchR f (i1 + Zsum (map (fun s => f (e + s)) (range (Z.of_nat k)))) e i1 (e + Z.of_nat k).
Proof.
  induction k as [|k IH]; intros e i1 Hi Hf.
  - change (Z.of_nat 0) with 0 in *. rewrite range_0. cbn [map Zsum fold_right].
    rewrite !Z.add_0_r in *. apply search_stop. lia.
  - replace (Z.of_nat (S k)) with (Z.of_nat k + 1) in * by lia.
    rewrite range_shift by lia. cbn [map Zsum fold_right].
    change (fold_right Z.add 0 ?l) with (Zsum l).
    rewrite Z.add_0_r. rewrite map_map.
    assert (Hrest : 0 <= Zsum (map (fun x => f (e + Z.succ x)) (range (Z.of_nat k)))).
    { apply Zsum_nonneg. intros s Hs. apply range_elem in Hs. apply Hf. lia. }
    apply search_next.
    + specialize (Hf e ltac:(lia)). lia.
    + replace (e + (Z.of_nat k + 1)) with (e + 1 + Z.of_nat k) in * by lia.
      replace (i1 + (f e + Zsum (map (fun x => f (e + Z.succ x)) (range (Z.of_nat k)))) - f e)
        with (i1 + Zsum (map (fun s => f (e + 1 + s)) (range (Z.of_nat k)))).
      * apply IH; [done|]. intros s Hs. apply Hf. lia.
      * rewrite (Zsum_ext (fun x => f (e + Z.succ x)) (fun s => f (e + 1 + s))); [lia|].
        intros s _. f_equal. lia.
Qed.

(** ** Heaps built through the constructors *)

Lemma forallb_eq {A} (f g : A -> bool) l :
  (forall x, f x = g x) -> forallb f l = forallb g l.
Proof. intros H. induction l as [|x l IH]; simpl; [done|]. by rewrite H, IH. Qed.

Lemma grounded_app sk sk' d r :
  grounded sk d r = true -> grounded (sk ++ sk') d r = true.
Proof.
  revert r. induction d as [|d IH]; intros r H; [done|].
  cbn [grounded] in *. destruct (sk !! r) as [s|] eqn:Hs; [|done].
  rewrite (lookup_app_l_Some _ _ _ _ Hs).
  destruct s as [| |con e|con enums|]; try done; [by apply IH|].
  apply andb_true_iff in H as [H1 H2]. apply andb_true_iff. split; [done|].
  apply forallb_forall. intros e He. apply IH.
  by apply (proj1 (forallb_forall _ _) H2).
Qed.

Lemma grounded_addcon sk e constructors constructors' d r :
  sk !! e = Some (SEnum constructors) ->
  grounded (<[e := SEnum constructors']> sk) d r = grounded sk d r.
Proof.
  intros He. revert r. induction d as [|d IH]; intros r; [done|].
  cbn [grounded]. destruct (decide (r = e)) as [->|Hne].
  - rewrite list_lookup_insert_eq by (by apply lookup_lt_Some in He). by rewrite He.
  - rewrite list_lookup_insert_ne by done.
    destruct (sk !! r) as [[| |con e'|con enums|]|]; try done.
    f_equal. apply forallb_eq. intros; apply IH.
Qed.

Lemma wf_skel_alt sk :
  wf_skel sk = true <->
  (forall r, (r < length sk)%nat -> grounded sk (length sk) r = true) /\
  (forall r constructors c,
     sk !! r = Some (SEnum constructors) -> c ∈ constructors -> (c < length sk)%nat).
Proof.
  unfold wf_skel. rewrite andb_true_iff, !forallb_forall. split.
  - intros [Hg Hcl]. split.
    + intros r Hr. apply Hg. apply in_seq. lia.
    + intros r constructors c Hr Hc.
      apply list_elem_of_lookup_2, list_elem_of_In in Hr.
      specialize (Hcl _ Hr). simpl in Hcl.
      apply Nat.ltb_lt. apply (proj1 (forallb_forall _ _) Hcl). by apply list_elem_of_In.
  - intros [Hg Hcl]. split.
    + intros r Hr. apply in_seq in Hr. apply Hg. lia.
    + intros s Hs. apply list_elem_of_In, list_elem_of_lookup in Hs as [r Hr].
      destruct s as [constructors| | | |]; try done. simpl.
      apply forallb_forall. intros c Hc. apply Nat.ltb_lt.
      apply (Hcl r constructors c Hr). by apply list_elem_of_In.
Qed.

(** A new object that refers to existing objects keeps the structure
    well-formed. *)
Lemma wf_skel_snoc sk s :
  wf_skel sk = true ->
  match s with
  | SEnum constructors => forall c, c ∈ constructors -> (c < length sk)%nat
  | SConstructor1 _ e => (e < length sk)%nat
  | SConstructor _ enums => enums <> [] /\ forall e, e ∈ enums -> (e < length sk)%nat
  | _ => True
  end ->
  wf_skel (sk ++ [s]) = true.
Proof.
  intros Hwf Hs. apply wf_skel_alt in Hwf as [Hg Hcl]. apply wf_skel_alt.
  rewrite length_app. simpl. replace (length sk + 1)%nat with (S (length sk)) by lia.
  assert (Hold : forall r, (r < length sk)%nat -> grounded (sk ++ [s]) (length sk) r = true).
  { intros r Hr. apply grounded_app. by apply Hg. }
  split.
  - intros r Hr. destruct (decide (r = length sk)) as [->|Hne].
    + cbn [grounded]. rewrite lookup_app_r by lia. rewrite Nat.sub_diag. simpl.
      destruct s as [| |con e|con enums|]; try done; [by apply Hold|].
      destruct Hs as [Hne Hs]. apply andb_true_iff. split.
      * by destruct enums.
      * apply forallb_forall. intros e He. apply Hold, Hs. by apply list_elem_of_In.
    + apply (grounded_mono _ (length sk)); [apply Hold; lia | lia].
  - intros r constructors c Hr Hc. destruct (decide (r = length sk)) as [->|Hne].
    + rewrite lookup_app_r in Hr by lia. rewrite Nat.sub_diag in Hr. simpl in Hr.
      injection Hr as ->. specialize (Hs c Hc). lia.
    + rewrite lookup_app_l in Hr.
      * specialize (Hcl r constructors c Hr Hc). lia.
      * apply lookup_lt_Some in Hr. rewrite length_app in Hr. simpl in Hr. lia.
Qed.

Lemma wf_skel_addcon sk e constructors c :
  wf_skel sk = true -> sk !! e = Some (SEnum constructors) -> (c < length sk)%nat ->
  wf_skel (<[e := SEnum (constructors ++ [c])]> sk) = true.
Proof.
  intros Hwf He Hc. apply wf_skel_alt in Hwf as [Hg Hcl]. apply wf_skel_alt.
  rewrite length_insert. split.
  - intros r Hr. rewrite (grounded_addcon _ _ _ _ _ _ He). by apply Hg.
  - intros r constructors' c' Hr Hc'. destruct (decide (r = e)) as [->|Hne].
    + rewrite list_lookup_insert_eq in Hr by (by apply lookup_lt_Some in He).
      injection Hr as <-. apply elem_of_app in Hc' as [Hc'|Hc'].
      * by apply (Hcl e constructors).
      * apply list_elem_of_singleton in Hc'. by subst.
    + rewrite list_lookup_insert_ne in Hr by done. by apply (Hcl r constructors').
Qed.

Lemma fresh_Forall h : fresh h = true <-> Forall (fun o => fresh_obj o = true) h.
Proof.
  unfold fresh. rewrite forallb_forall, Forall_forall.
  split; intros H o Ho; apply H; by apply list_elem_of_In.
Qed.

Lemma skeleton_app h h' : skeleton (h ++ h') = skeleton h ++ skeleton h'.
Proof. apply map_app. Qed.

Lemma built_fresh_wf h : built h -> fresh h = true /\ wf_skel (skeleton h) = true.
Proof.
  induction 1 as [|h _ [Hf Hwf]|h _ [Hf Hwf]|h con enums _ [Hf Hwf] He|h e c _ [Hf Hwf] Hc].
  - done.
  - unfold new_Enum, alloc. simpl. split.
    + apply fresh_Forall, Forall_app. split; [by apply fresh_Forall|]. by repeat constructor.
    + rewrite skeleton_app. apply wf_skel_snoc; [done|].
      simpl. intros c Hc. by apply elem_of_nil in Hc.
  - unfold new_IntEnum, alloc. simpl. split.
    + apply fresh_Forall, Forall_app. split; [by apply fresh_Forall|]. by repeat constructor.
    + rewrite skeleton_app. by apply wf_skel_snoc.
  - unfold new_Constructor, alloc.
    destruct enums as [|e0 [|e1 enums]]; simpl; (split;
      [ apply fresh_Forall, Forall_app; split; [by apply fresh_Forall|];
        constructor; [|constructor]
      | rewrite skeleton_app; apply wf_skel_snoc; [done|]; simpl ]).
    + done.
    + done.
    + done.
    + rewrite skeleton_length. apply He. apply list_elem_of_here.
    + simpl. rewrite length_map, Nat.eqb_refl. simpl.
      apply forallb_forall. intros row Hrow. apply in_map_iff in Hrow as (? & <- & _). done.
    + split; [done|]. intros e Hin. rewrite skeleton_length. by apply He.
  - unfold addcon. destruct (h !! e) as [[constructors cards| | | |]|] eqn:Hh; try done.
    split.
    + apply fresh_Forall, Forall_insert; [by apply fresh_Forall | done].
    + unfold skeleton. change (map skel_of ?l) with (skel_of <$> l).
      rewrite list_fmap_insert. simpl.
      apply (wf_skel_addcon _ _ constructors); [done | | by rewrite skeleton_length].
      apply (heap_skel _ _ _ Hh).
Qed.

Lemma built_consistent h : built h -> consistent h.
Proof. intros H. destruct (built_fresh_wf h H). by apply fresh_consistent. Qed.

Lemma addcon_middle h constructors cards c rest :
  addcon (length h) c (h ++ Enum constructors cards :: rest) =
  h ++ Enum (constructors ++ [c]) [0] :: rest.
Proof.
  unfold addcon. rewrite list_lookup_middle by done.
  rewrite <- (Nat.add_0_r (length h)) at 1. by rewrite insert_app_r.
Qed.

(** What [elist(elems)] adds to the heap: the [Enum] of lists, the nullary
    constructor of the empty list and the constructor [app] over [elems]
    and the [Enum] itself. *)
Lemma elist_heap elems h :
  elist elems h =
    (length h,
     h ++ [Enum [S (length h); S (S (length h))] [0];
           Constructor0 nil_builder;
           Constructor app [elems; length h] 0 [[]; []]]).
Proof.
  unfold elist, new_Enum, new_Constructor, alloc.
  cbn [fst snd]. rewrite <- !app_assoc. cbn [Datatypes.app].
  rewrite length_app. cbn [length]. rewrite addcon_middle. cbn [Datatypes.app].
  rewrite <- !app_assoc. cbn [Datatypes.app map].
  rewrite length_app. cbn [length]. rewrite addcon_middle. cbn [Datatypes.app].
  by replace (length h + 1)%nat with (S (length h)) by lia;
     replace (length h + 2)%nat with (S (S (length h))) by lia.
Qed.

Lemma elist_built elems h :
  built h -> (elems < length h)%nat -> built (snd (elist elems h)).
Proof.
  intros Hb He. unfold elist, new_Enum, new_Constructor, alloc. simpl.
  apply built_addcon.
  - apply (built_Constructor _ app [elems; length h]).
    + apply built_addcon.
      * apply (built_Constructor _ nil_builder []); [by apply built_Enum|].
        intros e H. by apply elem_of_nil in H.
      * rewrite !length_app. simpl. lia.
    + intros e H. unfold addcon.
      assert (Hlen : (e < length h + 1 + 1)%nat).
      { apply elem_of_cons in H as [->|H]; [lia|].
        apply list_elem_of_singleton in H. lia. }
      destruct (_ !! length h) as [[]|]; rewrite ?length_insert, !length_app; simpl; lia.
  - unfold addcon. destruct (_ !! length h) as [[]|];
      rewrite ?length_app, ?length_insert, ?length_app; simpl; lia.
Qed.

Lemma built_nat_list : built nat_list_heap.
Proof. apply elist_built; [apply (built_IntEnum [] built_empty) | simpl; lia]. Qed.

(** X1: a heap built by the constructors and [addcon] has no dangling
    reference, each of its cycles of references passes through an [Enum],
    its tables are empty, and on it [card(n)] returns and [index(n, i)]
    ends for every [n >= 0] and [0 <= i < card(n)]. *)
Theorem built_well_formed h :
  built h ->
  closed_refs (skeleton h) /\ cycle_free (skeleton h) /\ fresh h = true /\
  forall r n, (r < length h)%nat -> 0 <= n ->
    exists c h1,
      Runs (fun f => card f r n) h (Ret c h1) /\
      forall i, 0 <= i < c -> exists res h2, Runs (fun f => index f r n i) h (out res h2).
Proof.
  intros Hb. destruct (built_fresh_wf h Hb) as [Hf Hwf].
  pose proof (fresh_consistent h Hwf Hf) as Hc.
  apply wf_skel_iff in Hwf as [Hcl Hcf]. split; [done|]. split; [done|]. split; [done|].
  intros r n Hr Hn. destruct (card_total h r n Hc Hr Hn) as (h1 & Hrun & _).
  exists (cardD (skeleton h) r n), h1. split; [done|]. intros i Hi.
  destruct (index_total h r n i Hc Hr Hn Hi) as (res & h2 & _ & Hrun' & _).
  by exists res, h2.
Qed.

Lemma built_well_formed_witness :
  closed_refs (skeleton nat_list_heap) /\ cycle_free (skeleton nat_list_heap) /\
  fresh nat_list_heap = true /\
  forall r n, (r < length nat_list_heap)%nat -> 0 <= n ->
    exists c h1,
      Runs (fun f => card f r n) nat_list_heap (Ret c h1) /\
      forall i, 0 <= i < c ->
        exists res h2, Runs (fun f => index f r n i) nat_list_heap (out res h2).
Proof. apply (built_well_formed nat_list_heap). apply built_nat_list. Defined.

(** ** Queries do not change answers *)

Lemma obj_extends_refl o : obj_extends o o.
Proof.
  by destruct o.
Qed.

Lemma extends_refl h : extends h h.
Proof. apply Forall_Forall2_diag, Forall_true, obj_extends_refl. Qed.

Lemma obj_extends_trans o1 o2 o3 : obj_extends o1 o2 -> obj_extends o2 o3 -> obj_extends o1 o3.
Proof.
  destruct o1, o2; simpl; try done; try (by intros ->).
  - intros [-> H1]. destruct o3; simpl; try done. intros [-> H2]. split; [done|].
    by etrans.
  - intros (-> & -> & Hn & H1). destruct o3; simpl; try done.
    intros (-> & -> & Hn' & H2). split; [done|]. split; [done|]. split; [lia|].
    by etrans.
Qed.

Lemma extends_trans h1 h2 h3 : extends h1 h2 -> extends h2 h3 -> extends h1 h3.
Proof.
  unfold extends. intros H1. revert h3.
  induction H1 as [|o1 o2 h1 h2 Ho _ IH]; intros h3 H2; inversion H2; subst; constructor.
  - by apply (obj_extends_trans o1 o2).
  - by apply IH.
Qed.

Lemma queried_consistent h h' :
  consistent h -> queried h h' ->
  consistent h' /\ skeleton h' = skeleton h /\ extends h h'.
Proof.
  intros Hc. induction 1 as [|h1 r n v h2 _ (Hc1 & Hs1 & He1) Hr Hn Hrun
                              |h1 r n c hc i res h2 _ (Hc1 & Hs1 & He1) Hr Hn Hcard Hi Hrun].
  - split; [done|]. split; [done | apply extends_refl].
  - assert (Hr1 : (r < length h1)%nat).
    { rewrite <- skeleton_length, Hs1, skeleton_length. done. }
    destruct (card_total h1 r n Hc1 Hr1 Hn) as (h2' & Hrun' & Hc2 & Hs2 & He2 & _).
    pose proof (Runs_det _ _ _ _ Hrun Hrun') as E. injection E as _ ->.
    split; [done|]. split; [congruence | by apply (extends_trans h h1)].
  - assert (Hr1 : (r < length h1)%nat).
    { rewrite <- skeleton_length, Hs1, skeleton_length. done. }
    rewrite (card_value h1 r n c hc Hc1 Hr1 Hn Hcard) in Hi.
    destruct (index_total h1 r n i Hc1 Hr1 Hn Hi) as (res' & h2' & _ & Hrun' & Hc2 & Hs2 & He2).
    pose proof (Runs_det _ _ _ _ Hrun Hrun') as E. apply out_inj in E as [_ ->].
    split; [done|]. split; [congruence | by apply (extends_trans h h1)].
Qed.

(** X2: calls of [card] and [index] within their contract do not change
    what later calls return: after any number of them the tables have
    only grown, and [card(n)] and [index(n, i)] end as they do on the
    heap before these calls. *)
Theorem queries_transparent h h' r n :
  consistent h -> queried h h' -> (r < length h)%nat -> 0 <= n ->
  extends h h' /\
  exists c h1 h1',
    Runs (fun f => card f r n) h (Ret c h1) /\
    Runs (fun f => card f r n) h' (Ret c h1') /\
    forall i, 0 <= i < c ->
      exists res h2 h2',
        Runs (fun f => index f r n i) h (out res h2) /\
        Runs (fun f => index f r n i) h' (out res h2').
Proof.
  intros Hc Hq Hr Hn. destruct (queried_consistent h h' Hc Hq) as (Hc' & Hs' & He').
  split; [done|].
  destruct (card_run h h r n Hc eq_refl Hr Hn) as (h1 & Hrun & _).
  destruct (card_run h h' r n Hc' Hs' Hr Hn) as (h1' & Hrun' & _).
  exists (cardD (skeleton h) r n), h1, h1'. split; [done|]. split; [done|].
  intros i Hi.
  destruct (index_run h h r n i Hc eq_refl Hr Hn Hi) as (res & h2 & HR & Hi1 & _).
  destruct (index_run h h' r n i Hc' Hs' Hr Hn Hi) as (res' & h2' & HR' & Hi2 & _).
  rewrite (IndexR_det _ _ _ _ _ _ HR' HR) in Hi2. by exists res, h2, h2'.
Qed.

Lemma nat_list_queried_heap : queried nat_list_heap nat_list_queried.
Proof.
  eapply (queried_index nat_list_heap nat_list_heap nat_list 4 2 _ 1 (Some (VList [VInt 1]))).
  - apply queried_none.
  - vm_compute. lia.
  - lia.
  - apply (card_fuel 30); [vm_compute; reflexivity | done].
  - lia.
  - apply (index_fuel 30); [by vm_compute | done].
Qed.

Lemma queries_transparent_witness :
  extends nat_list_heap nat_list_queried /\
  exists c h1 h1',
    Runs (fun f => card f nat_list 5) nat_list_heap (Ret c h1) /\
    Runs (fun f => card f nat_list 5) nat_list_queried (Ret c h1') /\
    forall i, 0 <= i < c ->
      exists res h2 h2',
        Runs (fun f => index f nat_list 5 i) nat_list_heap (out res h2) /\
        Runs (fun f => index f nat_list 5 i) nat_list_queried (out res h2').
Proof.
  apply (queries_transparent nat_list_heap nat_list_queried nat_list 5 nat_list_consistent
           nat_list_queried_heap).
  - vm_compute. lia.
  - lia.
Defined.

(** ** [addcon] resets one table only *)

(** X19: [e.addcon(c)] resets the table of [e] and of no other object: an
    [Enum] [p] other than [e] that has memoized size [n] returns after
    [e.addcon(c)] the value it returned before, whatever [c] adds to the
    values counted by [p]; the tables are not touched by the call. *)
Theorem addcon_keeps_memoized h e c p constructors cards n :
  consistent h -> h !! p = Some (Enum constructors cards) -> p <> e ->
  1 <= n < len cards ->
  exists v,
    Runs (fun f => card f p n) h (Ret v h) /\
    Runs (fun f => card f p n) (addcon e c h) (Ret v (addcon e c h)).
Proof.
  intros Hc Hp Hne Hn.
  assert (Hp' : addcon e c h !! p = Some (Enum constructors cards)).
  { unfold addcon. destruct (h !! e) as [[]|]; try done.
    by rewrite list_lookup_insert_ne. }
  assert (Hstep : forall h0, h0 !! p = Some (Enum constructors cards) ->
            forall f, card (2 + f) p n h0 = getitem cards n h0).
  { intros h0 H0 f. cbn [Nat.add card Enum_card_while]. unfold bind at 1.
    rewrite (get_obj_eq _ _ _ H0). destruct (Z.leb_spec n 0); [lia|].
    unfold bind. rewrite (get_obj_eq _ _ _ H0).
    destruct (Z.geb_spec n (len cards)); [lia | done]. }
  destruct (py_getitem cards n) as [v|] eqn:Hv.
  2:{ unfold py_getitem in Hv. destruct (Z.ltb_spec n 0); [lia|].
      destruct (Z.leb_spec 0 n); [|lia]. destruct (Z.ltb_spec n (len cards)); [|lia].
      simpl in Hv. apply lookup_ge_None in Hv. unfold len in *. lia. }
  exists v. split; apply (Runs_from _ 2); try done; intros f; rewrite Hstep by done;
    unfold getitem; by rewrite Hv.
Qed.

(** A parent [Enum] that memoized size 2 before its child got an
    alternative. *)
Lemma addcon_keeps_memoized_witness :
  exists v,
    Runs (fun f => card f 1%nat 2) nested_queried (Ret v nested_queried) /\
    Runs (fun f => card f 1%nat 2) stale_heap (Ret v stale_heap).
Proof.
  apply (addcon_keeps_memoized nested_queried 0%nat 2%nat 1%nat [0%nat] [0; 0; 0] 2).
  - eapply (queried_consistent nested_heap); [by apply fresh_consistent|].
    eapply (queried_card nested_heap nested_heap 1%nat 2 0); [apply queried_none | | | ].
    + vm_compute. lia.
    + lia.
    + apply (card_fuel 10); [by vm_compute | done].
  - by vm_compute.
  - done.
  - by vm_compute.
Defined.

(** ** Edge cases of [card] *)

(** X3: within its contract [card(n)] never returns a negative number. *)
Theorem card_nonneg h r n v hv :
  consistent h -> (r < length h)%nat -> 0 <= n ->
  Runs (fun f => card f r n) h (Ret v hv) -> 0 <= v.
Proof.
  intros Hc Hr Hn Hrun. rewrite (card_value h r n v hv Hc Hr Hn Hrun).
  apply cardD_nonneg.
Qed.

Lemma card_nonneg_witness : 0 <= 2.
Proof.
  refine (card_nonneg nat_list_heap nat_list 4 2 _ nat_list_consistent _ _ _).
  - vm_compute. lia.
  - lia.
  - apply (Runs_from _ 10); [done|]. intros f. reflexivity.
Defined.

(** X4: an [Enum] without alternatives has no value: [card(n)] returns 0
    for every [n], and [index(n, i)] raises [ValueError] for every [n]
    and [i]. *)
Theorem Enum_empty h r cards n i :
  consistent h -> h !! r = Some (Enum [] cards) ->
  (exists h', Runs (fun f => card f r n) h (Ret 0 h')) /\
  (forall f, index (S f) r n i h = Raise ValueError h).
Proof.
  intros Hc Hr. split.
  - destruct (Z.le_gt_cases n 0) as [Hn|Hn].
    + exists h. apply (Runs_from _ 1); [done|]. intros f.
      apply (card_Enum_nonpos h r [] cards n f Hr Hn).
    + destruct (card_total h r n Hc ltac:(by apply lookup_lt_Some in Hr) ltac:(lia))
        as (h' & Hrun & _).
      rewrite (cardD_Enum _ _ [] n (heap_skel _ _ _ Hr)) in Hrun.
      destruct (Z.leb_spec n 0); [lia|]. by exists h'.
  - intros f. cbn [index]. unfold bind. by rewrite (get_obj_eq _ _ _ Hr).
Qed.

Lemma Enum_empty_witness :
  (exists h', Runs (fun f => card f 0%nat 3) [Enum [] [0]] (Ret 0 h')) /\
  (forall f, index (S f) 0%nat 3 0 [Enum [] [0]] = Raise ValueError [Enum [] [0]]).
Proof. apply (Enum_empty [Enum [] [0]] 0%nat [0] 3 0); [by apply fresh_consistent | done]. Defined.

(** X5: a negative size on a [Constructor] with a matrix is read by
    [self.cs[0][n]] as a position from the end: with [next] sizes
    memoized, [card(n)] returns what [card(next + n)] returns when
    [-next <= n < 0], and raises [IndexError] when [n < -next]; the
    tables stay as they are. *)
Theorem Constructor_card_negative h r con enums next cs n :
  consistent h -> h !! r = Some (Constructor con enums next cs) -> n < 0 ->
  (n < - next -> forall f, card (S (S f)) r n h = Raise IndexError h) /\
  (- next <= n ->
   exists v, Runs (fun f => card f r (next + n)) h (Ret v h) /\
             forall f, card (S (S f)) r n h = Ret v h).
Proof.
  intros Hc Hr Hn.
  pose proof (heap_skel _ _ _ Hr) as Hsk. simpl in Hsk.
  destruct (proj2 Hc r _ Hr) as [Hnext Hcs].
  assert (Har : (1 <= length enums)%nat).
  { apply (grounded_Constructor_arity (skeleton h) (length h) r con); [|done].
    apply consistent_grounded; [done | by apply lookup_lt_Some in Hr]. }
  assert (Hstep : forall f, card (S (S f)) r n h = get_cs_at r 0 n h).
  { intros f. cbn [card expand]. unfold bind at 1. rewrite (get_obj_eq _ _ _ Hr).
    unfold bind at 1. unfold bind at 1. rewrite (get_obj_eq _ _ _ Hr).
    destruct (Z.leb_spec next n); [lia | done]. }
  assert (Hrow : cs !! 0%nat = Some (map (table (skeleton h) enums 0) (range next))).
  { rewrite Hcs. by apply cs_at_lookup. }
  assert (Hget : get_cs_at r 0 n h =
                 getitem (map (table (skeleton h) enums 0) (range next)) n h).
  { unfold get_cs_at, get_cs, bind. rewrite (get_obj_eq _ _ _ Hr). unfold ret.
    unfold getitem at 1. rewrite py_getitem_nonneg.
    - change (Z.to_nat 0) with 0%nat. by rewrite Hrow.
    - apply lookup_lt_Some in Hrow. unfold len. lia. }
  assert (Hlen : len (map (table (skeleton h) enums 0) (range next)) = next).
  { rewrite len_map. by apply len_range. }
  split.
  - intros Hlow f. rewrite Hstep, Hget. unfold getitem, py_getitem. rewrite Hlen.
    destruct (Z.ltb_spec n 0); [|lia].
    destruct (Z.leb_spec 0 (next + n)); [lia | done].
  - intros Hhigh. exists (cardD (skeleton h) r (next + n)). split.
    + apply (memoized_card (skeleton h) [] h 1 r); [apply Hc | done | | | lia].
      * by apply consistent_InvB.
      * simpl. rewrite Hr. lia.
    + intros f. rewrite Hstep, Hget. unfold getitem, py_getitem. rewrite Hlen.
      destruct (Z.ltb_spec n 0); [|lia].
      destruct (Z.leb_spec 0 (next + n)); [|lia].
      destruct (Z.ltb_spec (next + n) next); [|lia]. simpl.
      rewrite list_lookup_fmap.
      rewrite (range_lookup next (next + n)) by lia. simpl.
      unfold table. rewrite drop_0.
      by rewrite <- (cardD_Constructor _ _ _ _ _ (proj1 Hc) Hsk).
Qed.

Lemma int_pair_queried_heap : queried int_pair_heap int_pair_queried.
Proof.
  eapply (queried_card int_pair_heap int_pair_heap int_pair 3 4).
  - apply queried_none.
  - vm_compute. lia.
  - lia.
  - apply (card_fuel 30); [by vm_compute | done].
Qed.

(** After [card(3)], four sizes are memoized: [card(-1)] returns what
    [card(3)] returns. *)
Lemma Constructor_card_negative_witness :
  (-1 < - 4 -> forall f, card (S (S f)) int_pair (-1) int_pair_queried =
                           Raise IndexError int_pair_queried) /\
  (- 4 <= -1 ->
   exists v, Runs (fun f => card f int_pair (4 + -1)) int_pair_queried (Ret v int_pair_queried) /\
             forall f, card (S (S f)) int_pair (-1) int_pair_queried = Ret v int_pair_queried).
Proof.
  apply (Constructor_card_negative int_pair_queried int_pair pair_builder [0%nat; 1%nat] 4
           [[1; 2; 3; 4]; [1; 1; 1; 1]]).
  - apply (queried_consistent int_pair_heap); [apply int_pair_consistent|].
    apply int_pair_queried_heap.
  - by vm_compute.
  - lia.
Defined.

(** ** Which alternative, which components *)

(** X6: [Enum.index(n, i)] lays the values of the alternatives out one
    after the other: with [0 <= i < card(n)] it ends as [index(n-1, i')]
    of alternative [p] does, where [i'] is [i] less the cardinalities at
    size [n-1] of the alternatives before [p], and [i' < card(n-1)] of
    alternative [p]. *)
Theorem Enum_index_alternative h r constructors cards n (V : ref -> Z) i :
  consistent h -> h !! r = Some (Enum constructors cards) -> 1 <= n ->
  (forall c, c ∈ constructors ->
     exists hc, Runs (fun f => card f c (n - 1)) h (Ret (V c) hc)) ->
  0 <= i < Zsum (map V constructors) ->
  exists (p : nat) (c : ref),
    constructors !! p = Some c /\
    0 <= i - Zsum (map V (take p constructors)) < V c /\
    exists res h1 h2,
      Runs (fun f => index f c (n - 1) (i - Zsum (map V (take p constructors)))) h (out res h1) /\
      Runs (fun f => index f r n i) h (out res h2).
Proof.
  intros Hc Hr Hn HV Hi.
  assert (Hlt : (r < length h)%nat) by (by apply lookup_lt_Some in Hr).
  pose proof (heap_skel _ _ _ Hr) as Hsk. simpl in Hsk.
  assert (Hin : forall c, c ∈ constructors -> (c < length h)%nat).
  { intros c Hcin. rewrite <- skeleton_length.
    by apply (wf_closed _ r constructors c (proj1 Hc) Hsk). }
  assert (HVc : forall c, c ∈ constructors -> V c = cardD (skeleton h) c (n - 1)).
  { intros c Hcin. destruct (HV c Hcin) as [hc Hrun].
    apply (card_value h c (n - 1) _ hc Hc (Hin c Hcin) ltac:(lia) Hrun). }
  assert (HS : forall l, l ⊆ constructors ->
            Zsum (map V l) = Zsum (map (fun c => cardD (skeleton h) c (n - 1)) l)).
  { intros l Hl. apply Zsum_ext. intros c Hcin. apply HVc. by apply Hl. }
  rewrite (HS constructors) in Hi by done.
  assert (Hcard : cardD (skeleton h) r n =
                  Zsum (map (fun c => cardD (skeleton h) c (n - 1)) constructors)).
  { rewrite (cardD_Enum _ _ _ _ Hsk). destruct (Z.leb_spec n 0); [lia | done]. }
  destruct (index_total h r n i Hc Hlt ltac:(lia) ltac:(lia))
    as (res & h2 & HR & Hrun & _).
  destruct (IndexR_Enum_inv _ _ _ _ _ _ Hsk HR) as (c & i' & Hpick & HRc).
  destruct (pick_spec _ _ _ _ _ (proj1 Hi) Hpick) as (p & Hp & Ei & Hi').
  assert (Hcin : c ∈ constructors) by (by eapply list_elem_of_lookup_2).
  rewrite <- (HS (take p constructors)) in Ei.
  2:{ apply subseteq_take. }
  exists p, c. split; [done|].
  replace (i - Zsum (map V (take p constructors))) with i' by lia. rewrite (HVc c Hcin). split; [done|].
  destruct (index_value h c (n - 1) i' res Hc (Hin c Hcin) ltac:(lia) Hi' HRc) as [h1 Hrun1].
  by exists res, h1, h2.
Qed.

Lemma Enum_index_alternative_witness :
  exists (p : nat) (c : ref),
    [2%nat; 3%nat] !! p = Some c /\
    0 <= 1 - Zsum (map (fun c => cardD (skeleton nat_list_heap) c (4 - 1))
                       (take p [2%nat; 3%nat]))
      < cardD (skeleton nat_list_heap) c (4 - 1) /\
    exists res h1 h2,
      Runs (fun f => index f c (4 - 1)
                       (1 - Zsum (map (fun c => cardD (skeleton nat_list_heap) c (4 - 1))
                                      (take p [2%nat; 3%nat]))))
           nat_list_heap (out res h1) /\
      Runs (fun f => index f nat_list 4 1) nat_list_heap (out res h2).
Proof.
  apply (Enum_index_alternative nat_list_heap nat_list [2%nat; 3%nat] [0] 4
           (fun c => cardD (skeleton nat_list_heap) c (4 - 1)) 1 nat_list_consistent).
  - reflexivity.
  - lia.
  - intros c Hc. apply card_returns; [apply nat_list_consistent | | lia].
    apply elem_of_cons in Hc as [->|Hc]; [vm_compute; lia|].
    apply list_elem_of_singleton in Hc as ->. vm_compute. lia.
  - by vm_compute.
Defined.

(** X7: [Constructor.index(n, i)] on two components [a] and [b] orders the
    pairs by the size [s] of the first component; within the block of [s]
    the index of the first component varies fastest.  So
    [i = (sum over t < s of a.card(t) * b.card(n-t)) + ei + a.card(s) * q],
    the first component is [a.index(s, ei)] and, unless that raises, the
    second is [b.index(n-s, q)]. *)
Theorem Constructor_index_pair h r con a b next cs n (Va Vb : Z -> Z) i :
  consistent h -> h !! r = Some (Constructor con [a; b] next cs) -> 0 <= n ->
  (forall s, 0 <= s <= n -> exists hs, Runs (fun f => card f a s) h (Ret (Va s) hs)) ->
  (forall s, 0 <= s <= n -> exists hs, Runs (fun f => card f b s) h (Ret (Vb s) hs)) ->
  0 <= i < Zsum (map (fun s => Va s * Vb (n - s)) (range (n + 1))) ->
  exists s ei q,
    0 <= s <= n /\ 0 <= ei < Va s /\ 0 <= q < Vb (n - s) /\
    i = Zsum (map (fun t => Va t * Vb (n - t)) (range s)) + ei + Va s * q /\
    exists ra h1,
      Runs (fun f => index f a s ei) h (out ra h1) /\
      match ra with
      | None => exists h3, Runs (fun f => index f r n i) h (Raise TypeError h3)
      | Some va =>
          exists rb h2 h3,
            Runs (fun f => index f b (n - s) q) h (out rb h2) /\
            Runs (fun f => index f r n i) h (out (rb ≫= fun vb => con [va; vb]) h3)
      end.
Proof.
  intros Hc Hr Hn HVa HVb Hi.
  assert (Hlt : (r < length h)%nat) by (by apply lookup_lt_Some in Hr).
  pose proof (heap_skel _ _ _ Hr) as Hsk. simpl in Hsk.
  set (sk := skeleton h) in *.
  assert (Hab : (a < length h)%nat /\ (b < length h)%nat).
  { pose proof (proj1 (wf_skel_iff sk) (proj1 Hc)) as [Hcl _].
    specialize (Hcl r _ Hsk). simpl in Hcl. destruct Hcl as [_ Hcl].
    unfold sk in Hcl. rewrite skeleton_length in Hcl.
    split; apply Hcl; [apply list_elem_of_here | apply list_elem_of_further, list_elem_of_here]. }
  destruct Hab as [Ha Hb].
  assert (EVa : forall s, 0 <= s <= n -> Va s = cardD sk a s).
  { intros s Hs. destruct (HVa s Hs) as [hs Hrun].
    apply (card_value h a s _ hs Hc Ha ltac:(lia) Hrun). }
  assert (EVb : forall s, 0 <= s <= n -> Vb s = cardD sk b s).
  { intros s Hs. destruct (HVb s Hs) as [hs Hrun].
    apply (card_value h b s _ hs Hc Hb ltac:(lia) Hrun). }
  assert (HS : forall m, 0 <= m <= n + 1 ->
            Zsum (map (fun s => Va s * Vb (n - s)) (range m)) =
            Zsum (map (block sk a [b] n) (range m))).
  { intros m Hm. apply Zsum_ext. intros s Hs. apply range_elem in Hs.
    unfold block. simpl. rewrite EVa, EVb by lia. done. }
  assert (Hcard : cardD sk r n = Zsum (map (block sk a [b] n) (range (n + 1)))).
  { rewrite (cardD_Constructor _ _ _ _ _ (proj1 Hc) Hsk).
    by rewrite prodcard_block_sum. }
  rewrite (HS (n + 1)) in Hi by lia.
  destruct (index_total h r n i Hc Hlt Hn ltac:(fold sk; lia)) as (res & h3 & HR & Hrun & _).
  fold sk in HR.
  destruct (IndexR_Constructor_inv _ _ _ _ _ _ _ Hsk HR) as (args & HD & ->).
  destruct (DecodeR_cons_bounds sk a [b] n i args ltac:(done) Hn) as
    (s & ei & q & ra & Hs & Hei & Hq & Ei & HRa & Hargs); [|done|].
  { rewrite prodcard_block_sum by done. exact Hi. }
  simpl in Hq. exists s, ei, q. rewrite (HS s) by lia.
  rewrite (EVa s), (EVb (n - s)) by lia.
  split; [done|]. split; [done|]. split; [done|]. split; [lia|].
  destruct (index_value h a s ei ra Hc Ha ltac:(lia) Hei HRa) as [h1 Hrun1].
  exists ra, h1. split; [done|]. destruct ra as [va|].
  - destruct Hargs as (args2 & HD2 & ->).
    destruct (DecodeR_last_inv _ _ _ _ _ HD2) as (rb & HRb & ->).
    destruct (index_value h b (n - s) q rb Hc Hb ltac:(lia) Hq HRb) as [h2 Hrun2].
    exists rb, h2, h3. split; [done|]. by destruct rb.
  - subst args. by exists h3.
Qed.

Lemma card_IntEnum_returns h r s :
  h !! r = Some IntEnum -> exists hs, Runs (fun f => card f r s) h (Ret 1 hs).
Proof.
  intros Hr. exists h. apply (Runs_from _ 1); [done|]. intros f.
  cbn [Nat.add card]. unfold bind. by rewrite (get_obj_eq _ _ _ Hr).
Qed.

Lemma Constructor_index_pair_witness :
  exists s ei q,
    0 <= s <= 3 /\ 0 <= ei < 1 /\ 0 <= q < 1 /\
    2 = Zsum (map (fun t => 1 * 1) (range s)) + ei + 1 * q /\
    exists ra h1,
      Runs (fun f => index f 0%nat s ei) int_pair_heap (out ra h1) /\
      match ra with
      | None => exists h3, Runs (fun f => index f int_pair 3 2) int_pair_heap (Raise TypeError h3)
      | Some va =>
          exists rb h2 h3,
            Runs (fun f => index f 1%nat (3 - s) q) int_pair_heap (out rb h2) /\
            Runs (fun f => index f int_pair 3 2) int_pair_heap
                 (out (rb ≫= fun vb => pair_builder [va; vb]) h3)
      end.
Proof.
  apply (Constructor_index_pair int_pair_heap int_pair pair_builder 0%nat 1%nat 0 [[]; []] 3
           (fun _ => 1) (fun _ => 1) 2 int_pair_consistent).
  - reflexivity.
  - lia.
  - intros s _. by apply card_IntEnum_returns.
  - intros s _. by apply card_IntEnum_returns.
  - by vm_compute.
Defined.

(** X8: on an unambiguous enumerator a value has one size and one index:
    when [index(n, i)] and [index(m, j)], both within the contract, return
    the same value, [n = m] and [i = j]. *)
Theorem value_size_index h r n m i j cn hn cm hm v hi hj :
  consistent h -> unambiguous_heap h -> (r < length h)%nat -> 0 <= n -> 0 <= m ->
  Runs (fun f => card f r n) h (Ret cn hn) -> Runs (fun f => card f r m) h (Ret cm hm) ->
  0 <= i < cn -> 0 <= j < cm ->
  Runs (fun f => index f r n i) h (Ret v hi) ->
  Runs (fun f => index f r m j) h (Ret v hj) ->
  n = m /\ i = j.
Proof.
  intros Hc Hu Hr Hn Hm Hcn Hcm Hi Hj Hruni Hrunj.
  rewrite (card_value h r n cn hn Hc Hr Hn Hcn) in Hi.
  rewrite (card_value h r m cm hm Hc Hr Hm Hcm) in Hj.
  destruct (index_total h r n i Hc Hr Hn Hi) as (ri & hi' & HRi & Hruni' & _).
  destruct (index_total h r m j Hc Hr Hm Hj) as (rj & hj' & HRj & Hrunj' & _).
  pose proof (Runs_det _ _ _ _ Hruni Hruni') as E. symmetry in E. apply out_Ret in E. subst ri.
  pose proof (Runs_det _ _ _ _ Hrunj Hrunj') as E. symmetry in E. apply out_Ret in E. subst rj.
  apply (inj_at_heap h r n Hc Hu Hr Hn m i j v Hm Hi Hj HRi HRj).
Qed.

Lemma value_size_index_witness : 4 = 4 /\ 1 = 1.
Proof.
  refine (value_size_index nat_list_heap nat_list 4 4 1 1 2 _ 2 _ (VList [VInt 1]) _ _
            nat_list_consistent nat_list_unambiguous _ _ _ _ _ _ _ _ _).
  - vm_compute. lia.
  - lia.
  - lia.
  - apply (Runs_from _ 10); [done|]. intros f. reflexivity.
  - apply (Runs_from _ 10); [done|]. intros f. reflexivity.
  - lia.
  - lia.
  - apply (Runs_from _ 10); [done|]. intros f. reflexivity.
  - apply (Runs_from _ 10); [done|]. intros f. reflexivity.
Defined.

(** ** The index without a size, in general *)

Lemma ix_while_run h r n :
  (r < length h)%nat -> 0 <= n ->
  forall (k : nat) h0 j,
    consistent h0 -> skeleton h0 = skeleton h -> Z.of_nat k <= n ->
    (forall m, n - Z.of_nat k <= m < n ->
       cardD (skeleton h) r m < j - Zsum (map (cardD (skeleton h) r) (range m))) ->
    j - Zsum (map (cardD (skeleton h) r) (range n)) <= cardD (skeleton h) r n ->
    exists h',
      Runs (fun f => ix_while f r (j - Zsum (map (cardD (skeleton h) r) (range (n - Z.of_nat k))))
                              (n - Z.of_nat k)) h0
           (Ret (j - Zsum (map (cardD (skeleton h) r) (range n)), n) h') /\
      consistent h' /\ skeleton h' = skeleton h.
Proof.
  intros Hr Hn. set (C := cardD (skeleton h) r).
  induction k as [|k IH]; intros h0 j Hc Hs Hk Hlt Hstop.
  - replace (n - Z.of_nat 0) with n by lia.
    destruct (card_run h h0 r n Hc Hs Hr Hn) as (h1 & Hrun & Hc1 & Hs1).
    exists h1. split; [|done]. apply Runs_S. cbn [ix_while].
    apply (Runs_bind (fun f => card f r n) (fun f c => if _ >? c then _ else _) _ _ _ _ Hrun).
    fold C. destruct (Z.gtb_spec (j - Zsum (map C (range n))) (C n)) as [Hgt|_]; [lia|].
    apply Runs_ret.
  - set (m := n - Z.of_nat (S k)). assert (Hm : 0 <= m < n) by lia.
    destruct (card_run h h0 r m Hc Hs Hr (proj1 Hm)) as (h1 & Hrun1 & Hc1 & Hs1).
    destruct (card_run h h1 r m Hc1 Hs1 Hr (proj1 Hm)) as (h2 & Hrun2 & Hc2 & Hs2).
    destruct (IH h2 j Hc2 Hs2 ltac:(lia)) as (h' & Hrun & Hc' & Hs'); [intros; apply Hlt; lia | done |].
    exists h'. split; [|done]. apply Runs_S. cbn [ix_while].
    apply (Runs_bind (fun f => card f r m) (fun f c => if _ >? c then _ else _) _ _ _ _ Hrun1).
    fold C. destruct (Z.gtb_spec (j - Zsum (map C (range m))) (C m)) as [_|Hle].
    2:{ specialize (Hlt m ltac:(lia)). fold C in Hlt. lia. }
    apply (Runs_bind (fun f => card f r m) (fun f c' => ix_while f r (_ - c') (m + 1)) _ _ _ _ Hrun2).
    fold C. replace (n - Z.of_nat k) with (m + 1) in Hrun by lia.
    rewrite (Zsum_range_S C m (proj1 Hm)) in Hrun.
    replace (j - Zsum (map C (range m)) - C m) with (j - (Zsum (map C (range m)) + C m)) by lia.
    exact Hrun.
Qed.

(** The size at which the loop of [ix] stops: the first [n] whose
    cardinality is not below what is left of the index. *)
Lemma ix_stops h r j n :
  consistent h -> (r < length h)%nat -> 0 <= n ->
  (forall m, 0 <= m < n ->
     cardD (skeleton h) r m < j - Zsum (map (cardD (skeleton h) r) (range m))) ->
  j - Zsum (map (cardD (skeleton h) r) (range n)) <= cardD (skeleton h) r n ->
  exists h',
    Runs (fun f => ix_while f r j 0) h
         (Ret (j - Zsum (map (cardD (skeleton h) r) (range n)), n) h') /\
    consistent h' /\ skeleton h' = skeleton h.
Proof.
  intros Hc Hr Hn Hlt Hstop.
  destruct (ix_while_run h r n Hr Hn (Z.to_nat n) h j Hc eq_refl ltac:(lia))
    as (h' & Hrun & Hc' & Hs'); [intros; apply Hlt; lia | done |].
  exists h'. split; [|done].
  replace (n - Z.of_nat (Z.to_nat n)) with 0 in Hrun by lia.
  rewrite range_0 in Hrun. simpl in Hrun. by rewrite Z.sub_0_r in Hrun.
Qed.

Lemma ix_while_diverges h r :
  (r < length h)%nat ->
  forall f n j h0,
    consistent h0 -> skeleton h0 = skeleton h -> 0 <= n ->
    (forall m, n <= m ->
       cardD (skeleton h) r m < j - Zsum (map (cardD (skeleton h) r) (range m))) ->
    ix_while f r (j - Zsum (map (cardD (skeleton h) r) (range n))) n h0 = OutOfFuel.
Proof.
  intros Hr. set (C := cardD (skeleton h) r).
  induction f as [|f IH]; intros n j h0 Hc Hs Hn Hlt; [done|].
  cbn [ix_while]. unfold bind at 1.
  destruct (card_run h h0 r n Hc Hs Hr Hn) as (h1 & Hrun1 & Hc1 & Hs1).
  destruct (card f r n h0) as [c h1'| |] eqn:E1; [| |done].
  2:{ pose proof (card_fuel _ _ _ _ _ E1 ltac:(done)) as Hrun.
      by pose proof (Runs_det _ _ _ _ Hrun Hrun1). }
  pose proof (card_fuel _ _ _ _ _ E1 ltac:(done)) as Hrun.
  pose proof (Runs_det _ _ _ _ Hrun Hrun1) as E. injection E as -> ->. fold C.
  destruct (Z.gtb_spec (j - Zsum (map C (range n))) (C n)) as [_|Hle].
  2:{ specialize (Hlt n ltac:(lia)). fold C in Hlt. lia. }
  unfold bind.
  destruct (card_run h h1 r n Hc1 Hs1 Hr Hn) as (h2 & Hrun2 & Hc2 & Hs2).
  destruct (card f r n h1) as [c h2'| |] eqn:E2; [| |done].
  2:{ pose proof (card_fuel _ _ _ _ _ E2 ltac:(done)) as Hrun'.
      by pose proof (Runs_det _ _ _ _ Hrun' Hrun2). }
  pose proof (card_fuel _ _ _ _ _ E2 ltac:(done)) as Hrun'.
  pose proof (Runs_det _ _ _ _ Hrun' Hrun2) as E. injection E as -> ->. fold C.
  replace (j - Zsum (map C (range n)) - C n) with (j - Zsum (map C (range (n + 1)))).
  2:{ rewrite (Zsum_range_S C n Hn). lia. }
  apply IH; [done | done | lia |]. intros m Hm. apply Hlt. lia.
Qed.

(** X9: for a flat index strictly inside the block of size [n], that is
    [0 < j - (card(0) + ... + card(n-1)) < card(n)], [ix(e, j)] ends as
    [e.index(n, j - (card(0) + ... + card(n-1)))] does. *)
Theorem ix_inside h r (V : Z -> Z) j n :
  consistent h -> (r < length h)%nat -> 0 <= n ->
  (forall s, 0 <= s <= n -> exists hs, Runs (fun f => card f r s) h (Ret (V s) hs)) ->
  0 < j - Zsum (map V (range n)) < V n ->
  exists res h1 h2,
    Runs (fun f => index f r n (j - Zsum (map V (range n)))) h (out res h1) /\
    Runs (fun f => ix f r j) h (out res h2).
Proof.
  intros Hc Hr Hn HV Hj.
  pose proof (card_values h r V n Hc Hr HV) as HS.
  destruct (HV n ltac:(lia)) as [hn Hrunn].
  pose proof (card_value h r n _ hn Hc Hr Hn Hrunn) as HVn.
  rewrite (HS n ltac:(lia)) in *. rewrite HVn in Hj. clear HS HVn Hrunn.
  set (C := cardD (skeleton h) r) in *.
  assert (HC : forall s, 0 <= C s) by (intros; apply cardD_nonneg).
  destruct (ix_stops h r j n Hc Hr Hn) as (h' & Hloop & Hc' & Hs').
  { intros m Hm. fold C. pose proof (Zsum_range_lt C m n HC Hm). lia. }
  { fold C. lia. }
  fold C in Hloop.
  destruct (index_total h r n (j - Zsum (map C (range n))) Hc Hr Hn ltac:(fold C; lia))
    as (res & h1 & HR & Hrun & _).
  assert (Hr' : (r < length h')%nat).
  { rewrite <- skeleton_length, Hs', skeleton_length. done. }
  destruct (index_total h' r n (j - Zsum (map C (range n))) Hc' Hr' Hn
              ltac:(rewrite Hs'; fold C; lia)) as (res' & h2 & HR' & Hrun' & _).
  rewrite Hs' in HR'. rewrite (IndexR_det _ _ _ _ _ _ HR' HR) in Hrun'.
  exists res, h1, h2. split; [done|]. unfold ix.
  apply (Runs_bind (fun f => ix_while f r j 0)
           (fun f (st : Z * Z) => let '(idx, n) := st in index f r n idx) _ _ _ _ Hloop).
  exact Hrun'.
Qed.

Lemma ix_inside_witness :
  exists res h1 h2,
    Runs (fun f => index f nat_list 4
                     (3 - Zsum (map (cardD (skeleton nat_list_heap) nat_list) (range 4))))
         nat_list_heap (out res h1) /\
    Runs (fun f => ix f nat_list 3) nat_list_heap (out res h2).
Proof.
  apply (ix_inside nat_list_heap nat_list (cardD (skeleton nat_list_heap) nat_list) 3 4
           nat_list_consistent).
  - vm_compute. lia.
  - lia.
  - intros s Hs. apply card_returns; [apply nat_list_consistent | vm_compute; lia | lia].
  - by vm_compute.
Defined.

(** X10: on an [Enum], the flat index [card(0) + ... + card(n)] of the first
    value after a non-empty size [n >= 1] is handed to [index(n, card(n))]:
    [ix] raises [ValueError]. *)
Theorem ix_boundary h r constructors cards (V : Z -> Z) n :
  consistent h -> h !! r = Some (Enum constructors cards) -> 1 <= n ->
  (forall s, 0 <= s <= n -> exists hs, Runs (fun f => card f r s) h (Ret (V s) hs)) ->
  0 < V n ->
  exists h', Runs (fun f => ix f r (Zsum (map V (range (n + 1))))) h (Raise ValueError h').
Proof.
  intros Hc Hr Hn HV Hpos.
  assert (Hlt : (r < length h)%nat) by (by apply lookup_lt_Some in Hr).
  pose proof (card_values h r V n Hc Hlt HV) as HS.
  destruct (HV n ltac:(lia)) as [hn Hrunn].
  pose proof (card_value h r n _ hn Hc Hlt ltac:(lia) Hrunn) as HVn.
  rewrite (HS (n + 1) ltac:(lia)). rewrite HVn in Hpos. clear HS HVn Hrunn.
  set (C := cardD (skeleton h) r) in *.
  assert (HC : forall s, 0 <= C s) by (intros; apply cardD_nonneg).
  rewrite (Zsum_range_S C n) by lia.
  destruct (ix_stops h r (Zsum (map C (range n)) + C n) n Hc Hlt ltac:(lia))
    as (h' & Hloop & Hc' & Hs').
  { intros m Hm. fold C. pose proof (Zsum_range_lt C m n HC Hm). lia. }
  { fold C. lia. }
  fold C in Hloop.
  replace (Zsum (map C (range n)) + C n - Zsum (map C (range n))) with (C n) in Hloop by lia.
  assert (Hr' : exists cards', h' !! r = Some (Enum constructors cards')).
  { apply skel_Enum. rewrite Hs'. apply (heap_skel _ _ _ Hr). }
  destruct Hr' as [cards' Hr'].
  destruct (Enum_index_ValueError h' r constructors cards' n (C n) Hc' Hr' Hn)
    as [h2 Hrun]; [rewrite Hs'; fold C; lia|].
  exists h2. unfold ix.
  apply (Runs_bind (fun f => ix_while f r _ 0)
           (fun f (st : Z * Z) => let '(idx, n) := st in index f r n idx) _ _ _ _ Hloop).
  exact Hrun.
Qed.

(** [elist(IntEnum())] has one value up to size 2: [ix(e, 1)] raises. *)
Lemma ix_boundary_witness :
  exists h',
    Runs (fun f => ix f nat_list
                     (Zsum (map (cardD (skeleton nat_list_heap) nat_list) (range (2 + 1)))))
         nat_list_heap (Raise ValueError h').
Proof.
  apply (ix_boundary nat_list_heap nat_list [2%nat; 3%nat] [0]
           (cardD (skeleton nat_list_heap) nat_list) 2 nat_list_consistent).
  - reflexivity.
  - lia.
  - intros s Hs. apply card_returns; [apply nat_list_consistent | vm_compute; lia | lia].
  - by vm_compute.
Defined.

(** X11: when the enumerator has fewer than [j] values in all, that is
    [card(0) + ... + card(n) < j] for every [n], [ix(e, j)] does not
    terminate. *)
Theorem ix_diverges h r (V : Z -> Z) j :
  consistent h -> (r < length h)%nat ->
  (forall s, 0 <= s -> exists hs, Runs (fun f => card f r s) h (Ret (V s) hs)) ->
  (forall n, 0 <= n -> Zsum (map V (range (n + 1))) < j) ->
  forall f, ix f r j h = OutOfFuel.
Proof.
  intros Hc Hr HV Hj f. unfold ix, bind.
  assert (HS : forall m, 0 <= m ->
            Zsum (map V (range m)) = Zsum (map (cardD (skeleton h) r) (range m))).
  { intros m Hm. apply (card_values h r V m Hc Hr); [|lia]. intros s Hs. apply HV. lia. }
  pose proof (ix_while_diverges h r Hr f 0 j h Hc eq_refl ltac:(lia)) as E.
  rewrite range_0 in E. simpl in E. rewrite Z.sub_0_r in E. rewrite E; [done|].
  intros m Hm. specialize (Hj m Hm). rewrite (HS (m + 1)) in Hj by lia.
  rewrite Zsum_range_S in Hj by lia. lia.
Qed.

(** An [Enum] without alternatives has no value at all. *)
Lemma ix_diverges_witness : ix 1000 0%nat 1 [Enum [] [0]] = OutOfFuel.
Proof.
  assert (Hc : consistent [Enum [] [0]]) by (by apply fresh_consistent).
  refine (ix_diverges [Enum [] [0]] 0%nat (fun _ => 0) 1 Hc _ _ _ 1000%nat).
  - simpl. lia.
  - intros s Hs. destruct (card_returns [Enum [] [0]] 0%nat s Hc) as [hs Hrun]; [simpl; lia | lia |].
    rewrite (cardD_Enum _ 0%nat [] s) in Hrun by done.
    exists hs. by destruct (s <=? 0).
  - intros n Hn. rewrite Zsum_zero. lia.
Defined.

(** ** [all] *)

(** The loop of [all] over the indices [l]: the values of a prefix of [l],
    up to the first index whose constructor function raises. *)
Lemma all_for_spec h r n :
  (r < length h)%nat -> 0 <= n ->
  forall l h0,
    consistent h0 -> skeleton h0 = skeleton h ->
    (forall i, i ∈ l -> 0 <= i < cardD (skeleton h) r n) ->
    exists (F : nat) (vs : list value) (o : outcome unit),
      (forall f, (F <= f)%nat -> all_for (index f r n) l h0 = (vs, o)) /\
      Forall2 (fun i v => IndexR (skeleton h) r n i (Some v)) (take (length vs) l) vs /\
      match o with
      | Ret _ _ => length vs = length l
      | Raise e _ =>
          e = TypeError /\
          exists i, l !! length vs = Some i /\ IndexR (skeleton h) r n i None
      | OutOfFuel => False
      end.
Proof.
  intros Hr Hn. induction l as [|i l IH]; intros h0 Hc Hs Hl.
  - exists 0%nat, [], (Ret tt h0). split; [done|]. split; [constructor | done].
  - destruct (index_run h h0 r n i Hc Hs Hr Hn) as (res & h1 & HR & [_ [F1 Hrun]] & Hc1 & Hs1).
    { apply Hl. apply list_elem_of_here. }
    destruct res as [v|]; simpl in Hrun.
    + destruct (IH h1 Hc1 Hs1) as (F2 & vs & o & Hall & Hvs & Ho).
      { intros i' Hi'. apply Hl. by apply list_elem_of_further. }
      exists (F1 `max` F2)%nat, (v :: vs), o. split; [|split].
      * intros f Hf. cbn [all_for]. rewrite Hrun by lia. rewrite Hall by lia. done.
      * simpl. by constructor.
      * destruct o as [| e h2 |]; [simpl; lia | | done].
        destruct Ho as [-> (i' & Hi' & HN)]. split; [done|]. by exists i'.
    + exists F1, [], (Raise TypeError h1). split; [|split].
      * intros f Hf. cbn [all_for]. by rewrite Hrun.
      * constructor.
      * split; [done|]. by exists i.
Qed.

(** X12: [all(e, n)] prints [index(n, 0)], [index(n, 1)], ... in this order.
    It ends after [card(n)] values, or with the exception of the first
    [index(n, i)] that raises; on an unambiguous enumerator it prints no
    value twice. *)
Theorem all_prints h r n c hc :
  consistent h -> (r < length h)%nat -> 0 <= n ->
  Runs (fun f => card f r n) h (Ret c hc) ->
  exists (F : nat) (vs : list value) (o : outcome unit),
    (forall f, (F <= f)%nat -> all f r n h = (vs, o)) /\
    (forall (i : nat) v, vs !! i = Some v ->
       exists h', Runs (fun f => index f r n (Z.of_nat i)) h (Ret v h')) /\
    match o with
    | Ret _ _ => len vs = c
    | Raise e _ =>
        len vs < c /\ exists h', Runs (fun f => index f r n (len vs)) h (Raise e h')
    | OutOfFuel => False
    end /\
    (unambiguous_heap h -> NoDup vs).
Proof.
  intros Hc Hr Hn Hcard.
  pose proof (card_value h r n c hc Hc Hr Hn Hcard) as ->. clear Hcard hc.
  set (C := cardD (skeleton h) r n). assert (HC : 0 <= C) by apply cardD_nonneg.
  destruct (card_run h h r n Hc eq_refl Hr Hn) as (h1 & [_ [F0 Hcard]] & Hc1 & Hs1).
  destruct (all_for_spec h r n Hr Hn (range C) h1 Hc1 Hs1) as (F1 & vs & o & Hall & Hvs & Ho).
  { intros i Hi. by apply range_elem in Hi. }
  assert (Hlen : (length vs <= Z.to_nat C)%nat).
  { apply Forall2_length in Hvs. rewrite length_take in Hvs.
    unfold range in Hvs. rewrite length_map, length_seq in Hvs. lia. }
  assert (Hat : forall (i : nat) v, vs !! i = Some v ->
            0 <= Z.of_nat i < C /\ IndexR (skeleton h) r n (Z.of_nat i) (Some v)).
  { intros i v Hi. pose proof (lookup_lt_Some _ _ _ Hi) as Hlt.
    split; [lia|].
    assert (Hl : take (length vs) (range C) !! i = Some (Z.of_nat i)).
    { rewrite lookup_take_lt by done.
      rewrite <- (Nat2Z.id i) at 1. apply range_lookup. lia. }
    eapply Forall2_lookup_lr in Hvs; [|exact Hl|exact Hi]. done. }
  exists (F0 `max` F1)%nat, vs, o. split; [|split; [|split]].
  - intros f Hf. unfold all. rewrite Hcard by lia. apply Hall. lia.
  - intros i v Hi. destruct (Hat i v Hi) as [Hb HR].
    apply (index_value h r n _ (Some v) Hc Hr Hn Hb HR).
  - destruct o as [| e h2 |]; [| |done].
    + unfold len. rewrite Ho. unfold range. rewrite length_map, length_seq. lia.
    + destruct Ho as [-> (i & Hi & HN)].
      pose proof (lookup_lt_Some _ _ _ Hi) as Hlt.
      unfold range in Hlt. rewrite length_map, length_seq in Hlt.
      assert (Ei : i = len vs).
      { unfold range in Hi. rewrite list_lookup_fmap in Hi.
        rewrite lookup_seq_lt in Hi by done. simpl in Hi. injection Hi as <-. done. }
      subst i. unfold len in *. split; [lia|].
      destruct (index_value h r n (Z.of_nat (length vs)) None Hc Hr Hn ltac:(fold C; lia) HN)
        as [h' Hrun].
      by exists h'.
  - intros Hu. apply NoDup_alt. intros i j v Hi Hj.
    destruct (Hat i v Hi) as [Hbi HRi]. destruct (Hat j v Hj) as [Hbj HRj].
    destruct (inj_at_heap h r n Hc Hu Hr Hn n _ _ v Hn Hbi Hbj HRi HRj) as [_ E]. lia.
Qed.

Lemma all_prints_witness :
  exists (F : nat) (vs : list value) (o : outcome unit),
    (forall f, (F <= f)%nat -> all f nat_list 4 nat_list_heap = (vs, o)) /\
    (forall (i : nat) v, vs !! i = Some v ->
       exists h', Runs (fun f => index f nat_list 4 (Z.of_nat i)) nat_list_heap (Ret v h')) /\
    match o with
    | Ret _ _ => len vs = 2
    | Raise e _ =>
        len vs < 2 /\
        exists h', Runs (fun f => index f nat_list 4 (len vs)) nat_list_heap (Raise e h')
    | OutOfFuel => False
    end /\
    (unambiguous_heap nat_list_heap -> NoDup vs).
Proof.
  refine (all_prints nat_list_heap nat_list 4 2 _ nat_list_consistent _ _ _).
  - vm_compute. lia.
  - lia.
  - apply (Runs_from _ 10); [done|]. intros f. reflexivity.
Defined.

(** ** Lists *)

Lemma elist_cardD elems h n :
  built h -> (elems < length h)%nat -> 1 <= n ->
  let sk := skeleton (snd (elist elems h)) in
  let e := fst (elist elems h) in
  cardD sk e n =
    (if n =? 2 then 1 else 0) +
    Zsum (map (fun s => cardD sk elems s * cardD sk e (n - 1 - s)) (range n)).
Proof.
  intros Hb He Hn sk e.
  assert (Hwf : wf_skel sk = true) by apply (built_consistent _ (elist_built elems h Hb He)).
  unfold sk, e in *. clear sk e. rewrite elist_heap in *. cbn [fst snd] in *.
  set (sk := skeleton _) in *.
  assert (H0 : sk !! length h = Some (SEnum [S (length h); S (S (length h))])).
  { unfold sk. rewrite skeleton_app. rewrite lookup_app_r by (by rewrite skeleton_length).
    by rewrite skeleton_length, Nat.sub_diag. }
  assert (H1 : sk !! S (length h) = Some (SConstructor0 nil_builder)).
  { unfold sk. rewrite skeleton_app. rewrite lookup_app_r by (rewrite skeleton_length; lia).
    rewrite skeleton_length. by replace (S (length h) - length h)%nat with 1%nat by lia. }
  assert (H2 : sk !! S (S (length h)) = Some (SConstructor app [elems; length h])).
  { unfold sk. rewrite skeleton_app. rewrite lookup_app_r by (rewrite skeleton_length; lia).
    rewrite skeleton_length. by replace (S (S (length h)) - length h)%nat with 2%nat by lia. }
  rewrite (cardD_Enum sk _ _ n H0) at 1. destruct (Z.leb_spec n 0); [lia|].
  cbn [map Zsum fold_right].
  rewrite (cardD_Constructor0 sk _ _ _ H1).
  rewrite (cardD_Constructor sk _ _ _ _ Hwf H2).
  rewrite prodcard_block_sum by (done || lia).
  replace (n - 1 + 1) with n by lia. cbn [prodcard].
  replace (n - 1 =? 1) with (n =? 2) by (destruct (Z.eqb_spec n 2), (Z.eqb_spec (n - 1) 1); lia).
  rewrite Z.add_0_r. done.
Qed.

(** X13: the cardinalities of [elist(elems)]: one list (the empty one) at
    size 2, and at every size [n >= 1] the lists made of an element of
    size [s] and a list of size [n - 1 - s]. *)
Theorem elist_card h elems n (E C : Z -> Z) :
  built h -> (elems < length h)%nat -> 1 <= n ->
  (forall s, 0 <= s < n ->
     exists hs, Runs (fun f => card f elems s) (snd (elist elems h)) (Ret (E s) hs)) ->
  (forall s, 0 <= s <= n ->
     exists hs, Runs (fun f => card f (fst (elist elems h)) s) (snd (elist elems h))
                     (Ret (C s) hs)) ->
  C n = (if n =? 2 then 1 else 0) + Zsum (map (fun s => E s * C (n - 1 - s)) (range n)).
Proof.
  intros Hb He Hn HE HC.
  pose proof (built_consistent _ (elist_built elems h Hb He)) as Hc.
  pose proof (elist_cardD elems h n Hb He Hn) as Hrec. cbv zeta in Hrec.
  assert (Hlen : length (snd (elist elems h)) = (length h + 3)%nat).
  { rewrite elist_heap. simpl. by rewrite length_app. }
  assert (Hfst : fst (elist elems h) = length h) by (by rewrite elist_heap).
  assert (EC : forall s, 0 <= s <= n ->
            C s = cardD (skeleton (snd (elist elems h))) (fst (elist elems h)) s).
  { intros s Hs. destruct (HC s Hs) as [hs Hrun].
    apply (card_value _ _ s _ hs Hc); [rewrite Hfst, Hlen; lia | lia | done]. }
  assert (EE : forall s, 0 <= s < n ->
            E s = cardD (skeleton (snd (elist elems h))) elems s).
  { intros s Hs. destruct (HE s Hs) as [hs Hrun].
    apply (card_value _ _ s _ hs Hc); [rewrite Hlen; lia | lia | done]. }
  rewrite (EC n) by lia. rewrite Hrec. f_equal. apply Zsum_ext.
  intros s Hs. apply range_elem in Hs. rewrite EE, EC by lia. done.
Qed.

Lemma elist_card_witness :
  cardD (skeleton nat_list_heap) nat_list 3 =
    (if 3 =? 2 then 1 else 0) +
    Zsum (map (fun s => 1 * cardD (skeleton nat_list_heap) nat_list (3 - 1 - s)) (range 3)).
Proof.
  apply (elist_card [IntEnum] 0%nat 3 (fun _ => 1) (cardD (skeleton nat_list_heap) nat_list)
           (built_IntEnum [] built_empty)).
  - simpl. lia.
  - lia.
  - intros s _. by apply card_IntEnum_returns.
  - intros s Hs. apply (card_returns nat_list_heap nat_list s);
      [apply nat_list_consistent | vm_compute; lia | lia].
Defined.

Lemma layer_app sk t (b1 b2 : ref -> Z -> Z) d r n :
  wf_skel sk = true -> grounded sk d r = true ->
  (forall c m, (c < length sk)%nat -> b1 c m = b2 c m) ->
  layer (sk ++ t) b1 d r n = layer sk b2 d r n.
Proof.
  intros Hwf Hg Hb. revert r n Hg. induction d as [|d IH]; intros r n Hg; [done|].
  cbn [grounded layer] in *. destruct (sk !! r) as [s|] eqn:Hs; [|done].
  rewrite (lookup_app_l_Some _ _ _ _ Hs).
  destruct s as [constructors| |con e|con enums|]; try done.
  - destruct (n <=? 0); [done|]. apply Zsum_ext. intros c Hc. apply Hb.
    by apply (wf_closed sk r constructors).
  - by apply IH.
  - apply andb_true_iff in Hg as [_ Hg]. rewrite forallb_forall in Hg.
    apply prodcard_ext. intros e m He _. apply IH. apply Hg. by apply list_elem_of_In.
Qed.

Lemma cardN_app sk t sz r n :
  wf_skel sk = true -> (r < length sk)%nat ->
  cardN (sk ++ t) sz r n = cardN sk sz r n.
Proof.
  intros Hwf. revert r n. induction sz as [|sz IH]; intros r n Hr; [done|].
  cbn [cardN].
  assert (Hg : grounded sk (length sk) r = true).
  { destruct (lookup_lt_is_Some_2 sk r Hr) as [s Hs]. by apply (wf_grounded sk r s). }
  rewrite (layer_depth (sk ++ t) _ (length sk) (length (sk ++ t)) r n).
  - apply layer_app; [done | done |]. intros c m Hc. by apply IH.
  - by apply grounded_app.
  - rewrite length_app. lia.
Qed.

Lemma cardD_app sk t r n :
  wf_skel sk = true -> (r < length sk)%nat -> cardD (sk ++ t) r n = cardD sk r n.
Proof. intros. unfold cardD. by apply cardN_app. Qed.

Lemma searchR_ext (f g : Z -> Z) i e i1 e1 :
  (forall s, f s = g s) -> searchR f i e i1 e1 -> searchR g i e i1 e1.
Proof.
  intros Hfg. induction 1 as [i e Hlt | i e i1 e1 Hge _ IH].
  - apply search_stop. by rewrite <- Hfg.
  - apply search_next; rewrite <- Hfg; done.
Qed.

Lemma pick_ext (c1 c2 : ref -> Z) l i :
  (forall c, c ∈ l -> c1 c = c2 c) -> pick c1 l i = pick c2 l i.
Proof.
  revert i. induction l as [|c l IH]; intros i H; [done|]. cbn [pick].
  rewrite (H c) by apply list_elem_of_here.
  destruct (i <? c2 c); [done|]. apply IH. intros c' Hc'. apply H. by apply list_elem_of_further.
Qed.

Lemma pick_elem (c : ref -> Z) l i x i' : pick c l i = Some (x, i') -> x ∈ l.
Proof.
  revert i. induction l as [|y l IH]; intros i H; [done|]. cbn [pick] in H.
  destruct (i <? c y).
  - injection H as -> _. apply list_elem_of_here.
  - apply list_elem_of_further. by apply (IH (i - c y)).
Qed.

Lemma closed_components sk r s :
  wf_skel sk = true -> sk !! r = Some s ->
  match s with
  | SEnum constructors => forall c, c ∈ constructors -> (c < length sk)%nat
  | SConstructor1 _ e => (e < length sk)%nat
  | SConstructor _ enums => enums <> [] /\ forall e, e ∈ enums -> (e < length sk)%nat
  | _ => True
  end.
Proof. intros Hwf Hs. apply wf_skel_iff in Hwf as [Hcl _]. by apply (Hcl r s). Qed.

Lemma IndexR_app sk t :
  wf_skel sk = true ->
  (forall r n i res, IndexR (sk ++ t) r n i res -> (r < length sk)%nat -> IndexR sk r n i res) /\
  (forall es n i args,
     DecodeR (sk ++ t) es n i args -> (forall e, e ∈ es -> (e < length sk)%nat) ->
     DecodeR sk es n i args).
Proof.
  intros Hwf.
  assert (Hl : forall r s, (r < length sk)%nat -> (sk ++ t) !! r = Some s -> sk !! r = Some s).
  { intros r s Hr Hs. by rewrite lookup_app_l in Hs. }
  apply (IndexR_DecodeR_ind (sk ++ t)
    (fun r n i res => (r < length sk)%nat -> IndexR sk r n i res)
    (fun es n i args => (forall e, e ∈ es -> (e < length sk)%nat) -> DecodeR sk es n i args)).
  - intros r n i Hs Hr. apply IR_IntEnum. by apply Hl.
  - intros r con n i Hs Hr. apply IR_Constructor0. by apply Hl.
  - intros r con e n i res Hs _ IH Hr. apply Hl in Hs; [|done].
    apply (IR_Constructor1 sk r con e); [done|]. apply IH.
    apply (closed_components sk r _ Hwf Hs).
  - intros r constructors n i c i' res Hs Hpick _ IH Hr. apply Hl in Hs; [|done].
    pose proof (closed_components sk r _ Hwf Hs) as Hcl. simpl in Hcl.
    rewrite (pick_ext _ (fun c => cardD sk c (n - 1))) in Hpick.
    2:{ intros c' Hc'. apply cardD_app; [done | by apply Hcl]. }
    apply (IR_Enum sk r constructors n i c i'); [done | done |]. apply IH.
    apply Hcl. by apply (pick_elem _ _ _ _ _ Hpick).
  - intros r con enums n i args Hs _ IH Hr. apply Hl in Hs; [|done].
    apply (IR_Constructor sk r con enums); [done|]. apply IH.
    apply (closed_components sk r _ Hwf Hs).
  - intros e n i res _ IH He. apply DR_last. apply IH, He, list_elem_of_here.
  - intros e es n i i1 esize Hne Hsearch _ IH Hes.
    assert (He : (e < length sk)%nat) by apply Hes, list_elem_of_here.
    apply (DR_raise sk e es n i i1 esize); [done | |].
    + apply (searchR_ext (block (sk ++ t) e es n)); [|done].
      intros s. unfold block. rewrite cardD_app by done. f_equal.
      apply prodcard_ext. intros e' m He' _. apply cardD_app; [done|].
      by apply Hes, list_elem_of_further.
    + rewrite <- (cardD_app sk t e esize Hwf He). by apply IH.
  - intros e es n i i1 esize v args Hne Hsearch _ IH1 _ IH2 Hes.
    assert (He : (e < length sk)%nat) by apply Hes, list_elem_of_here.
    apply (DR_cons sk e es n i i1 esize v args); [done | | |].
    + apply (searchR_ext (block (sk ++ t) e es n)); [|done].
      intros s. unfold block. rewrite cardD_app by done. f_equal.
      apply prodcard_ext. intros e' m He' _. apply cardD_app; [done|].
      by apply Hes, list_elem_of_further.
    + rewrite <- (cardD_app sk t e esize Hwf He). by apply IH1.
    + rewrite <- (cardD_app sk t e esize Hwf He). apply IH2.
      intros e' He'. by apply Hes, list_elem_of_further.
Qed.

Lemma app_inv args v :
  app args = Some v -> exists x xs, args = [x; VList xs] /\ v = VList (xs ++ [x]).
Proof.
  unfold app. intros H.
  destruct args as [|x [|[z|xs] [|? ?]]]; try done.
  injection H as <-. by exists x, xs.
Qed.

Lemma nil_builder_inv args v : nil_builder args = Some v -> args = [] /\ v = VList [].
Proof. unfold nil_builder. destruct args; [|done]. by intros [= <-]. Qed.

Lemma produces_app sk t r v :
  wf_skel sk = true -> (r < length sk)%nat -> produces (sk ++ t) r v -> produces sk r v.
Proof.
  intros Hwf Hr (n & i & Hn & Hi & HR). exists n, i. split; [done|].
  rewrite cardD_app in Hi by done. split; [done|].
  by apply (proj1 (IndexR_app sk t Hwf)).
Qed.

Lemma elist_skeleton elems h :
  skeleton (snd (elist elems h)) =
  skeleton h ++ [SEnum [S (length h); S (S (length h))];
                 SConstructor0 nil_builder;
                 SConstructor app [elems; length h]].
Proof. rewrite elist_heap. cbn [snd]. by rewrite skeleton_app. Qed.

(** X14: [elist] keeps enumerators unambiguous: when the constructor
    functions of the heap are injective and no two alternatives of an
    [Enum] return the same value, the same holds after [elist(elems)]. *)
Theorem elist_unambiguous h elems :
  built h -> (elems < length h)%nat -> unambiguous_heap h ->
  unambiguous_heap (snd (elist elems h)).
Proof.
  intros Hb He Hu.
  pose proof (built_consistent h Hb) as Hc.
  pose proof (built_consistent _ (elist_built elems h Hb He)) as Hc'.
  apply (unambiguous_heap_skel h Hc) in Hu. apply (unambiguous_heap_skel _ Hc').
  rewrite elist_skeleton. destruct Hc as [Hwf _]. clear Hc' Hb.
  rewrite <- (skeleton_length h) in *. set (sk := skeleton h) in *.
  set (t := [SEnum [S (length sk); S (S (length sk))]; SConstructor0 nil_builder;
             SConstructor app [elems; length sk]]).
  destruct Hu as [Hu1 Hu2].
  assert (Hnew : forall r s, (sk ++ t) !! r = Some s ->
            (r < length sk)%nat /\ sk !! r = Some s \/
            r = length sk /\ s = SEnum [S (length sk); S (S (length sk))] \/
            r = S (length sk) /\ s = SConstructor0 nil_builder \/
            r = S (S (length sk)) /\ s = SConstructor app [elems; length sk]).
  { intros r s Hs. destruct (decide (r < length sk)%nat) as [Hr|Hr].
    - left. split; [done|]. by rewrite lookup_app_l in Hs.
    - right. rewrite lookup_app_r in Hs by lia.
      destruct (r - length sk)%nat as [|[|[|k]]] eqn:E; simpl in Hs; simplify_eq.
      + left. split; [lia | done].
      + right; left. split; [lia | done].
      + right; right. split; [lia | done]. }
  split.
  - intros r s con Hs Hcon.
    destruct (Hnew r s Hs) as [[Hr Hs']|[[-> ->]|[[-> ->]|[-> ->]]]].
    + by apply (Hu1 r s).
    + done.
    + injection Hcon as <-. intros args args' v H1 H2.
      apply nil_builder_inv in H1 as [-> _]. by apply nil_builder_inv in H2 as [-> _].
    + injection Hcon as <-. intros args args' v H1 H2.
      apply app_inv in H1 as (x & xs & -> & ->).
      apply app_inv in H2 as (x' & xs' & -> & E).
      injection E as E. apply app_inj_tail in E as [-> ->]. done.
  - intros r constructors p q c c' v Hs Hp Hq Hv Hv'.
    destruct (Hnew r _ Hs) as [[Hr Hs']|[[-> E]|[[_ E]|[_ E]]]]; [| |done|done].
    + pose proof (closed_components sk r _ Hwf Hs') as Hcl. simpl in Hcl.
      apply (Hu2 r constructors p q c c' v Hs' Hp Hq).
      * apply (produces_app sk t c v Hwf); [|done]. apply Hcl. by eapply list_elem_of_lookup_2.
      * apply (produces_app sk t c' v Hwf); [|done]. apply Hcl. by eapply list_elem_of_lookup_2.
    + injection E as ->.
      assert (Hnil : forall w, produces (sk ++ t) (S (length sk)) w ->
                w = VList []).
      { intros w (n & i & _ & _ & HR).
        apply (IndexR_Constructor0_inv _ _ nil_builder) in HR.
        - by injection HR as ->.
        - rewrite lookup_app_r by lia. by replace (S (length sk) - length sk)%nat with 1%nat by lia. }
      assert (Happ : forall w, produces (sk ++ t) (S (S (length sk))) w ->
                w <> VList []).
      { intros w (n & i & _ & _ & HR) ->.
        apply (IndexR_Constructor_inv _ _ app [elems; length sk]) in HR.
        - destruct HR as (args & _ & E). destruct args as [args|]; [|done]. simpl in E.
          symmetry in E. apply app_inv in E as (x & xs & _ & E).
          injection E as E. by destruct xs.
        - rewrite lookup_app_r by lia.
          by replace (S (S (length sk)) - length sk)%nat with 2%nat by lia. }
      destruct p as [|[|p]], q as [|[|q]]; simpl in Hp, Hq; simplify_eq; try done.
      * apply Hnil in Hv. by apply Happ in Hv'.
      * apply Hnil in Hv'. by apply Happ in Hv.
Qed.

(** Lists of lists of naturals, [elist(elist(IntEnum()))]. *)
Lemma elist_unambiguous_witness : unambiguous_heap (snd (elist nat_list nat_list_heap)).
Proof.
  apply (elist_unambiguous nat_list_heap nat_list built_nat_list).
  - vm_compute. lia.
  - apply nat_list_unambiguous.
Defined.

Lemma yields_produces_at h r n v :
  consistent h -> (r < length h)%nat -> 0 <= n ->
  yields_at h r n v <-> produces_at (skeleton h) r n v.
Proof.
  intros Hc Hr Hn. split.
  - intros (i & c & hc & h' & Hcard & Hi & Hrun).
    rewrite (card_value h r n c hc Hc Hr Hn Hcard) in Hi.
    destruct (index_total h r n i Hc Hr Hn Hi) as (res & h'' & HR & Hrun' & _).
    pose proof (Runs_det _ _ _ _ Hrun Hrun') as E. symmetry in E. apply out_Ret in E.
    subst res. by exists i.
  - intros (i & Hi & HR).
    destruct (card_returns h r n Hc Hr Hn) as [hc Hcard].
    destruct (index_value h r n i (Some v) Hc Hr Hn Hi HR) as [h' Hrun].
    by exists i, (cardD (skeleton h) r n), hc, h'.
Qed.

Section ElistValues.
Context (elems : ref) (h : heap) (Hb : built h) (He : (elems < length h)%nat).

Let sk := skeleton (snd (elist elems h)).
Let e := length h.

Lemma elist_wf : wf_skel sk = true.
Proof. apply (built_consistent _ (elist_built elems h Hb He)). Qed.

Lemma elist_Enum : sk !! e = Some (SEnum [S e; S (S e)]).
Proof.
  unfold sk, e. rewrite elist_skeleton.
  rewrite lookup_app_r by (by rewrite skeleton_length).
  by rewrite skeleton_length, Nat.sub_diag.
Qed.

Lemma elist_nil : sk !! S e = Some (SConstructor0 nil_builder).
Proof.
  unfold sk, e. rewrite elist_skeleton.
  rewrite lookup_app_r by (rewrite skeleton_length; lia).
  rewrite skeleton_length. by replace (S (length h) - length h)%nat with 1%nat by lia.
Qed.

Lemma elist_app : sk !! S (S e) = Some (SConstructor app [elems; e]).
Proof.
  unfold sk, e. rewrite elist_skeleton.
  rewrite lookup_app_r by (rewrite skeleton_length; lia).
  rewrite skeleton_length. by replace (S (S (length h)) - length h)%nat with 2%nat by lia.
Qed.

Lemma elist_decode (N : nat) :
  forall n, 0 <= n -> (Z.to_nat n < N)%nat ->
  forall v, produces_at sk e n v ->
  exists vs sizes,
    v = VList vs /\
    Forall2 (fun x s => 0 <= s /\ produces_at sk elems s x) vs sizes /\
    n = 2 + Zsum (map (fun s => 1 + s) sizes).
Proof.
  induction N as [|N IH]; intros n Hn HN v (i & Hi & HR); [lia|].
  rewrite (cardD_Enum sk e _ n elist_Enum) in Hi.
  destruct (Z.leb_spec n 0); [lia|].
  destruct (IndexR_Enum_inv sk e _ n i _ elist_Enum HR) as (c & i' & Hpk & HRc).
  destruct (pick_spec _ _ _ _ _ (proj1 Hi) Hpk) as (p & Hp & _ & Hb').
  destruct p as [|[|p]]; simpl in Hp; simplify_eq.
  - rewrite (cardD_Constructor0 sk _ _ _ elist_nil) in Hb'.
    destruct (Z.eqb_spec (n - 1) 1); [|lia].
    pose proof (IndexR_Constructor0_inv sk _ _ _ _ _ elist_nil HRc) as E.
    injection E as ->. exists [], []. split; [done|]. split; [constructor|]. simpl. lia.
  - rewrite (cardD_Constructor sk _ _ _ _ elist_wf elist_app) in Hb'.
    destruct (IndexR_Constructor_inv sk _ _ _ _ _ _ elist_app HRc) as (args & HD & Eargs).
    destruct (DecodeR_cons_bounds sk elems [e] (n - 1) i' args ltac:(done) ltac:(lia) Hb' HD)
      as (esize & ei & q & res1 & Hes & Hei & Hq & _ & HR1 & Hm).
    destruct res1 as [a|]; [|by subst args].
    destruct Hm as (args2 & HD2 & ->).
    destruct (DecodeR_last_inv _ _ _ _ _ HD2) as (res2 & HR2 & ->).
    destruct res2 as [[z|xs]|]; [done| |done]. simpl in Eargs. injection Eargs as ->.
    cbn [prodcard] in Hq.
    destruct (IH (n - 1 - esize) ltac:(lia) ltac:(lia) (VList xs)) as (vs & sizes & E & Hvs & En).
    { by exists q. }
    injection E as ->.
    exists (vs ++ [a]), (sizes ++ [esize]). split; [done|]. split.
    + apply Forall2_app; [done|]. constructor; [|constructor]. split; [lia|]. by exists ei.
    + rewrite map_app, Zsum_app. simpl. lia.
Qed.

Lemma sizes_nonneg (vs : list value) sizes :
  Forall2 (fun x s => 0 <= s /\ produces_at sk elems s x) vs sizes ->
  0 <= Zsum (map (fun s => 1 + s) sizes).
Proof.
  intros H. apply Zsum_nonneg. intros s Hs.
  apply list_elem_of_lookup in Hs as [k Hk].
  destruct (Forall2_lookup_r _ _ _ _ _ H Hk) as (x & _ & Hx & _). lia.
Qed.

Lemma elist_encode vs :
  forall sizes,
    Forall2 (fun x s => 0 <= s /\ produces_at sk elems s x) vs sizes ->
    produces_at sk e (2 + Zsum (map (fun s => 1 + s) sizes)) (VList vs).
Proof.
  induction vs as [|a vs IH] using rev_ind; intros sizes Hvs.
  - apply Forall2_nil_inv_l in Hvs as ->.
    change (2 + Zsum (map (fun s => 1 + s) [])) with 2. exists 0. split.
    + rewrite (cardD_Enum sk e _ _ elist_Enum). cbn [Z.leb Z.compare map Zsum fold_right].
      rewrite (cardD_Constructor0 sk _ _ _ elist_nil). change (2 - 1 =? 1) with true.
      pose proof (cardD_nonneg sk (S (S e)) (2 - 1)). lia.
    + apply (IR_Enum sk e _ 2 0 (S e) 0 _ elist_Enum).
      * cbn [pick]. rewrite (cardD_Constructor0 sk _ _ _ elist_nil). done.
      * apply (IR_Constructor0 sk (S e) nil_builder (2 - 1) 0 elist_nil).
  - apply Forall2_app_inv_l in Hvs as (sizes' & sx & Hvs & Hx & ->).
    apply Forall2_cons_inv_l in Hx as (x & sn & [Hx (ei & Hei & HRa)] & Hnil & ->).
    apply Forall2_nil_inv_l in Hnil as ->.
    pose proof (sizes_nonneg vs sizes' Hvs) as Hpos.
    destruct (IH sizes' Hvs) as (j & Hj & HRj). clear IH.
    set (m := 2 + Zsum (map (fun s => 1 + s) sizes')) in *.
    replace (2 + Zsum (map (fun s => 1 + s) (sizes' ++ [x]))) with (m + 1 + x).
    2:{ unfold m. rewrite map_app, Zsum_app. simpl. lia. }
    set (n := m + 1 + x).
    set (f := block sk elems [e] (n - 1)).
    assert (Hf : forall s, 0 <= f s).
    { intros s. unfold f, block. apply Z.mul_nonneg_nonneg; [apply cardD_nonneg|].
      apply prodcard_nonneg. intros; apply cardD_nonneg. }
    set (c := cardD sk elems x) in *.
    assert (Hfx : f x = c * cardD sk e m).
    { unfold f, block. cbn [prodcard]. by replace (n - 1 - x) with m by (unfold n; lia). }
    set (i1 := ei + c * j).
    assert (Hi1 : 0 <= i1 < f x) by (rewrite Hfx; unfold i1; nia).
    set (i := i1 + Zsum (map f (range x))).
    assert (Hi0 : 0 <= i).
    { unfold i. assert (0 <= Zsum (map f (range x))); [|lia].
      apply Zsum_nonneg. intros; apply Hf. }
    assert (Hsearch : searchR f i 0 i1 x).
    { pose proof (searchR_intro f (Z.to_nat x) 0 i1) as H.
      rewrite Z2Nat.id in H by lia. cbv [Z.add] in H. apply H; [done|].
      intros; apply Hf. }
    assert (H3 : cardD sk (S (S e)) (n - 1) = Zsum (map f (range n))).
    { rewrite (cardD_Constructor sk _ _ _ _ elist_wf elist_app).
      rewrite prodcard_block_sum by (done || lia).
      by replace (n - 1 + 1) with n by lia. }
    assert (H2 : cardD sk (S e) (n - 1) = 0).
    { rewrite (cardD_Constructor0 sk _ _ _ elist_nil).
      destruct (Z.eqb_spec (n - 1) 1); [lia | done]. }
    assert (Hi : i < Zsum (map f (range n))).
    { pose proof (Zsum_range_lt f x n Hf ltac:(lia)). unfold i. lia. }
    assert (Hmod : i1 mod c = ei /\ i1 / c = j).
    { unfold i1. rewrite (Z.mul_comm c j).
      rewrite Z.mod_add, Z.div_add by lia.
      rewrite Z.mod_small, Z.div_small by lia. lia. }
    destruct Hmod as [Hmod Hdiv].
    exists i. split.
    + rewrite (cardD_Enum sk e _ _ elist_Enum).
      destruct (Z.leb_spec n 0); [lia|]. cbn [map Zsum fold_right]. lia.
    + apply (IR_Enum sk e _ n i (S (S e)) i _ elist_Enum).
      * cbn [pick]. rewrite H2, H3.
        destruct (Z.ltb_spec i 0); [lia|]. rewrite Z.sub_0_r.
        destruct (Z.ltb_spec i (Zsum (map f (range n)))); [done | lia].
      * replace (Some (VList (vs ++ [a]))) with (Some [a; VList vs] ≫= app) by done.
        apply (IR_Constructor sk (S (S e)) app [elems; e]); [apply elist_app|].
        replace (Some [a; VList vs])
          with (Some [VList vs] ≫= fun l => Some (a :: l)) by done.
        apply (DR_cons sk elems [e] (n - 1) i i1 x); [done | done | |].
        -- fold c. by rewrite Hmod.
        -- fold c. rewrite Hdiv. replace (n - 1 - x) with m by (unfold n; lia).
           replace (Some [VList vs]) with (Some (VList vs) ≫= fun v => Some [v]) by done.
           by apply DR_last.
Qed.

End ElistValues.

(** X20: the values of [elist(elems)] are the lists of values of [elems]:
    [index(n, i)], within the contract, returns a list of values that
    [elems] returns at sizes [s1], ..., [sk] with
    [n = 2 + (1 + s1) + ... + (1 + sk)], and every such list is returned
    for some [i < card(n)]. *)
Theorem elist_values h elems n v :
  built h -> (elems < length h)%nat -> 0 <= n ->
  yields_at (snd (elist elems h)) (fst (elist elems h)) n v <->
  exists vs sizes,
    v = VList vs /\
    Forall2 (fun x s => 0 <= s /\ yields_at (snd (elist elems h)) elems s x) vs sizes /\
    n = 2 + Zsum (map (fun s => 1 + s) sizes).
Proof.
  intros Hb He Hn.
  pose proof (built_consistent _ (elist_built elems h Hb He)) as Hc.
  assert (Hlen : length (snd (elist elems h)) = (length h + 3)%nat).
  { rewrite elist_heap. simpl. by rewrite length_app. }
  assert (Hfst : fst (elist elems h) = length h) by (by rewrite elist_heap).
  rewrite Hfst.
  rewrite (yields_produces_at _ _ n v Hc) by (rewrite ?Hlen; lia).
  assert (HF : forall vs sizes,
            Forall2 (fun x s => 0 <= s /\ yields_at (snd (elist elems h)) elems s x) vs sizes <->
            Forall2 (fun x s => 0 <= s /\
                       produces_at (skeleton (snd (elist elems h))) elems s x) vs sizes).
  { intros vs sizes.
    split; intros HF; (eapply Forall2_impl; [exact HF|]); intros x s [Hs H];
      (split; [done|]); apply (yields_produces_at _ _ s x Hc); (done || rewrite ?Hlen; lia). }
  split.
  - intros H.
    destruct (elist_decode elems h Hb He (S (Z.to_nat n)) n Hn ltac:(lia) v H)
      as (vs & sizes & -> & Hvs & ->).
    exists vs, sizes. split; [done|]. split; [by apply HF | done].
  - intros (vs & sizes & -> & Hvs & ->). apply (elist_encode elems h Hb He). by apply HF.
Qed.

Lemma elist_values_witness :
  yields_at (snd (elist 0%nat [IntEnum])) (fst (elist 0%nat [IntEnum])) 4 (VList [VInt 1]) <->
  exists vs sizes,
    VList [VInt 1] = VList vs /\
    Forall2 (fun x s => 0 <= s /\ yields_at (snd (elist 0%nat [IntEnum])) 0%nat s x) vs sizes /\
    4 = 2 + Zsum (map (fun s => 1 + s) sizes).
Proof.
  apply (elist_values [IntEnum] 0%nat 4 (VList [VInt 1]) (built_IntEnum [] built_empty)).
  - simpl. lia.
  - lia.
Defined.

Lemma nat_list_rec n :
  1 <= n ->
  cardD (skeleton nat_list_heap) nat_list n =
    (if n =? 2 then 1 else 0) +
    Zsum (map (cardD (skeleton nat_list_heap) nat_list) (range n)).
Proof.
  intros Hn.
  pose proof (elist_cardD 0%nat [IntEnum] n (built_IntEnum [] built_empty)
                ltac:(simpl; lia) Hn) as H.
  cbv zeta in H. change (snd (elist 0%nat [IntEnum])) with nat_list_heap in H.
  change (fst (elist 0%nat [IntEnum])) with nat_list in H.
  rewrite H. f_equal.
  rewrite (Zsum_ext _ (fun s => cardD (skeleton nat_list_heap) nat_list (n - 1 - s))).
  2:{ intros s _. rewrite (cardD_IntEnum _ 0%nat) by done. lia. }
  rewrite <- (Z2Nat.id n) by lia.
  symmetry. apply Zsum_range_flip.
Qed.

Lemma nat_list_sum (k : nat) :
  Zsum (map (cardD (skeleton nat_list_heap) nat_list) (range (3 + Z.of_nat k))) =
  2 ^ Z.of_nat k.
Proof.
  induction k as [|k IH]; [by vm_compute|].
  replace (3 + Z.of_nat (S k)) with (3 + Z.of_nat k + 1) by lia.
  rewrite Zsum_range_S by lia. rewrite nat_list_rec by lia.
  destruct (Z.eqb_spec (3 + Z.of_nat k) 2); [lia|]. rewrite IH.
  replace (Z.of_nat (S k)) with (Z.of_nat k + 1) by lia.
  rewrite Z.pow_add_r by lia. lia.
Qed.

(** X15: [elist(IntEnum())] has [2^(n-3)] lists of size [n], for every
    [n >= 3]. *)
Theorem nat_list_card n :
  3 <= n ->
  exists h', Runs (fun f => card f nat_list n) nat_list_heap (Ret (2 ^ (n - 3)) h').
Proof.
  intros Hn.
  destruct (card_total nat_list_heap nat_list n nat_list_consistent
              ltac:(vm_compute; lia) ltac:(lia)) as (h' & Hrun & _).
  exists h'.
  replace (2 ^ (n - 3)) with (cardD (skeleton nat_list_heap) nat_list n); [done|].
  assert (E : n = 3 + Z.of_nat (Z.to_nat (n - 3))) by lia.
  rewrite E at 1. rewrite nat_list_rec by lia.
  destruct (Z.eqb_spec (3 + Z.of_nat (Z.to_nat (n - 3))) 2); [lia|].
  rewrite nat_list_sum. rewrite Z2Nat.id by lia. lia.
Qed.

Lemma nat_list_card_witness :
  exists h', Runs (fun f => card f nat_list 7) nat_list_heap (Ret (2 ^ (7 - 3)) h').
Proof. apply (nat_list_card 7). lia. Defined.

Lemma nat_list_size_pos l : Forall (Z.le 0) l -> 2 <= nat_list_size l.
Proof.
  intros Hl. unfold nat_list_size.
  assert (0 <= Zsum (map (fun x => 1 + x) l)); [|lia].
  apply Zsum_nonneg. intros x Hx. rewrite Forall_forall in Hl. specialize (Hl x Hx). lia.
Qed.

Lemma nat_list_encode l :
  Forall (Z.le 0) l ->
  exists i,
    0 <= i < cardD (skeleton nat_list_heap) nat_list (nat_list_size l) /\
    IndexR (skeleton nat_list_heap) nat_list (nat_list_size l) i (Some (VList (map VInt l))).
Proof.
  set (sk := skeleton nat_list_heap).
  assert (Hwf : wf_skel sk = true) by reflexivity.
  induction l as [|x xs IH] using rev_ind; intros Hl.
  - exists 0. split; [by vm_compute|].
    apply (IR_Enum sk nat_list [2%nat; 3%nat] 2 0 2%nat 0); [done | by vm_compute |].
    apply (IR_Constructor0 sk 2%nat nil_builder); done.
  - apply Forall_app in Hl as [Hxs Hx]. rewrite Forall_singleton in Hx.
    destruct (IH Hxs) as (j & Hj & HRj). clear IH.
    pose proof (nat_list_size_pos xs Hxs) as Hm.
    set (m := nat_list_size xs) in *.
    assert (En : nat_list_size (xs ++ [x]) = m + 1 + x).
    { unfold m, nat_list_size. rewrite map_app, Zsum_app. simpl. lia. }
    rewrite En. set (n := m + 1 + x).
    set (f := block sk 0%nat [nat_list] (n - 1)).
    assert (Hf : forall s, 0 <= f s).
    { intros s. unfold f, block. apply Z.mul_nonneg_nonneg; [apply cardD_nonneg|].
      apply prodcard_nonneg. intros; apply cardD_nonneg. }
    assert (Hfx : f x = cardD sk nat_list m).
    { unfold f, block. rewrite (cardD_IntEnum sk 0%nat) by done. cbn [prodcard].
      replace (n - 1 - x) with m by (unfold n; lia). lia. }
    set (i := j + Zsum (map f (range x))).
    assert (Hi0 : 0 <= i).
    { unfold i. assert (0 <= Zsum (map f (range x))); [|lia].
      apply Zsum_nonneg. intros; apply Hf. }
    assert (Hsearch : searchR f i 0 j x).
    { pose proof (searchR_intro f (Z.to_nat x) 0 j) as H.
      rewrite Z2Nat.id in H by lia. cbv [Z.add] in H. apply H; [rewrite Hfx; lia|].
      intros; apply Hf. }
    assert (H3 : cardD sk 3%nat (n - 1) = Zsum (map f (range n))).
    { rewrite (cardD_Constructor sk 3%nat app [0%nat; nat_list]) by done.
      rewrite prodcard_block_sum by (done || lia).
      by replace (n - 1 + 1) with n by lia. }
    assert (H2 : cardD sk 2%nat (n - 1) = 0).
    { rewrite (cardD_Constructor0 sk 2%nat nil_builder) by done.
      destruct (Z.eqb_spec (n - 1) 1); [lia | done]. }
    assert (Hi : i < Zsum (map f (range n))).
    { pose proof (Zsum_range_lt f x n Hf ltac:(lia)). unfold i. lia. }
    exists i. split.
    + rewrite (cardD_Enum sk nat_list [2%nat; 3%nat]) by done.
      destruct (Z.leb_spec n 0); [lia|]. cbn [map Zsum fold_right]. lia.
    + apply (IR_Enum sk nat_list [2%nat; 3%nat] n i 3%nat i); [done| |].
      * cbn [pick]. rewrite H2, H3.
        destruct (Z.ltb_spec i 0); [lia|]. rewrite Z.sub_0_r.
        destruct (Z.ltb_spec i (Zsum (map f (range n)))); [done | lia].
      * replace (Some (VList (map VInt (xs ++ [x]))))
          with (Some [VInt x; VList (map VInt xs)] ≫= app).
        2:{ simpl. by rewrite map_app. }
        apply (IR_Constructor sk 3%nat app [0%nat; nat_list]); [done|].
        replace (Some [VInt x; VList (map VInt xs)])
          with (Some [VList (map VInt xs)] ≫= fun vs => Some (VInt x :: vs)) by done.
        apply (DR_cons sk 0%nat [nat_list] (n - 1) i j x); [done | done | |].
        -- by apply IR_IntEnum.
        -- rewrite (cardD_IntEnum sk 0%nat) by done. rewrite Z.div_1_r.
           replace (n - 1 - x) with m by (unfold n; lia).
           replace (Some [VList (map VInt xs)])
             with (Some (VList (map VInt xs)) ≫= fun v => Some [v]) by done.
           by apply DR_last.
Qed.

(** X17: [elist(IntEnum())] enumerates every list of naturals exactly once:
    a list [l] is [index(n, i)] for [n] the size [nat_list_size l] and one
    [i < card(n)], and for no other size and index. *)
Theorem nat_list_every_list l :
  Forall (Z.le 0) l ->
  exists i c hc h',
    Runs (fun f => card f nat_list (nat_list_size l)) nat_list_heap (Ret c hc) /\
    0 <= i < c /\
    Runs (fun f => index f nat_list (nat_list_size l) i) nat_list_heap
         (Ret (VList (map VInt l)) h') /\
    forall m j cm hm hj,
      0 <= m -> Runs (fun f => card f nat_list m) nat_list_heap (Ret cm hm) ->
      0 <= j < cm ->
      Runs (fun f => index f nat_list m j) nat_list_heap (Ret (VList (map VInt l)) hj) ->
      m = nat_list_size l /\ j = i.
Proof.
  intros Hl. set (h := nat_list_heap). set (n := nat_list_size l).
  assert (Hn : 0 <= n) by (pose proof (nat_list_size_pos l Hl); unfold n; lia).
  assert (Hr : (nat_list < length h)%nat) by (vm_compute; lia).
  pose proof nat_list_consistent as Hc.
  destruct (nat_list_encode l Hl) as (i & Hi & HR).
  destruct (card_total h nat_list n Hc Hr Hn) as (hc & Hcard & _).
  destruct (index_value h nat_list n i _ Hc Hr Hn Hi HR) as [h' Hrun].
  exists i, (cardD (skeleton h) nat_list n), hc, h'.
  split; [done|]. split; [done|]. split; [done|].
  intros m j cm hm hj Hm Hcm Hj Hrunj.
  rewrite (card_value h nat_list m cm hm Hc Hr Hm Hcm) in Hj.
  destruct (index_total h nat_list m j Hc Hr Hm Hj) as (res & hj' & HRj & Hrunj' & _).
  pose proof (Runs_det _ _ _ _ Hrunj Hrunj') as E. symmetry in E. apply out_Ret in E.
  subst res.
  destruct (inj_at_heap h nat_list n Hc nat_list_unambiguous Hr Hn m i j _ Hm Hi Hj HR HRj).
  done.
Qed.

Lemma nat_list_every_list_witness :
  exists i c hc h',
    Runs (fun f => card f nat_list (nat_list_size [1; 0])) nat_list_heap (Ret c hc) /\
    0 <= i < c /\
    Runs (fun f => index f nat_list (nat_list_size [1; 0]) i) nat_list_heap
         (Ret (VList (map VInt [1; 0])) h') /\
    forall m j cm hm hj,
      0 <= m -> Runs (fun f => card f nat_list m) nat_list_heap (Ret cm hm) ->
      0 <= j < cm ->
      Runs (fun f => index f nat_list m j) nat_list_heap (Ret (VList (map VInt [1; 0])) hj) ->
      m = nat_list_size [1; 0] /\ j = i.
Proof. apply (nat_list_every_list [1; 0]). repeat constructor; lia. Defined.

(** ** [listToMap] *)

Lemma key_inj (k k' : Z) : "a" +:+ pretty k = "a" +:+ pretty k' -> k = k'.
Proof. intros H. apply String.app_inj in H. by apply (inj pretty) in H. Qed.

Lemma listToMap_for_lookup xs :
  forall res key,
    (forall k, key <= k -> res !! ("a" +:+ pretty k) = None) ->
    forall k,
      listToMap_for xs res key !! ("a" +:+ pretty k) =
        if decide (key <= k) then xs !! Z.to_nat (k - key) else res !! ("a" +:+ pretty k).
Proof.
  induction xs as [|x xs IH]; intros res key Hres k; simpl.
  - destruct (decide (key <= k)); [by apply Hres | done].
  - rewrite IH.
    + destruct (decide (key + 1 <= k)), (decide (key <= k)); try lia.
      * replace (Z.to_nat (k - key)) with (S (Z.to_nat (k - (key + 1)))) by lia. done.
      * assert (k = key) as -> by lia. rewrite Z.sub_diag. simpl.
        by rewrite lookup_insert_eq.
      * rewrite lookup_insert_ne; [done|]. intros E. apply key_inj in E. lia.
    + intros k' Hk'. rewrite lookup_insert_ne; [apply Hres; lia|].
      intros E. apply key_inj in E. lia.
Qed.

Lemma listToMap_for_size xs :
  forall res key,
    (forall k, key <= k -> res !! ("a" +:+ pretty k) = None) ->
    size (listToMap_for xs res key) = (size res + length xs)%nat.
Proof.
  induction xs as [|x xs IH]; intros res key Hres; simpl; [lia|].
  rewrite IH.
  - rewrite map_size_insert_None by (apply Hres; lia). lia.
  - intros k' Hk'. rewrite lookup_insert_ne; [apply Hres; lia|].
    intros E. apply key_inj in E. lia.
Qed.

(** X18: [listToMap(xs)] holds [xs[k]] under the key ["a" + str(k)] and has
    no other entry, so the list can be read back from the dictionary:
    [listToMap] is injective. *)
Theorem listToMap_round_trip xs :
  (forall k, 0 <= k -> listToMap xs !! ("a" +:+ pretty k) = xs !! Z.to_nat k) /\
  size (listToMap xs) = length xs /\
  (forall ys, listToMap ys = listToMap xs -> ys = xs).
Proof.
  assert (Hl : forall zs k, 0 <= k ->
            listToMap zs !! ("a" +:+ pretty k) = zs !! Z.to_nat k).
  { intros zs k Hk. unfold listToMap. rewrite listToMap_for_lookup by done.
    destruct (decide (0 <= k)); [|lia]. by rewrite Z.sub_0_r. }
  assert (Hs : forall zs, size (listToMap zs) = length zs).
  { intros zs. unfold listToMap. by rewrite listToMap_for_size. }
  split; [by apply Hl|]. split; [by apply Hs|].
  intros ys E. apply list_eq. intros k.
  rewrite <- (Nat2Z.id k). rewrite <- !Hl by lia. by rewrite E.
Qed.
